(** * Stabilizer-tableau engine of qibo (backends/clifford_operations.py)

    A shallow embedding of [CliffordOperations] and [tableau_to_generators].

    - A numpy 2-D array is the list of its rows ([matrix]); arrays are
      rectangular, and the column count of an array is read off its first
      row (an array without rows counts as having no columns, which is what
      the views of a square tableau of side [2n + 1] need).
    - An array has a dtype.  Three are modelled: [bool_], the dtype of the
      tableaux qibo builds, [uint8] and [int64].  The entries are [Z] values
      (0 and 1 for a tableau).  The gates, the accessors and the decoder do
      the same on the three dtypes; [exponent] does not, because it
      subtracts two scalars read from the array: numpy has no subtraction
      of booleans ([TypeError]) and integer scalars wrap around.  The
      functions that reach [exponent] therefore take the dtype [dt] of the
      array they are given as a parameter; [copy] and assignment keep the
      dtype of an array, so it is the dtype of every array derived from it.
    - Scalar arithmetic is that of NumPy 1.x, the version the code was
      written for: a Python int combined with a numpy scalar gives an
      [int64] scalar.  [np.sum] and the phase expression of [rowsum]
      accumulate in 64 bits; their values are bounded by 255 times the
      number of columns, so they are exact.
    - [functools.cache] on [exponent] and [nqubits] is transparent as long
      as equal arguments give equal results, which holds within one dtype:
      the model describes a process whose tableaux all have the dtype [dt].
    - Python indices are [Z]: a negative index counts from the end, an index
      outside [-len, len) raises [IndexError]; slice bounds are clamped.
    - Array objects live in a heap of arrays addressed by location, so that
      [tableau.copy()], in-place assignment and rebinding of a local name are
      all visible.  Python exceptions are the [Raise] results of the monad.
    - An accessor returns a view: each use of the view reads the array it
      was taken from, as it is at that moment.
    - The random bit drawn by a measurement comes from a tape [nat -> bool]
      read at the position stored in the world.
    - [int((shape - 1) / 2)] is the quotient truncated towards zero, which
      is what the float division gives for every side length an array can
      have. *)

From Stdlib Require Import ZArith Lia Bool.
From stdpp Require Import base list strings pretty.

Local Open Scope Z_scope.

(** ** Python results *)

Inductive pyerr := IndexError | ValueError | TypeError | KeyError | BadReference.

Inductive result (A : Type) :=
  | Ok (a : A)
  | Raise (e : pyerr).
Arguments Ok {A} a.
Arguments Raise {A} e.

Definition rbind {A B} (m : result A) (k : A -> result B) : result B :=
  match m with
  | Ok a => k a
  | Raise e => Raise e
  end.

Notation "'res' x <- m ; k" := (rbind m (fun x => k))
  (at level 10, x name, m at level 100, k at level 200).

Fixpoint rmapM {A B} (f : A -> result B) (l : list A) : result (list B) :=
  match l with
  | [] => Ok []
  | a :: l' => res b <- f a ; res bs <- rmapM f l' ; Ok (b :: bs)
  end.

(** ** The numpy layer: indexing, slicing, broadcasting *)

Module Np.

Abbreviation matrix := (list (list Z)).

Definition nrows (T : matrix) : nat := length T.
Definition ncols (T : matrix) : nat :=
  match T with
  | [] => 0%nat
  | r :: _ => length r
  end.

(** [a[i]] on an axis of size [len]. *)
Definition norm_index (len : nat) (i : Z) : result nat :=
  if (0 <=? i) && (i <? Z.of_nat len) then Ok (Z.to_nat i)
  else if (- Z.of_nat len <=? i) && (i <? 0) then Ok (Z.to_nat (Z.of_nat len + i))
  else Raise IndexError.

(** A slice bound [k] on an axis of size [len], clamped as Python does. *)
Definition slice_bound (len : nat) (k : Z) : nat :=
  if k <? 0 then Z.to_nat (Z.max 0 (Z.of_nat len + k))
  else Nat.min (Z.to_nat k) len.

(** [l[:stop]], [l[start:]] and [l[start:stop]]. *)
Definition slice_to {A} (stop : Z) (l : list A) : list A :=
  take (slice_bound (length l) stop) l.
Definition slice_from {A} (start : Z) (l : list A) : list A :=
  drop (slice_bound (length l) start) l.
Definition slice {A} (start stop : Z) (l : list A) : list A :=
  drop (slice_bound (length l) start) (take (slice_bound (length l) stop) l).

(** [v[i]] for a 1-D array. *)
Definition index (v : list Z) (i : Z) : result Z :=
  res j <- norm_index (length v) i ; Ok (v !!! j).

(** [T[i, j]], [T[i, :]] and [T[:, j]]. *)
Definition item (T : matrix) (i j : Z) : result Z :=
  res ii <- norm_index (nrows T) i ;
  res jj <- norm_index (ncols T) j ;
  Ok ((T !!! ii) !!! jj).

Definition row (T : matrix) (i : Z) : result (list Z) :=
  res ii <- norm_index (nrows T) i ; Ok (T !!! ii).

Definition column (T : matrix) (j : Z) : result (list Z) :=
  res jj <- norm_index (ncols T) j ; Ok ((fun r => r !!! jj) <$> T).

(** [T[start:stop, j]]: one indexing expression, checked against [T]. *)
Definition column_slice (T : matrix) (start stop : Z) (j : Z) : result (list Z) :=
  res jj <- norm_index (ncols T) j ;
  Ok ((fun r => r !!! jj) <$> slice start stop T).

(** Broadcasting of a 1-D value to a 1-D target of size [k]. *)
Definition broadcast_to (k : nat) (val : list Z) : result (list Z) :=
  if (length val =? k)%nat then Ok val
  else match val with
       | [v] => Ok (replicate k v)
       | _ => Raise ValueError
       end.

(** Element-wise binary operator on 1-D arrays. *)
Definition ew (f : Z -> Z -> Z) (a b : list Z) : result (list Z) :=
  if (length a =? length b)%nat then Ok (zip_with f a b)
  else match a, b with
       | [x], _ => Ok (f x <$> b)
       | _, [y] => Ok ((fun x => f x y) <$> a)
       | _, _ => Raise ValueError
       end.

(** [T[i, j] = v]. *)
Definition set_item (T : matrix) (i j : Z) (v : Z) : result matrix :=
  res ii <- norm_index (nrows T) i ;
  res jj <- norm_index (ncols T) j ;
  Ok (<[ii := <[jj := v]> (T !!! ii)]> T).

(** [T[i, :] = v] for a scalar [v]. *)
Definition fill_row (T : matrix) (i : Z) (v : Z) : result matrix :=
  res ii <- norm_index (nrows T) i ;
  Ok (<[ii := replicate (ncols T) v]> T).

(** [T[i, :] = val] for a 1-D [val]. *)
Definition set_row (T : matrix) (i : Z) (val : list Z) : result matrix :=
  res ii <- norm_index (nrows T) i ;
  res vs <- broadcast_to (ncols T) val ;
  Ok (<[ii := vs]> T).

(** [T[i, start:stop] = val]. *)
Definition set_row_slice (T : matrix) (i : Z) (start stop : Z) (val : list Z)
  : result matrix :=
  res ii <- norm_index (nrows T) i ;
  let a := slice_bound (ncols T) start in
  let b := slice_bound (ncols T) stop in
  res vs <- broadcast_to (b - a) val ;
  let r := T !!! ii in
  Ok (<[ii := take a r ++ vs ++ drop (a + (b - a)) r]> T).

(** [T[:stop, j] = val]. *)
Definition set_column_to (T : matrix) (stop : Z) (j : Z) (val : list Z)
  : result matrix :=
  res jj <- norm_index (ncols T) j ;
  let k := slice_bound (nrows T) stop in
  res vs <- broadcast_to k val ;
  Ok (imap (fun i r => if (i <? k)%nat then <[jj := vs !!! i]> r else r) T).

(** [T[:, j] = val]. *)
Definition set_column (T : matrix) (j : Z) (val : list Z) : result matrix :=
  res jj <- norm_index (ncols T) j ;
  res vs <- broadcast_to (nrows T) val ;
  Ok (imap (fun i r => <[jj := vs !!! i]> r) T).



(** The dtypes of the arrays: numpy's boolean, an unsigned and the default
    signed integer type. *)
Inductive dtype := bool_ | uint8 | int64.

(** The value an integer has once it is stored in an [int64] scalar. *)
Definition wrap_int64 (v : Z) : Z := (v + 2 ^ 63) mod 2 ^ 64 - 2 ^ 63.

(** [a - b] on two scalars of dtype [dt]. *)
Definition scalar_sub (dt : dtype) (a b : Z) : result Z :=
  match dt with
  | bool_ => Raise TypeError
  | uint8 => Ok ((a - b) mod 2 ^ 8)
  | int64 => Ok (wrap_int64 (a - b))
  end.

(** [v.nonzero()[0]] and [(v == c).nonzero()[0]]: the positions, ascending. *)
Fixpoint positions (P : Z -> bool) (v : list Z) (base : nat) : list nat :=
  match v with
  | [] => []
  | a :: v' => if P a then base :: positions P v' (S base)
               else positions P v' (S base)
  end.
Definition nonzero (v : list Z) : list nat := positions (fun a => negb (a =? 0)) v 0.
Definition where_eq (c : Z) (v : list Z) : list nat := positions (fun a => a =? c) v 0.

End Np.
Import Np.

(** ** Array objects, references and the random tape *)

Abbreviation loc := nat (only parsing).

Record world := World {
  heap : list matrix;      (* the array objects allocated so far *)
  tape : nat -> bool;      (* the bits [np.random.randint(2)] will return *)
  pos : nat                (* how many bits have been drawn *)
}.

Definition Py (A : Type) := world -> result (A * world).

Definition ret {A} (a : A) : Py A := fun w => Ok (a, w).

Definition bind {A B} (m : Py A) (k : A -> Py B) : Py B :=
  fun w => match m w with
           | Ok (a, w') => k a w'
           | Raise e => Raise e
           end.

Notation "'run' x <- m ; k" := (bind m (fun x => k))
  (at level 10, x name, m at level 100, k at level 200).
Notation "'run' ' pat <- m ; k" := (bind m (fun x => match x with pat => k end))
  (at level 10, pat pattern, m at level 100, k at level 200).
Notation "m ;; k" := (bind m (fun _ => k))
  (at level 100, k at level 200, right associativity).

Definition lift {A} (r : result A) : Py A :=
  fun w => match r with
           | Ok a => Ok (a, w)
           | Raise e => Raise e
           end.

Definition load (l : loc) : Py matrix :=
  fun w => match heap w !! l with
           | Some T => Ok (T, w)
           | None => Raise BadReference
           end.

Definition store (l : loc) (T : matrix) : Py unit :=
  fun w => if (l <? length (heap w))%nat
           then Ok (tt, World (<[l := T]> (heap w)) (tape w) (pos w))
           else Raise BadReference.

Definition alloc (T : matrix) : Py loc :=
  fun w => Ok (length (heap w), World (heap w ++ [T]) (tape w) (pos w)).

(** [a.copy()] *)
Definition np_copy (l : loc) : Py loc :=
  run T <- load l ; alloc T.

(** An in-place assignment into the array at [l]. *)
Definition modify (l : loc) (f : matrix -> result matrix) : Py unit :=
  run T <- load l ; run T' <- lift (f T) ; store l T'.

(** [int(np.random.randint(2, size=1))] *)
Definition randint2 : Py Z :=
  fun w => Ok (Z.b2z (tape w (pos w)), World (heap w) (tape w) (S (pos w))).

Fixpoint pmapM {A B} (f : A -> Py B) (l : list A) : Py (list B) :=
  match l with
  | [] => ret []
  | a :: l' => run b <- f a ; run bs <- pmapM f l' ; ret (b :: bs)
  end.

Fixpoint pfold {A S} (f : S -> A -> Py S) (l : list A) (s : S) : Py S :=
  match l with
  | [] => ret s
  | a :: l' => run s' <- f s a ; pfold f l' s'
  end.

(** [np.sum(exponents)] of a Python list that may hold [None]. *)
Fixpoint np_sum (l : list (option Z)) : result Z :=
  match l with
  | [] => Ok 0
  | Some v :: l' => res s <- np_sum l' ; Ok (v + s)
  | None :: _ => Raise TypeError
  end.

(** [range(n)] *)
Definition range (n : nat) : list Z := Z.of_nat <$> seq 0 n.

(** ** class CliffordOperations *)

Module CliffordOperations.

(** The row bound [-1 + (2 * nqubits + 2) * int(include_scratch)]. *)
Definition row_stop (nqubits : nat) (include_scratch : bool) : Z :=
  -1 + (2 * Z.of_nat nqubits + 2) * Z.b2z include_scratch.

(** The accessors return numpy views: every use of a view reads the array
    it was taken from, so a view is re-evaluated where the source uses it. *)
Definition get_r (tableau : loc) (nqubits : nat) (include_scratch : bool)
  : Py (list Z) :=
  run T <- load tableau ;
  lift (column_slice T 0 (row_stop nqubits include_scratch) (-1)).

Definition set_r (tableau : loc) (val : list Z) : Py unit :=
  modify tableau (fun T => set_column_to T (-1) (-1) val).

Definition get_x (tableau : loc) (nqubits : nat) (include_scratch : bool)
  : Py matrix :=
  run T <- load tableau ;
  ret (slice_to (Z.of_nat nqubits)
         <$> slice_to (row_stop nqubits include_scratch) T).


Definition get_z (tableau : loc) (nqubits : nat) (include_scratch : bool)
  : Py matrix :=
  run T <- load tableau ;
  ret (slice (Z.of_nat nqubits) (-1)
         <$> slice_to (row_stop nqubits include_scratch) T).


Definition get_scratch (tableau : loc) : Py (list Z) :=
  run T <- load tableau ; lift (row T (-1)).

Definition set_scratch (tableau : loc) (val : Z) : Py unit :=
  modify tableau (fun T => fill_row T (-1) val).

Definition nqubits (shape : nat) : nat :=
  Z.to_nat (Z.quot (Z.of_nat shape - 1) 2).

(** The four arguments are scalars of dtype [dt], as [rowsum] passes them.
    The result is [None] when no [return] is reached.  [2 * x2], with a
    Python int, is an [int64] scalar, and so is what is computed from it. *)
Definition exponent (dt : dtype) (x1 z1 x2 z2 : Z) : result (option Z) :=
  if x1 =? z1 then
    if x1 =? 0 then Ok (Some 0)
    else if x1 =? 1 then res v <- scalar_sub dt z2 x2 ; Ok (Some v)
    else Ok None
  else
    if x1 =? 1
    then Ok (Some (wrap_int64 (z2 * wrap_int64 (wrap_int64 (2 * x2) - 1))))
    else if x1 =? 0
    then Ok (Some (wrap_int64 (x2 * wrap_int64 (1 - wrap_int64 (2 * z2)))))
    else Ok None.

Definition H (tableau : loc) (q : Z) (nqubits : nat) : Py loc :=
  run new_tab <- np_copy tableau ;
  run r <- get_r new_tab nqubits false ;
  run x <- get_x new_tab nqubits false ;
  run xq <- lift (column x q) ;
  run z <- get_z new_tab nqubits false ;
  run zq <- lift (column z q) ;
  run xz <- lift (ew Z.mul xq zq) ;
  run val <- lift (ew Z.lxor r xz) ;
  set_r new_tab val ;;
  modify new_tab (fun T =>
    res a <- column T (Z.of_nat nqubits + q) ;
    res b <- column T q ;
    res T1 <- set_column T q a ;
    set_column T1 (Z.of_nat nqubits + q) b) ;;
  ret new_tab.

Definition CNOT (tableau : loc) (control_q target_q : Z) (nqubits : nat)
  : Py loc :=
  run new_tab <- np_copy tableau ;
  let x := get_x new_tab nqubits false in
  let z := get_z new_tab nqubits false in
  run r <- get_r tableau nqubits false ;
  run xc <- (run xv <- x ; lift (column xv control_q)) ;
  run zt <- (run zv <- z ; lift (column zv target_q)) ;
  run a <- lift (ew Z.mul xc zt) ;
  run xt <- (run xv <- x ; lift (column xv target_q)) ;
  run zc <- (run zv <- z ; lift (column zv control_q)) ;
  run b <- lift (ew Z.lxor xt zc) ;
  run ab <- lift (ew Z.mul a ((fun v => Z.lxor v 1) <$> b)) ;
  run val <- lift (ew Z.lxor r ab) ;
  set_r new_tab val ;;
  run xt' <- (run xv <- x ; lift (column xv target_q)) ;
  run xc' <- (run xv <- x ; lift (column xv control_q)) ;
  run vx <- lift (ew Z.lxor xt' xc') ;
  modify new_tab (fun T => set_column_to T (-1) target_q vx) ;;
  run zc' <- (run zv <- z ; lift (column zv control_q)) ;
  run zt' <- (run zv <- z ; lift (column zv target_q)) ;
  run vz <- lift (ew Z.lxor zc' zt') ;
  modify new_tab (fun T => set_column_to T (-1) (Z.of_nat nqubits + control_q) vz) ;;
  ret new_tab.

Definition S (tableau : loc) (q : Z) (nqubits : nat) : Py loc :=
  run new_tab <- np_copy tableau ;
  run r <- get_r tableau nqubits false ;
  run xq <- (run xv <- get_x tableau nqubits false ; lift (column xv q)) ;
  run zq <- (run zv <- get_z tableau nqubits false ; lift (column zv q)) ;
  run xz <- lift (ew Z.mul xq zq) ;
  run val <- lift (ew Z.lxor r xz) ;
  set_r new_tab val ;;
  run zq' <- (run zv <- get_z tableau nqubits false ; lift (column zv q)) ;
  run xq' <- (run xv <- get_x tableau nqubits false ; lift (column xv q)) ;
  run vz <- lift (ew Z.lxor zq' xq') ;
  modify new_tab (fun T => set_column_to T (-1) (Z.of_nat nqubits + q) vz) ;;
  ret new_tab.

Definition rowsum (dt : dtype) (tableau : loc) (h i : Z) (nqubits : nat)
    (include_scratch : bool) : Py loc :=
  run new_tab <- np_copy tableau ;
  let x := get_x new_tab nqubits include_scratch in
  let z := get_z new_tab nqubits include_scratch in
  run exponents <- pmapM (fun j =>
      run xv <- x ;
      run x1 <- lift (item xv i j) ;
      run x2 <- lift (item xv h j) ;
      run zv <- z ;
      run z1 <- lift (item zv i j) ;
      run z2 <- lift (item zv h j) ;
      lift (exponent dt x1 z1 x2 z2)) (range nqubits) ;
  run rh <- (run T <- load new_tab ; lift (item T h (-1))) ;
  run ri <- (run T <- load new_tab ; lift (item T i (-1))) ;
  run s <- lift (np_sum exponents) ;
  (if (2 * rh + 2 * ri + s) mod 4 =? 0
   then modify new_tab (fun T => set_item T h (-1) 0)
   else modify new_tab (fun T => set_item T h (-1) 1)) ;;
  run xi <- (run xv <- x ; lift (row xv i)) ;
  run xh <- (run xv <- x ; lift (row xv h)) ;
  run vx <- lift (ew Z.lxor xi xh) ;
  modify new_tab (fun T => set_row_slice T h 0 (Z.of_nat nqubits) vx) ;;
  run zi <- (run zv <- z ; lift (row zv i)) ;
  run zh <- (run zv <- z ; lift (row zv h)) ;
  run vz <- lift (ew Z.lxor zi zh) ;
  modify new_tab (fun T => set_row_slice T h (Z.of_nat nqubits) (-1) vz) ;;
  ret new_tab.

(** One iteration of the loop [for q in qubits] of [M]: the new binding of
    [state_copy] and the outcome appended to [sample]. *)
Definition M_step (dt : dtype) (state_copy : loc) (q : Z) (nqubits : nat)
  : Py (loc * Z) :=
  let x := get_x state_copy nqubits false in
  run p <- (run xv <- x ;
            run c <- lift (column (slice_from (Z.of_nat nqubits) xv) q) ;
            ret ((fun k => (k + nqubits)%nat) <$> nonzero c)) ;
  match p with
  | p :: _ =>
      (* random outcome, affects the state *)
      run rows <- (run xv <- x ; run c <- lift (column xv q) ; ret (nonzero c)) ;
      run state_copy <- pfold (fun sc i =>
          if (i =? p)%nat then ret sc
          else rowsum dt sc (Z.of_nat i) (Z.of_nat p) nqubits false)
        rows state_copy ;
      run rp <- (run T <- load state_copy ; lift (row T (Z.of_nat p))) ;
      modify state_copy (fun T => set_row T (Z.of_nat p - Z.of_nat nqubits) rp) ;;
      run outcome <- randint2 ;
      modify state_copy (fun T => fill_row T (Z.of_nat p) 0) ;;
      modify state_copy (fun T => set_item T (Z.of_nat p) (-1) outcome) ;;
      modify state_copy (fun T => set_item T (Z.of_nat p) (Z.of_nat nqubits + q) 1) ;;
      ret (state_copy, outcome)
  | [] =>
      (* determined outcome, state unchanged *)
      set_scratch state_copy 0 ;;
      run rows <- (run xv <- x ; run c <- lift (column xv q) ; ret (where_eq 1 c)) ;
      run state_copy <- pfold (fun sc i =>
          rowsum dt sc (2 * Z.of_nat nqubits) (Z.of_nat i + Z.of_nat nqubits)
                 nqubits true)
        rows state_copy ;
      run scratch <- get_scratch state_copy ;
      run outcome <- lift (index scratch (-1)) ;
      ret (state_copy, outcome)
  end.

Fixpoint M_loop (dt : dtype) (state_copy : loc) (qubits : list Z)
    (nqubits : nat) (sample : list Z) : Py (loc * list Z) :=
  match qubits with
  | [] => ret (state_copy, sample)
  | q :: qubits' =>
      run '(state_copy', outcome) <- M_step dt state_copy q nqubits ;
      M_loop dt state_copy' qubits' nqubits (sample ++ [outcome])
  end.

Definition M (dt : dtype) (state : loc) (qubits : list Z) (nqubits : nat)
    (collapse : bool) : Py (list Z) :=
  run state_copy <- (if collapse then ret state else np_copy state) ;
  run '(_, sample) <- M_loop dt state_copy qubits nqubits [] ;
  ret sample.

End CliffordOperations.

(** Modelled from the spec: the constructor of the initial tableau
    ([CliffordBackend.zero_state], in backends/clifford.py) is not part of the
    sources at hand.  Destabilizer row [i] is the single-qubit X on qubit [i],
    stabilizer row [n + i] the single-qubit Z on qubit [i], every phase bit
    and the scratch row are 0. *)
Definition zero_state (n : nat) : matrix :=
  (fun i => (fun j => if ((i =? j) && (i <? 2 * n))%nat then 1 else 0)
              <$> seq 0 (2 * n + 1))
    <$> seq 0 (2 * n + 1).

(** ** Gate objects and dense arrays used by the decoder *)

(** Complex numbers with integer parts: [(re, im)]. *)
Definition C := (Z * Z)%type.
Definition cmul (a b : C) : C :=
  (fst a * fst b - snd a * snd b, fst a * snd b + snd a * fst b).

(** [1j ** r] for an integer [r]. *)
Definition ipow (r : Z) : C :=
  match r mod 4 with
  | 0 => (1, 0)
  | 1 => (0, 1)
  | 2 => (-1, 0)
  | _ => (0, -1)
  end.

(** An n-dimensional array: its shape and its entries in C order. *)
Record ndarray := NdArray { dims : list nat; flat : list C }.

(** [np.tensordot(a, b, axes=0)]: the outer product. *)
Definition tensordot0 (a b : ndarray) : ndarray :=
  NdArray (dims a ++ dims b) (concat ((fun u => cmul u <$> flat b) <$> flat a)).

Fixpoint chunks {A} (rows cols : nat) (l : list A) : list (list A) :=
  match rows with
  | O => []
  | Datatypes.S k => take cols l :: chunks k cols (drop cols l)
  end.

(** [a.reshape(rows, cols)] *)
Definition reshape (rows cols : nat) (a : ndarray) : result (list (list C)) :=
  if (length (flat a) =? rows * cols)%nat then Ok (chunks rows cols (flat a))
  else Raise ValueError.

Module gates.

Inductive kind := I | X | Y | Z.

(** A single-qubit gate object [gates.X(i)]: its kind and its target. *)
Record gate := Gate { name : kind; target : nat }.

End gates.

(** Modelled from the spec: the gate classes of [qibo.gates] are external
    to the sources at hand; [matrix()] of the four Pauli gates is the usual
    2x2 matrix. *)
Definition gate_matrix (g : gates.gate) : ndarray :=
  NdArray [2%nat; 2%nat]
    match gates.name g with
    | gates.I => [(1, 0); (0, 0); (0, 0); (1, 0)]
    | gates.X => [(0, 0); (1, 0); (1, 0); (0, 0)]
    | gates.Y => [(0, 0); (0, -1); (0, 1); (0, 0)]
    | gates.Z => [(1, 0); (0, 0); (0, 0); (-1, 0)]
    end.

(** ** tableau_to_generators *)

Inductive generator :=
  | Paulis (paulis : list gates.gate)
  | Dense (m : list (list C)).

Definition bits_to_gate : list (string * gates.kind) :=
  [("00", gates.I); ("01", gates.X); ("10", gates.Z); ("11", gates.Y)]%string.

(** [d[key]] on a dict literal *)
Fixpoint dict_get {V} (d : list (string * V)) (key : string) : result V :=
  match d with
  | [] => Raise KeyError
  | (k, v) :: d' => if String.eqb k key then Ok v else dict_get d' key
  end.

(** The inner loop [for i, (xx, zz) in enumerate(zip(x, z))]. *)
Definition decode_row (x z : list Z) : result (list gates.gate) :=
  rmapM (fun '(i, (xx, zz)) =>
           res g <- dict_get bits_to_gate (pretty zz +:+ pretty xx) ;
           Ok (gates.Gate g i))
        (imap (fun i p => (i, p)) (zip x z)).

Definition to_array (paulis : list gates.gate) (nqubits : nat)
  : result (list (list C)) :=
  match paulis with
  | [] => Raise IndexError
  | p0 :: ps =>
      reshape (2 ^ nqubits) (2 ^ nqubits)
        (foldl (fun matrix p => tensordot0 matrix (gate_matrix p))
               (gate_matrix p0) ps)
  end.

Definition tableau_to_generators (tableau : loc) (return_array : bool)
  : Py (list generator * list C) :=
  run T <- load tableau ;
  let nqubits := Z.to_nat (Z.quot (Z.of_nat (nrows T) - 1) 2) in
  run r <- lift (column_slice T (Z.of_nat nqubits) (-1) (-1)) ;
  let phases := ipow <$> r in
  let tmp := slice_to (-1) <$> slice (Z.of_nat nqubits) (-1) T in
  let X := slice_to (Z.of_nat nqubits) <$> tmp in
  let Z := slice_from (Z.of_nat nqubits) <$> tmp in
  run generators <- lift (rmapM (fun '(x, z) =>
      res paulis <- decode_row x z ;
      if return_array
      then res m <- to_array paulis nqubits ; Ok (Dense m)
      else Ok (Paulis paulis)) (zip X Z)) ;
  ret (generators, phases).

(** ** Python values returned to a caller *)

Inductive pyval :=
  | VInt (v : Z)
  | VArray (l : loc)
  | VIntList (items : list Z)
  | VPair (a b : pyval).

(** The object [M] hands back: [return sample]. *)
Definition M_returns (dt : dtype) (state : loc) (qubits : list Z)
    (nqubits : nat) (collapse : bool) : Py pyval :=
  run sample <- CliffordOperations.M dt state qubits nqubits collapse ;
  ret (VIntList sample).

(** ** Vocabulary of the statements *)

(** Entry [(i, j)] of an array. *)
Definition ent (T : matrix) (i j : nat) : Z := (T !!! i) !!! j.

Definition shape (r c : nat) (T : matrix) : Prop :=
  length T = r /\ forall i, (i < r)%nat -> length (T !!! i) = c.

Definition bit (v : Z) : Prop := v = 0 \/ v = 1.

Definition binary (T : matrix) : Prop :=
  forall i j, (i < length T)%nat -> (j < length (T !!! i))%nat -> bit (ent T i j).

(** A tableau of [n] qubits: a binary square array of side [2n + 1]. *)
Definition tableau_of (n : nat) (T : matrix) : Prop :=
  shape (2 * n + 1) (2 * n + 1) T /\ binary T.

Definition valid_qubit (n : nat) (q : Z) : Prop := 0 <= q < Z.of_nat n.

(** What a run produced, if it did not raise. *)
Definition returned {A} (r : result (A * world)) : option A :=
  match r with
  | Ok (a, _) => Some a
  | Raise _ => None
  end.
Definition final {A} (r : result (A * world)) : option world :=
  match r with
  | Ok (_, w) => Some w
  | Raise _ => None
  end.
Definition raises {A} (r : result (A * world)) (e : pyerr) : Prop :=
  r = Raise e.

(** The sign exponent as the specification tabulates it, on bits. *)
Definition g_table (x1 z1 x2 z2 : Z) : Z :=
  match x1, z1 with
  | 0, 0 => 0
  | 1, 1 => z2 - x2
  | 1, 0 => z2 * (2 * x2 - 1)
  | _, _ => x2 * (1 - 2 * z2)
  end.

(** The sum of the exponents [g] of row [i] against row [h] over the
    qubits, for an array given by its entries and for an array. *)
Definition gsum (f : nat -> nat -> Z) (n h i : nat) : Z :=
  foldr Z.add 0
    ((fun j => g_table (f i j) (f i (n + j)%nat) (f h j) (f h (n + j)%nat))
       <$> seq 0 n).

Definition g_sum (T : matrix) (n h i : nat) : Z := gsum (ent T) n h i.

(** The phase bit [rowsum] writes into row [h]. *)
Definition rowsum_phase (f : nat -> nat -> Z) (n h i : nat) : Z :=
  if (2 * f h (2 * n)%nat + 2 * f i (2 * n)%nat + gsum f n h i) mod 4 =? 0
  then 0 else 1.

(** The entries of the array [rowsum] returns. *)
Definition rowsum_ent (n h i : nat) (f : nat -> nat -> Z) : nat -> nat -> Z :=
  fun i' j' =>
    if (i' =? h)%nat
    then if (j' <? 2 * n)%nat then Z.lxor (f i j') (f h j')
         else rowsum_phase f n h i
    else f i' j'.

(** The letter the specification's table assigns to the pair written
    [(x, z)], reading the two-digit keys in that order. *)
Definition letter_xz (x z : Z) : option gates.kind :=
  match x, z with
  | 0, 0 => Some gates.I
  | 0, 1 => Some gates.X
  | 1, 0 => Some gates.Z
  | 1, 1 => Some gates.Y
  | _, _ => None
  end.

(** The letter obtained when the keys are read with [z] first. *)
Definition letter_zx (x z : Z) : option gates.kind := letter_xz z x.

(** The Kronecker product of dense matrices, [np.kron], and its fold over
    the single-qubit matrices in qubit order. *)
Definition kron (A B : list (list C)) : list (list C) :=
  concat ((fun ra : list C =>
             (fun rb : list C => concat ((fun a => cmul a <$> rb) <$> ra)) <$> B)
          <$> A).

Definition dense_of (g : gates.gate) : list (list C) :=
  chunks 2 2 (flat (gate_matrix g)).

Definition kron_all (paulis : list gates.gate) : option (list (list C)) :=
  match paulis with
  | [] => None
  | p0 :: ps => Some (foldl (fun m p => kron m (dense_of p)) (dense_of p0) ps)
  end.

(** The outcomes of measuring [qubits] one after the other: each outcome is
    that of [M_step] run in the state the previous steps left. *)
Inductive outcomes (dt : dtype) (n : nat)
  : loc -> world -> list Z -> list Z -> Prop :=
  | outcomes_nil sc w : outcomes dt n sc w [] []
  | outcomes_cons sc w q qs sc' w' o os :
      CliffordOperations.M_step dt sc q n w = Ok ((sc', o), w') ->
      outcomes dt n sc' w' qs os ->
      outcomes dt n sc w (q :: qs) (o :: os).

(** Arrays given by their entries: the 1-D array [f 0 .. f (k-1)] and the
    [r] by [c] array of entries [f i j]. *)
Definition vtab (k : nat) (f : nat -> Z) : list Z := f <$> seq 0 k.
Definition tab (r c : nat) (f : nat -> nat -> Z) : matrix :=
  (fun i => vtab c (f i)) <$> seq 0 r.

(** The entries of the array [H] returns, from the entries [f] of its
    argument, when the index [q] denotes column [a] of the X and Z views,
    column [b] of the tableau, and [nqubits + q] denotes column [c]. *)
Definition H_ent_at (n a b c : nat) (f : nat -> nat -> Z) : nat -> nat -> Z :=
  let f1 := fun i j =>
    if ((i <? 2 * n) && (j =? 2 * n))%nat
    then Z.lxor (f i (2 * n)%nat) (f i a * f i (n + a)%nat)
    else f i j in
  fun i j =>
    if (j =? c)%nat then f1 i b
    else if (j =? b)%nat then f1 i c
    else f1 i j.

(** For a qubit [Q] in range these are columns [Q], [Q] and [n + Q]. *)
Definition H_ent (n Q : nat) (f : nat -> nat -> Z) : nat -> nat -> Z :=
  H_ent_at n Q Q (n + Q) f.

(** The index [q] is rejected by an axis of size [n]. *)
Definition out_of_range (n : nat) (q : Z) : Prop :=
  q < - Z.of_nat n \/ Z.of_nat n <= q.

(** The index [q] is accepted by an axis of size [n]: it is in range or
    counts from the end. *)
Definition accepted_index (n : nat) (q : Z) : Prop :=
  - Z.of_nat n <= q < Z.of_nat n.

(** The entries of the array [CNOT] returns; [c] and [t] are the control
    and the target. *)
Definition CNOT_ent (n c t : nat) (f : nat -> nat -> Z) : nat -> nat -> Z :=
  let f1 := fun i j =>
    if ((i <? 2 * n) && (j =? 2 * n))%nat
    then Z.lxor (f i (2 * n)%nat)
           (f i c * f i (n + t)%nat * Z.lxor (Z.lxor (f i t) (f i (n + c)%nat)) 1)
    else f i j in
  let f2 := fun i j =>
    if ((i <? 2 * n) && (j =? t))%nat then Z.lxor (f1 i t) (f1 i c)
    else f1 i j in
  fun i j =>
    if ((i <? 2 * n) && (j =? n + c))%nat
    then Z.lxor (f2 i (n + c)%nat) (f2 i (n + t)%nat)
    else f2 i j.

(** The entries of the array [CNOT] returns when the control and the target
    are columns [c] and [t] of the X view, [target_q] is column [tw] of the
    array and [nqubits + control_q] its column [cw]. *)
Definition CNOT_ent_at (n c t tw cw : nat) (f : nat -> nat -> Z)
  : nat -> nat -> Z :=
  let f1 := fun i j =>
    if ((i <? 2 * n) && (j =? 2 * n))%nat
    then Z.lxor (f i (2 * n)%nat)
           (f i c * f i (n + t)%nat * Z.lxor (Z.lxor (f i t) (f i (n + c)%nat)) 1)
    else f i j in
  let f2 := fun i j =>
    if ((i <? 2 * n) && (j =? tw))%nat then Z.lxor (f1 i t) (f1 i c)
    else f1 i j in
  fun i j =>
    if ((i <? 2 * n) && (j =? cw))%nat
    then Z.lxor (f2 i (n + c)%nat) (f2 i (n + t)%nat)
    else f2 i j.

(** All the entries of an [m] by [m] array given by its entries are bits. *)
Definition bits (m : nat) (g : nat -> nat -> Z) : Prop :=
  forall i j, (i < m)%nat -> (j < m)%nat -> bit (g i j).

(** The world after an in-place assignment that leaves [T] at [c]. *)
Definition set_heap (w : world) (c : loc) (T : matrix) : world :=
  World (<[c := T]> (heap w)) (tape w) (pos w).

(** The entries after [set_scratch(tableau, 0)]. *)
Definition scratch0 (n : nat) (f : nat -> nat -> Z) : nat -> nat -> Z :=
  fun i j => if (i =? 2 * n)%nat then 0 else f i j.

(** The entries after the four assignments that close the random branch of
    [M]: row [p] copied to row [p - n], row [p] zeroed, its phase set to the
    outcome [o] and its entry [n + q] set to 1. *)
Definition collapse_ent (n p nq : nat) (o : Z) (g : nat -> nat -> Z)
  : nat -> nat -> Z :=
  let g1 := fun i j => if (i =? p - n)%nat then g p j else g i j in
  let g2 := fun i j => if (i =? p)%nat then 0 else g1 i j in
  let g3 := fun i j => if ((i =? p) && (j =? 2 * n))%nat then o else g2 i j in
  fun i j => if ((i =? p) && (j =? nq))%nat then 1 else g3 i j.

(** Row [p] is a stabilizer row and the only generator row of [T] whose
    X component at qubit [Q] is not 0. *)
Definition only_flagged (n : nat) (T : matrix) (Q p : nat) : Prop :=
  (n <= p < 2 * n)%nat /\
  forall i, (i < 2 * n)%nat -> ent T i Q <> 0 <-> i = p.

(** The entries of [zero_state n]. *)
Definition zero_ent (n : nat) : nat -> nat -> Z :=
  fun i j => if ((i =? j) && (i <? 2 * n))%nat then 1 else 0.

(** Concrete inputs on which the statements below are exercised: a world
    holding a single array, and the tableau of a Bell pair
    ([H] on qubit 0, then [CNOT] from 0 to 1, on two qubits). *)
Definition demo_world (T : matrix) : world := World [T] (fun _ => false) 0.

Definition bell_pair : matrix :=
  [[0; 0; 1; 0; 0]; [0; 1; 0; 0; 0]; [1; 1; 0; 0; 0]; [0; 0; 1; 1; 0];
   [0; 0; 0; 0; 0]].

(** The Bell pair after [S] on qubit 0: its stabilizer row 2 holds a Y at
    qubit 0. *)
Definition phased_pair : matrix :=
  [[0; 0; 1; 0; 0]; [0; 1; 0; 0; 0]; [1; 1; 1; 0; 0]; [0; 0; 1; 1; 0];
   [0; 0; 0; 0; 0]].

(** The letter the decoder's dictionary holds for the bits [x] and [z]. *)
Definition pauli_letter (x z : Z) : gates.kind :=
  if z =? 0 then (if x =? 0 then gates.I else gates.X)
  else (if x =? 0 then gates.Z else gates.Y).

(** The generators and phases decoded from an array of side [s] given by
    its entries, with [nq] the qubit count derived from [s]. *)
Definition decoded_paulis (f : nat -> nat -> Z) (nq k : nat) : list gates.gate :=
  (fun j => gates.Gate (pauli_letter (f (nq + k)%nat j) (f (nq + k)%nat (nq + j)%nat)) j)
    <$> seq 0 nq.

Definition decoded_phases (f : nat -> nat -> Z) (s nq : nat) : list C :=
  (fun k => ipow (f (nq + k)%nat (s - 1)%nat)) <$> seq 0 (s - 1 - nq).

(** The tableau after [H] on qubit 0 of the one-qubit and of the two-qubit
    zero state, and a binary array of even side. *)
Definition plus_state : matrix := [[0; 1; 0]; [1; 0; 0]; [0; 0; 0]].

Definition plus_zero_state : matrix :=
  [[0; 0; 1; 0; 0]; [0; 1; 0; 0; 0]; [1; 0; 0; 0; 0]; [0; 0; 0; 1; 0];
   [0; 0; 0; 0; 0]].

Definition even_side : matrix :=
  [[0; 0; 0; 0]; [0; 0; 1; 1]; [1; 0; 1; 0]; [0; 0; 0; 0]].

(** The entries of the array [S] returns on qubit [Q]. *)
Definition S_ent (n Q : nat) (f : nat -> nat -> Z) : nat -> nat -> Z :=
  fun i j =>
    if ((i <? 2 * n) && (j =? n + Q))%nat
    then Z.lxor (f i (n + Q)%nat) (f i Q)
    else if ((i <? 2 * n) && (j =? 2 * n))%nat
    then Z.lxor (f i (2 * n)%nat) (f i Q * f i (n + Q)%nat)
    else f i j.

(** The entries of the array [S] returns when [q] is column [a] of the X
    view and [nqubits + q] is column [c] of the array. *)
Definition S_ent_at (n a c : nat) (f : nat -> nat -> Z) : nat -> nat -> Z :=
  fun i j =>
    if ((i <? 2 * n) && (j =? c))%nat
    then Z.lxor (f i (n + a)%nat) (f i a)
    else if ((i <? 2 * n) && (j =? 2 * n))%nat
    then Z.lxor (f i (2 * n)%nat) (f i a * f i (n + a)%nat)
    else f i j.

(** The symplectic product of rows [a] and [b]: on binary rows it is 0 when
    the two Pauli strings commute and 1 when they anticommute. *)
Definition comm_term (f : nat -> nat -> Z) (n a b j : nat) : Z :=
  Z.lxor (f a j * f b (n + j)%nat) (f a (n + j)%nat * f b j).

Definition symp (f : nat -> nat -> Z) (n a b : nat) : Z :=
  foldr Z.lxor 0 (comm_term f n a b <$> seq 0 n).

Definition symplectic (T : matrix) (n a b : nat) : Z := symp (ent T) n a b.

(** A run returned an array whose generator rows have the same symplectic
    products as those of [T]. *)
Definition keeps_commutation (n : nat) (T : matrix)
    (r : result (nat * world)) : Prop :=
  exists l' w' T',
    r = Ok (l', w') /\ heap w' !! l' = Some T' /\
    forall a b, (a < 2 * n)%nat -> (b < 2 * n)%nat ->
      symplectic T' n a b = symplectic T n a b.

(** The entries after the loops of [M]: in the random branch every flagged
    row [i] other than [p] is multiplied by row [p]; in the deterministic
    branch the stabilizer rows [i + n] are accumulated into the scratch
    row. *)
Definition rand_fold (n p : nat) (R : list nat) (g : nat -> nat -> Z)
  : nat -> nat -> Z :=
  foldl (fun g i => if (i =? p)%nat then g else rowsum_ent n i p g) g R.

Definition det_fold (n : nat) (R : list nat) (g : nat -> nat -> Z)
  : nat -> nat -> Z :=
  foldl (fun g i => rowsum_ent n (2 * n) (i + n) g) g R.

(** The dense array the decoder builds for a non-empty list of letters:
    the outer products of the single-qubit matrices, cut into rows of
    [2 ^ nq] entries; and the generator it appends for either value of
    [return_array]. *)
Definition dense_array (nq : nat) (paulis : list gates.gate) : list (list C) :=
  match paulis with
  | [] => []
  | p0 :: ps =>
      chunks (2 ^ nq) (2 ^ nq)
        (flat (foldl (fun matrix p => tensordot0 matrix (gate_matrix p))
                     (gate_matrix p0) ps))
  end.

Definition decoded_generator (return_array : bool) (nq : nat)
    (paulis : list gates.gate) : generator :=
  if return_array then Dense (dense_array nq paulis) else Paulis paulis.

(** The phases the decoder can return: 1 and i. *)
Definition one_or_i (c : C) : Prop := c = (1, 0) \/ c = (0, 1).


(** The array a run returned, and two runs returning equal arrays. *)
Definition array_of (r : result (nat * world)) : option matrix :=
  match r with
  | Ok (l, w) => heap w !! l
  | Raise _ => None
  end.

Definition same_array (r1 r2 : result (nat * world)) : Prop :=
  exists T', array_of r1 = Some T' /\ array_of r2 = Some T'.

(** Row [i] of the array holds a Y: both its X bit and its Z bit are 1 at
    some qubit. *)
Definition holds_y (f : nat -> nat -> Z) (n i : nat) : bool :=
  existsb (fun j => (f i j =? 1) && (f i (n + j)%nat =? 1)) (seq 0 n).

(** [rowsum] on an array of dtype [dt] fails when it multiplies by row
    [i]. *)
Definition y_raises (dt : dtype) (f : nat -> nat -> Z) (n i : nat) : bool :=
  match dt with
  | bool_ => holds_y f n i
  | _ => false
  end.

(** One measurement of the qubit read in column [a] fails on an array of
    dtype [dt]: a [rowsum] it performs multiplies by a row that makes
    [rowsum] fail.  In the random branch that row is the first flagged
    stabilizer row [p], used when another row is flagged; in the determined
    branch it is the stabilizer row paired with a flagged destabilizer
    row. *)
Definition step_raises (dt : dtype) (n a : nat) (f : nat -> nat -> Z) : bool :=
  match nonzero (vtab n (fun i => f (n + i)%nat a)) with
  | [] =>
      existsb (fun i => y_raises dt f n (i + n))
              (where_eq 1 (vtab (2 * n + 0) (fun i => f i a)))
  | k0 :: _ =>
      y_raises dt f n (k0 + n)
      && existsb (fun i => negb (i =? k0 + n)%nat)
                 (nonzero (vtab (2 * n + 0) (fun i => f i a)))
  end.

(** The value [exponent] returns on bits when it returns one: the table of
    the specification, except that the difference [z2 - x2] of two [uint8]
    scalars is taken modulo 256. *)
Definition exp_val (dt : dtype) (x1 z1 x2 z2 : Z) : Z :=
  match dt with
  | uint8 => if (x1 =? 1) && (z1 =? 1) then (z2 - x2) mod 2 ^ 8
             else g_table x1 z1 x2 z2
  | _ => g_table x1 z1 x2 z2
  end.

(** * Proofs *)

(** ** Arrays by entries *)

Section Tabulate.

Lemma vtab_length k f : length (vtab k f) = k.
Proof. unfold vtab. now rewrite length_fmap, length_seq. Qed.

Lemma vtab_lookup k f i : (i < k)%nat -> vtab k f !! i = Some (f i).
Proof.
  intros Hi. unfold vtab. rewrite list_lookup_fmap, lookup_seq_lt by done.
  reflexivity.
Qed.

Lemma vtab_total k f i : (i < k)%nat -> vtab k f !!! i = f i.
Proof. intros Hi. apply list_lookup_total_correct, vtab_lookup, Hi. Qed.

Lemma vtab_intro (l : list Z) k f :
  length l = k -> (forall i, (i < k)%nat -> l !!! i = f i) -> l = vtab k f.
Proof.
  intros Hl Hf. apply list_eq. intros i.
  destruct (decide (i < k)%nat) as [Hi|Hi].
  - rewrite vtab_lookup by done. rewrite <- (Hf i Hi).
    apply list_lookup_lookup_total_lt. lia.
  - rewrite !lookup_ge_None_2; [done | rewrite vtab_length; lia | lia].
Qed.

Lemma vtab_ext k f g :
  (forall i, (i < k)%nat -> f i = g i) -> vtab k f = vtab k g.
Proof.
  intros Hfg. apply vtab_intro; [apply vtab_length|].
  intros i Hi. rewrite vtab_total by done. now apply Hfg.
Qed.

Lemma tab_length r c f : length (tab r c f) = r.
Proof. unfold tab. now rewrite length_fmap, length_seq. Qed.

Lemma tab_lookup r c f i : (i < r)%nat -> tab r c f !! i = Some (vtab c (f i)).
Proof.
  intros Hi. unfold tab. rewrite list_lookup_fmap, lookup_seq_lt by done.
  reflexivity.
Qed.

Lemma tab_total r c f i : (i < r)%nat -> tab r c f !!! i = vtab c (f i).
Proof. intros Hi. apply list_lookup_total_correct, tab_lookup, Hi. Qed.

Lemma tab_ent r c f i j : (i < r)%nat -> (j < c)%nat -> ent (tab r c f) i j = f i j.
Proof. intros Hi Hj. unfold ent. now rewrite tab_total, vtab_total. Qed.

Lemma tab_intro (T : matrix) r c f :
  length T = r ->
  (forall i, (i < r)%nat -> length (T !!! i) = c) ->
  (forall i j, (i < r)%nat -> (j < c)%nat -> ent T i j = f i j) ->
  T = tab r c f.
Proof.
  intros Hl Hc Hf. apply list_eq. intros i.
  destruct (decide (i < r)%nat) as [Hi|Hi].
  - rewrite tab_lookup by done.
    rewrite (list_lookup_lookup_total_lt T i) by lia. f_equal.
    apply vtab_intro; [now apply Hc|]. intros j Hj. now apply Hf.
  - rewrite !lookup_ge_None_2; [done | rewrite tab_length; lia | lia].
Qed.

Lemma tab_ext r c f g :
  (forall i j, (i < r)%nat -> (j < c)%nat -> f i j = g i j) ->
  tab r c f = tab r c g.
Proof.
  intros Hfg. apply tab_intro; [apply tab_length | |].
  - intros i Hi. now rewrite tab_total, vtab_length.
  - intros i j Hi Hj. rewrite tab_ent by done. now apply Hfg.
Qed.

Lemma shape_tab r c T : shape r c T -> T = tab r c (ent T).
Proof. intros [Hl Hc]. now apply tab_intro. Qed.

Lemma tab_shape r c f : shape r c (tab r c f).
Proof.
  split; [apply tab_length|]. intros i Hi. now rewrite tab_total, vtab_length.
Qed.

Lemma tab_nrows r c f : nrows (tab r c f) = r.
Proof. apply tab_length. Qed.

Lemma tab_ncols r c f : (0 < r)%nat -> ncols (tab r c f) = c.
Proof.
  intros Hr. destruct r as [|r]; [lia|]. unfold tab. simpl. apply vtab_length.
Qed.

Lemma tab_binary r c f :
  (forall i j, (i < r)%nat -> (j < c)%nat -> bit (f i j)) -> binary (tab r c f).
Proof.
  intros Hb i j Hi Hj. rewrite tab_length in Hi.
  rewrite tab_total, vtab_length in Hj by done. rewrite tab_ent by done.
  now apply Hb.
Qed.

Lemma binary_ent r c T i j :
  shape r c T -> binary T -> (i < r)%nat -> (j < c)%nat -> bit (ent T i j).
Proof.
  intros [Hl Hc] Hb Hi Hj. apply Hb; [lia|]. rewrite Hc by done. done.
Qed.

End Tabulate.

(** ** The numpy layer on arrays given by entries *)

Section NumpyFacts.

Lemma norm_index_in len q :
  0 <= q < Z.of_nat len -> norm_index len q = Ok (Z.to_nat q).
Proof.
  intros Hq. unfold norm_index.
  destruct (Z.leb_spec 0 q), (Z.ltb_spec q (Z.of_nat len)); simpl; try lia.
  reflexivity.
Qed.

Lemma norm_index_nat len i : (i < len)%nat -> norm_index len (Z.of_nat i) = Ok i.
Proof. intros Hi. rewrite norm_index_in by lia. now rewrite Nat2Z.id. Qed.

Lemma norm_index_neg len q :
  - Z.of_nat len <= q < 0 ->
  norm_index len q = Ok (Z.to_nat (Z.of_nat len + q)).
Proof.
  intros Hq. unfold norm_index.
  destruct (Z.leb_spec 0 q); simpl; [lia|].
  destruct (Z.leb_spec (- Z.of_nat len) q), (Z.ltb_spec q 0); simpl; try lia.
  reflexivity.
Qed.

Lemma norm_index_last len :
  (0 < len)%nat -> norm_index len (-1) = Ok (len - 1)%nat.
Proof. intros Hl. rewrite norm_index_neg by lia. f_equal. lia. Qed.

Lemma norm_index_out len q :
  q < - Z.of_nat len \/ Z.of_nat len <= q -> norm_index len q = Raise IndexError.
Proof.
  intros Hq. unfold norm_index.
  destruct (Z.leb_spec 0 q), (Z.ltb_spec q (Z.of_nat len)); simpl; try lia;
    destruct (Z.leb_spec (- Z.of_nat len) q), (Z.ltb_spec q 0); simpl; try lia;
    reflexivity.
Qed.

Lemma norm_index_lt len q j : norm_index len q = Ok j -> (j < len)%nat.
Proof.
  unfold norm_index.
  destruct (Z.leb_spec 0 q), (Z.ltb_spec q (Z.of_nat len)); simpl;
    try (intros [= <-]; lia);
    destruct (Z.leb_spec (- Z.of_nat len) q), (Z.ltb_spec q 0); simpl;
    try (intros [= <-]; lia); discriminate.
Qed.

Lemma slice_bound_le len k : (slice_bound len k <= len)%nat.
Proof. unfold slice_bound. destruct (Z.ltb_spec k 0); lia. Qed.

Lemma slice_bound_nat len k :
  slice_bound len (Z.of_nat k) = Nat.min k len.
Proof.
  unfold slice_bound. destruct (Z.ltb_spec (Z.of_nat k) 0); [lia|].
  now rewrite Nat2Z.id.
Qed.

Lemma slice_bound_0 len : slice_bound len 0 = 0%nat.
Proof. reflexivity. Qed.

Lemma slice_bound_m1 len : slice_bound len (-1) = (len - 1)%nat.
Proof. unfold slice_bound. simpl. lia. Qed.

Lemma take_vtab k n f : (k <= n)%nat -> take k (vtab n f) = vtab k f.
Proof.
  intros Hk. apply vtab_intro.
  - rewrite length_take, vtab_length. lia.
  - intros i Hi. rewrite lookup_total_take_lt by done. apply vtab_total. lia.
Qed.

Lemma drop_vtab k n f :
  drop k (vtab n f) = vtab (n - k) (fun i => f (k + i)%nat).
Proof.
  apply vtab_intro.
  - now rewrite length_drop, vtab_length.
  - intros i Hi. rewrite lookup_total_drop. apply vtab_total. lia.
Qed.

Lemma take_tab k r c f : (k <= r)%nat -> take k (tab r c f) = tab k c f.
Proof.
  intros Hk. unfold tab. rewrite <- fmap_take. f_equal.
  rewrite take_seq. f_equal. lia.
Qed.

Lemma drop_tab k r c f :
  drop k (tab r c f) = tab (r - k) c (fun i => f (k + i)%nat).
Proof.
  apply tab_intro.
  - now rewrite length_drop, tab_length.
  - intros i Hi. rewrite lookup_total_drop, tab_total by lia. apply vtab_length.
  - intros i j Hi Hj. unfold ent. rewrite lookup_total_drop.
    rewrite tab_total by lia. now apply vtab_total.
Qed.

Lemma slice_to_vtab stop k f :
  slice_to stop (vtab k f) = vtab (slice_bound k stop) f.
Proof.
  unfold slice_to. rewrite vtab_length. apply take_vtab, slice_bound_le.
Qed.

Lemma slice_from_vtab start k f :
  slice_from start (vtab k f)
  = vtab (k - slice_bound k start) (fun i => f (slice_bound k start + i)%nat).
Proof. unfold slice_from. rewrite vtab_length. apply drop_vtab. Qed.

Lemma slice_vtab start stop k f :
  slice start stop (vtab k f)
  = vtab (slice_bound k stop - slice_bound k start)
         (fun i => f (slice_bound k start + i)%nat).
Proof.
  unfold slice. rewrite vtab_length.
  rewrite take_vtab by apply slice_bound_le. apply drop_vtab.
Qed.

Lemma slice_to_tab stop r c f :
  slice_to stop (tab r c f) = tab (slice_bound r stop) c f.
Proof.
  unfold slice_to. rewrite tab_length. apply take_tab, slice_bound_le.
Qed.

Lemma slice_from_tab start r c f :
  slice_from start (tab r c f)
  = tab (r - slice_bound r start) c (fun i => f (slice_bound r start + i)%nat).
Proof. unfold slice_from. rewrite tab_length. apply drop_tab. Qed.

Lemma slice_tab start stop r c f :
  slice start stop (tab r c f)
  = tab (slice_bound r stop - slice_bound r start) c
        (fun i => f (slice_bound r start + i)%nat).
Proof.
  unfold slice. rewrite tab_length.
  rewrite take_tab by apply slice_bound_le. apply drop_tab.
Qed.

Lemma fmap_tab (g : list Z -> list Z) r c c' f f' :
  (forall i, (i < r)%nat -> g (vtab c (f i)) = vtab c' (f' i)) ->
  g <$> tab r c f = tab r c' f'.
Proof.
  intros Hg. unfold tab. rewrite <- list_fmap_compose.
  apply list_fmap_ext. intros i x Hx. simpl.
  apply lookup_seq in Hx as [-> Hlt]. apply Hg. lia.
Qed.

Lemma fmap_col_tab jj r c f :
  (jj < c)%nat ->
  (fun row : list Z => row !!! jj) <$> tab r c f = vtab r (fun i => f i jj).
Proof.
  intros Hj. unfold tab, vtab. rewrite <- list_fmap_compose.
  apply list_fmap_ext. intros i x Hx. simpl. now apply vtab_total.
Qed.

Lemma column_tab r c f j jj :
  (0 < r)%nat -> norm_index c j = Ok jj ->
  column (tab r c f) j = Ok (vtab r (fun i => f i jj)).
Proof.
  intros Hr Hj. unfold column. rewrite tab_ncols by done. rewrite Hj. simpl.
  f_equal. apply fmap_col_tab. eapply norm_index_lt, Hj.
Qed.

Lemma column_tab_raise r c f j e :
  (0 < r)%nat -> norm_index c j = Raise e -> column (tab r c f) j = Raise e.
Proof.
  intros Hr Hj. unfold column. rewrite tab_ncols by done. now rewrite Hj.
Qed.

Lemma column_slice_tab r c f start stop j jj :
  (0 < r)%nat -> norm_index c j = Ok jj ->
  column_slice (tab r c f) start stop j
  = Ok (vtab (slice_bound r stop - slice_bound r start)
             (fun i => f (slice_bound r start + i)%nat jj)).
Proof.
  intros Hr Hj. unfold column_slice. rewrite tab_ncols by done. rewrite Hj.
  simpl. f_equal. rewrite slice_tab. apply fmap_col_tab.
  eapply norm_index_lt, Hj.
Qed.

Lemma item_tab r c f i j ii jj :
  norm_index r i = Ok ii -> norm_index c j = Ok jj ->
  item (tab r c f) i j = Ok (f ii jj).
Proof.
  intros Hi Hj. unfold item. rewrite tab_nrows, Hi. simpl.
  pose proof (norm_index_lt _ _ _ Hi). pose proof (norm_index_lt _ _ _ Hj).
  rewrite tab_ncols by lia. rewrite Hj. simpl. f_equal. now apply tab_ent.
Qed.

Lemma row_tab r c f i ii :
  norm_index r i = Ok ii -> row (tab r c f) i = Ok (vtab c (f ii)).
Proof.
  intros Hi. unfold row. rewrite tab_nrows, Hi. simpl. f_equal.
  apply tab_total. eapply norm_index_lt, Hi.
Qed.

Lemma ew_vtab op k f g :
  ew op (vtab k f) (vtab k g) = Ok (vtab k (fun i => op (f i) (g i))).
Proof.
  unfold ew. rewrite !vtab_length, Nat.eqb_refl. f_equal.
  apply vtab_intro.
  - rewrite length_zip_with, !vtab_length. lia.
  - intros i Hi. apply list_lookup_total_correct.
    rewrite lookup_zip_with, !vtab_lookup by done. reflexivity.
Qed.

Lemma fmap_vtab (g : Z -> Z) k f : g <$> vtab k f = vtab k (fun i => g (f i)).
Proof. unfold vtab. now rewrite <- list_fmap_compose. Qed.

Lemma broadcast_to_vtab k f : broadcast_to k (vtab k f) = Ok (vtab k f).
Proof. unfold broadcast_to. now rewrite vtab_length, Nat.eqb_refl. Qed.

End NumpyFacts.

Section NumpyAssign.

Lemma insert_vtab k f jj v :
  <[jj := v]> (vtab k f) = vtab k (fun j => if (j =? jj)%nat then v else f j).
Proof.
  apply vtab_intro.
  - now rewrite length_insert, vtab_length.
  - intros j Hj. destruct (Nat.eqb_spec j jj) as [->|Hne].
    + apply list_lookup_total_insert_eq. now rewrite vtab_length.
    + rewrite list_lookup_total_insert_ne by congruence. now apply vtab_total.
Qed.

Lemma insert_tab r c f ii g :
  <[ii := vtab c g]> (tab r c f)
  = tab r c (fun i j => if (i =? ii)%nat then g j else f i j).
Proof.
  apply tab_intro.
  - now rewrite length_insert, tab_length.
  - intros i Hi. destruct (decide (ii = i)) as [->|Hne].
    + rewrite list_lookup_total_insert_eq by now rewrite tab_length.
      apply vtab_length.
    + rewrite list_lookup_total_insert_ne by done.
      rewrite tab_total by done. apply vtab_length.
  - intros i j Hi Hj. unfold ent. destruct (Nat.eqb_spec i ii) as [->|Hne].
    + rewrite list_lookup_total_insert_eq by now rewrite tab_length.
      now apply vtab_total.
    + rewrite list_lookup_total_insert_ne by congruence.
      now apply tab_ent.
Qed.

Lemma imap_total (g : nat -> list Z -> list Z) (T : matrix) i :
  (i < length T)%nat -> imap g T !!! i = g i (T !!! i).
Proof.
  intros Hi. apply list_lookup_total_correct.
  rewrite list_lookup_imap, (list_lookup_lookup_total_lt T i) by done.
  reflexivity.
Qed.

Lemma imap_tab (g : nat -> list Z -> list Z) r c f f' :
  (forall i, (i < r)%nat -> g i (vtab c (f i)) = vtab c (f' i)) ->
  imap g (tab r c f) = tab r c f'.
Proof.
  intros Hg. apply tab_intro.
  - now rewrite length_imap, tab_length.
  - intros i Hi. rewrite imap_total by now rewrite tab_length.
    rewrite tab_total, Hg by done. apply vtab_length.
  - intros i j Hi Hj. unfold ent.
    rewrite imap_total by now rewrite tab_length.
    rewrite tab_total, Hg by done. now apply vtab_total.
Qed.

Lemma set_column_to_tab r c f stop j jj k g :
  (0 < r)%nat -> norm_index c j = Ok jj -> slice_bound r stop = k ->
  set_column_to (tab r c f) stop j (vtab k g)
  = Ok (tab r c (fun i j' =>
          if ((i <? k) && (j' =? jj))%nat then g i else f i j')).
Proof.
  intros Hr Hj Hk. unfold set_column_to. rewrite tab_ncols by done.
  rewrite Hj. simpl. rewrite tab_nrows, Hk, broadcast_to_vtab. simpl. f_equal.
  apply imap_tab. intros i Hi. destruct (Nat.ltb_spec i k) as [Hlt|Hge]; simpl.
  - rewrite insert_vtab, vtab_total by done. reflexivity.
  - reflexivity.
Qed.

Lemma set_column_tab r c f j jj g :
  (0 < r)%nat -> norm_index c j = Ok jj ->
  set_column (tab r c f) j (vtab r g)
  = Ok (tab r c (fun i j' => if (j' =? jj)%nat then g i else f i j')).
Proof.
  intros Hr Hj. unfold set_column. rewrite tab_ncols by done.
  rewrite Hj. simpl. rewrite tab_nrows, broadcast_to_vtab. simpl. f_equal.
  apply imap_tab. intros i Hi. rewrite insert_vtab, vtab_total by done.
  reflexivity.
Qed.

Lemma set_item_tab r c f i j ii jj v :
  norm_index r i = Ok ii -> norm_index c j = Ok jj ->
  set_item (tab r c f) i j v
  = Ok (tab r c (fun i' j' =>
          if ((i' =? ii) && (j' =? jj))%nat then v else f i' j')).
Proof.
  intros Hi Hj. unfold set_item. rewrite tab_nrows, Hi. simpl.
  pose proof (norm_index_lt _ _ _ Hi).
  rewrite tab_ncols by lia. rewrite Hj. simpl. f_equal.
  rewrite tab_total, insert_vtab, insert_tab by done.
  apply tab_ext. intros i' j' Hi' Hj'.
  destruct (Nat.eqb_spec i' ii); simpl; [subst|]; reflexivity.
Qed.

Lemma replicate_vtab k v : replicate k v = vtab k (fun _ => v).
Proof.
  apply vtab_intro; [apply length_replicate|].
  intros i Hi. now apply lookup_total_replicate_2.
Qed.

Lemma fill_row_tab r c f i ii v :
  norm_index r i = Ok ii ->
  fill_row (tab r c f) i v
  = Ok (tab r c (fun i' j' => if (i' =? ii)%nat then v else f i' j')).
Proof.
  intros Hi. unfold fill_row. rewrite tab_nrows, Hi. simpl.
  pose proof (norm_index_lt _ _ _ Hi).
  rewrite tab_ncols by lia. f_equal.
  rewrite replicate_vtab. apply insert_tab.
Qed.

Lemma set_row_tab r c f i ii g :
  norm_index r i = Ok ii ->
  set_row (tab r c f) i (vtab c g)
  = Ok (tab r c (fun i' j' => if (i' =? ii)%nat then g j' else f i' j')).
Proof.
  intros Hi. unfold set_row. rewrite tab_nrows, Hi. simpl.
  pose proof (norm_index_lt _ _ _ Hi).
  rewrite tab_ncols by lia. rewrite broadcast_to_vtab. simpl. f_equal.
  apply insert_tab.
Qed.

Lemma set_row_slice_tab r c f i ii start stop a b len g :
  norm_index r i = Ok ii ->
  slice_bound c start = a -> slice_bound c stop = b -> (a <= b)%nat ->
  len = (b - a)%nat ->
  set_row_slice (tab r c f) i start stop (vtab len g)
  = Ok (tab r c (fun i' j' =>
          if ((i' =? ii) && (a <=? j') && (j' <? b))%nat
          then g (j' - a)%nat else f i' j')).
Proof.
  intros Hi Ha Hb Hab ->. unfold set_row_slice. rewrite tab_nrows, Hi. simpl.
  pose proof (norm_index_lt _ _ _ Hi) as Hii.
  pose proof (slice_bound_le c stop) as Hbc. rewrite Hb in Hbc.
  rewrite tab_ncols by lia. rewrite Ha, Hb, broadcast_to_vtab. simpl. f_equal.
  rewrite tab_total by done.
  replace (take a (vtab c (f ii)) ++ vtab (b - a) g
             ++ drop (a + (b - a)) (vtab c (f ii)))
    with (vtab c (fun j' => if ((a <=? j') && (j' <? b))%nat
                            then g (j' - a)%nat else f ii j')).
  - rewrite insert_tab. apply tab_ext. intros i' j' Hi' Hj'.
    destruct (Nat.eqb_spec i' ii); simpl; [subst|]; reflexivity.
  - symmetry. apply vtab_intro.
    + rewrite !length_app, length_take, length_drop, !vtab_length. lia.
    + intros j Hj.
      destruct (Nat.leb_spec a j) as [Haj|Haj]; simpl.
      * rewrite lookup_total_app_r by (rewrite length_take, vtab_length; lia).
        rewrite length_take, vtab_length.
        replace (j - Nat.min a c)%nat with (j - a)%nat by lia.
        destruct (Nat.ltb_spec j b) as [Hjb|Hjb].
        -- rewrite lookup_total_app_l by (rewrite vtab_length; lia).
           apply vtab_total. lia.
        -- rewrite lookup_total_app_r by (rewrite vtab_length; lia).
           rewrite vtab_length, lookup_total_drop, vtab_total by lia.
           f_equal. lia.
      * rewrite lookup_total_app_l by (rewrite length_take, vtab_length; lia).
        rewrite lookup_total_take_lt by done. now apply vtab_total.
Qed.

End NumpyAssign.

(** ** Running the monad *)

Section Running.

Context {A B : Type}.

Lemma bind_step (m : Py A) (k : A -> Py B) w a w' R :
  m w = Ok (a, w') -> k a w' = R -> bind m k w = R.
Proof. intros Hm Hk. unfold bind. now rewrite Hm. Qed.

Lemma bind_raise (m : Py A) (k : A -> Py B) w e :
  m w = Raise e -> bind m k w = Raise e.
Proof. intros Hm. unfold bind. now rewrite Hm. Qed.

Lemma lift_ok (r : result A) a w : r = Ok a -> lift r w = Ok (a, w).
Proof. now intros ->. Qed.

Lemma lift_raise (r : result A) e w : r = Raise e -> lift r w = Raise e.
Proof. now intros ->. Qed.

End Running.

Lemma load_ok l w T : heap w !! l = Some T -> load l w = Ok (T, w).
Proof. intros Hl. unfold load. now rewrite Hl. Qed.

Lemma lookup_end (hp : list matrix) T : (hp ++ [T]) !! length hp = Some T.
Proof. apply list_lookup_middle. reflexivity. Qed.

Lemma lookup_old (hp : list matrix) T l T0 :
  hp !! l = Some T0 -> (hp ++ [T]) !! l = Some T0.
Proof. intros Hl. now apply lookup_app_l_Some. Qed.

Lemma np_copy_ok l w T :
  heap w !! l = Some T ->
  np_copy l w = Ok (length (heap w), World (heap w ++ [T]) (tape w) (pos w)).
Proof.
  intros Hl. unfold np_copy. eapply bind_step; [apply load_ok, Hl|]. reflexivity.
Qed.

Lemma modify_ok l f w T T' :
  heap w !! l = Some T -> f T = Ok T' ->
  modify l f w = Ok (tt, World (<[l := T']> (heap w)) (tape w) (pos w)).
Proof.
  intros Hl Hf. unfold modify.
  eapply bind_step; [apply load_ok, Hl|].
  eapply bind_step; [apply lift_ok, Hf|].
  unfold store. apply lookup_lt_Some in Hl.
  destruct (Nat.ltb_spec l (length (heap w))); [reflexivity | lia].
Qed.

Lemma modify_raise l f w T e :
  heap w !! l = Some T -> f T = Raise e -> modify l f w = Raise e.
Proof.
  intros Hl Hf. unfold modify.
  eapply bind_step; [apply load_ok, Hl|].
  apply bind_raise. apply lift_raise, Hf.
Qed.

Lemma modify_end f hp T T' tp ps :
  f T = Ok T' ->
  modify (length hp) f (World (hp ++ [T]) tp ps)
  = Ok (tt, World (hp ++ [T']) tp ps).
Proof.
  intros Hf. erewrite modify_ok; [|apply lookup_end|exact Hf]. simpl.
  do 3 f_equal. replace (length hp) with (length hp + 0)%nat at 1 by lia.
  now rewrite insert_app_r.
Qed.

Lemma pmapM_pure {A B} (f : A -> Py B) (g : A -> B) l w :
  (forall a, a ∈ l -> f a w = Ok (g a, w)) -> pmapM f l w = Ok (g <$> l, w).
Proof.
  induction l as [|a l IH]; intros Hf; simpl; [reflexivity|].
  eapply bind_step; [apply Hf; left|].
  eapply bind_step; [apply IH; intros b Hb; apply Hf; now right|].
  reflexivity.
Qed.

(** ** The accessors on a square array of side [2n + 1] *)

Section Accessors.

Import CliffordOperations.

Variable n : nat.
Let m := (2 * n + 1)%nat.

Lemma row_stop_bound incl :
  slice_bound m (row_stop n incl) = (2 * n + (if incl then 1 else 0))%nat.
Proof.
  unfold row_stop, slice_bound, m. destruct incl; simpl Z.b2z.
  - destruct (Z.ltb_spec (-1 + (2 * Z.of_nat n + 2) * 1) 0); lia.
  - destruct (Z.ltb_spec (-1 + (2 * Z.of_nat n + 2) * 0) 0); lia.
Qed.

Lemma get_r_tab l w f incl :
  heap w !! l = Some (tab m m f) ->
  get_r l n incl w
  = Ok (vtab (2 * n + (if incl then 1 else 0)) (fun i => f i (2 * n)%nat), w).
Proof.
  intros Hl. unfold get_r. eapply bind_step; [apply load_ok, Hl|].
  apply lift_ok. rewrite (column_slice_tab m m f 0 _ (-1) (2 * n)%nat).
  - rewrite row_stop_bound, slice_bound_0, Nat.sub_0_r. reflexivity.
  - unfold m. lia.
  - rewrite norm_index_last by (unfold m; lia). f_equal. unfold m. lia.
Qed.

Lemma x_view_tab f incl :
  slice_to (Z.of_nat n) <$> slice_to (row_stop n incl) (tab m m f)
  = tab (2 * n + (if incl then 1 else 0)) n f.
Proof.
  rewrite slice_to_tab, row_stop_bound. apply fmap_tab. intros i Hi.
  rewrite slice_to_vtab, slice_bound_nat. f_equal. unfold m. lia.
Qed.

Lemma z_view_tab f incl :
  slice (Z.of_nat n) (-1) <$> slice_to (row_stop n incl) (tab m m f)
  = tab (2 * n + (if incl then 1 else 0)) n (fun i j => f i (n + j)%nat).
Proof.
  rewrite slice_to_tab, row_stop_bound. apply fmap_tab. intros i Hi.
  rewrite slice_vtab, slice_bound_nat, slice_bound_m1.
  replace (Nat.min n m) with n by (unfold m; lia).
  f_equal. unfold m. lia.
Qed.

Lemma get_x_tab l w f incl :
  heap w !! l = Some (tab m m f) ->
  get_x l n incl w = Ok (tab (2 * n + (if incl then 1 else 0)) n f, w).
Proof.
  intros Hl. unfold get_x. eapply bind_step; [apply load_ok, Hl|].
  unfold ret. now rewrite x_view_tab.
Qed.

Lemma get_z_tab l w f incl :
  heap w !! l = Some (tab m m f) ->
  get_z l n incl w
  = Ok (tab (2 * n + (if incl then 1 else 0)) n (fun i j => f i (n + j)%nat), w).
Proof.
  intros Hl. unfold get_z. eapply bind_step; [apply load_ok, Hl|].
  unfold ret. now rewrite z_view_tab.
Qed.

End Accessors.

Ltac nat_cases :=
  repeat match goal with
    | |- context [(?a =? ?b)%nat] => destruct (Nat.eqb_spec a b); try lia
    | |- context [(?a <? ?b)%nat] => destruct (Nat.ltb_spec a b); try lia
    | |- context [(?a <=? ?b)%nat] => destruct (Nat.leb_spec a b); try lia
    end.

(** ** The gates *)

Section Gates.

Import CliffordOperations.

Variable n : nat.
Let m := (2 * n + 1)%nat.

Lemma H_run_at w l f q a b c :
  heap w !! l = Some (tab m m f) ->
  norm_index n q = Ok a -> norm_index m q = Ok b ->
  norm_index m (Z.of_nat n + q) = Ok c ->
  H l q n w
  = Ok (length (heap w),
        World (heap w ++ [tab m m (H_ent_at n a b c f)]) (tape w) (pos w)).
Proof.
  intros Hl Ha Hb Hc. unfold H.
  assert (Hm : (0 < m)%nat) by (unfold m; lia).
  assert (Hn : (0 < n)%nat) by (apply norm_index_lt in Ha; lia).
  eapply bind_step; [apply np_copy_ok, Hl|].
  eapply bind_step; [apply get_r_tab, lookup_end|].
  eapply bind_step; [apply get_x_tab, lookup_end|].
  eapply bind_step; [apply lift_ok, column_tab; [lia|exact Ha]|].
  eapply bind_step; [apply get_z_tab, lookup_end|].
  eapply bind_step.
  { apply lift_ok.
    apply (column_tab _ n (fun i j => f i (n + j)%nat) q a); [lia|exact Ha]. }
  eapply bind_step; [apply lift_ok, ew_vtab|].
  eapply bind_step; [apply lift_ok, ew_vtab|].
  eapply bind_step.
  { apply modify_end. apply set_column_to_tab; [done| |].
    - apply norm_index_last, Hm.
    - rewrite slice_bound_m1. unfold m. lia. }
  eapply bind_step.
  { apply modify_end.
    erewrite column_tab; [|done|exact Hc]. cbn [rbind].
    erewrite column_tab; [|done|exact Hb]. cbn [rbind].
    erewrite set_column_tab; [|done|exact Hb]. cbn [rbind].
    apply set_column_tab; [done|exact Hc]. }
  unfold ret. apply (f_equal (fun T => Ok (_, World (_ ++ [T]) _ _))).
  apply tab_ext. intros i j Hi Hj. unfold H_ent_at. cbv beta zeta.
  replace (m - 1)%nat with (2 * n)%nat by (unfold m; lia).
  rewrite !Nat.add_0_r. reflexivity.
Qed.

Lemma H_run w l f q :
  heap w !! l = Some (tab m m f) -> valid_qubit n q ->
  H l q n w
  = Ok (length (heap w),
        World (heap w ++ [tab m m (H_ent n (Z.to_nat q) f)]) (tape w) (pos w)).
Proof.
  intros Hl [Hq0 Hqn]. unfold H_ent.
  apply H_run_at; [exact Hl | | |].
  - apply norm_index_in. lia.
  - apply norm_index_in. unfold m. lia.
  - rewrite norm_index_in by (unfold m; lia). f_equal. lia.
Qed.

Lemma CNOT_run w l f c t :
  heap w !! l = Some (tab m m f) -> valid_qubit n c -> valid_qubit n t ->
  CNOT l c t n w
  = Ok (length (heap w),
        World (heap w ++ [tab m m (CNOT_ent n (Z.to_nat c) (Z.to_nat t) f)])
              (tape w) (pos w)).
Proof.
  intros Hl [Hc0 Hcn] [Ht0 Htn]. unfold CNOT.
  assert (Hm : (0 < m)%nat) by (unfold m; lia).
  assert (Hlast : norm_index m (-1) = Ok (2 * n)%nat).
  { rewrite norm_index_last by done. f_equal. unfold m. lia. }
  assert (Hstop : slice_bound m (-1) = (2 * n + 0)%nat).
  { rewrite slice_bound_m1. unfold m. lia. }
  eapply bind_step; [apply np_copy_ok, Hl|].
  eapply bind_step; [apply get_r_tab, lookup_old, Hl|].
  do 4 (eapply bind_step;
    [ eapply bind_step; [first [apply get_x_tab | apply get_z_tab]; apply lookup_end|];
      apply lift_ok, column_tab; [lia|]; apply norm_index_in; lia
    | try (eapply bind_step; [apply lift_ok, ew_vtab|]) ]).
  rewrite fmap_vtab.
  eapply bind_step; [apply lift_ok, ew_vtab|].
  eapply bind_step; [apply lift_ok, ew_vtab|].
  eapply bind_step.
  { apply modify_end. apply set_column_to_tab; [done|exact Hlast|exact Hstop]. }
  do 2 (eapply bind_step;
    [ eapply bind_step; [apply get_x_tab, lookup_end|];
      apply lift_ok, column_tab; [lia|]; apply norm_index_in; lia |]).
  eapply bind_step; [apply lift_ok, ew_vtab|].
  eapply bind_step.
  { apply modify_end. apply set_column_to_tab; [done| |exact Hstop].
    apply norm_index_in. unfold m. lia. }
  do 2 (eapply bind_step;
    [ eapply bind_step; [apply get_z_tab, lookup_end|];
      apply lift_ok, column_tab; [lia|]; apply norm_index_in; lia |]).
  eapply bind_step; [apply lift_ok, ew_vtab|].
  eapply bind_step.
  { apply modify_end. apply set_column_to_tab; [done| |exact Hstop].
    apply norm_index_in. unfold m. lia. }
  unfold ret. apply (f_equal (fun T => Ok (_, World (_ ++ [T]) _ _))).
  apply tab_ext. intros i j Hi Hj. unfold CNOT_ent. cbv beta zeta.
  replace (Z.to_nat (Z.of_nat n + c)) with (n + Z.to_nat c)%nat by lia.
  rewrite !Nat.add_0_r.
  nat_cases; simpl; reflexivity.
Qed.

(** The gates on indices the arrays accept, negative ones included. *)
Lemma S_run_at w l f q a c :
  heap w !! l = Some (tab m m f) ->
  norm_index n q = Ok a -> norm_index m (Z.of_nat n + q) = Ok c ->
  S l q n w
  = Ok (length (heap w),
        World (heap w ++ [tab m m (S_ent_at n a c f)]) (tape w) (pos w)).
Proof.
  intros Hl Ha Hc. unfold S.
  assert (Hm : (0 < m)%nat) by (unfold m; lia).
  assert (Hn : (0 < n)%nat) by (apply norm_index_lt in Ha; lia).
  assert (Hlast : norm_index m (-1) = Ok (2 * n)%nat).
  { rewrite norm_index_last by done. f_equal. unfold m. lia. }
  assert (Hstop : slice_bound m (-1) = (2 * n + 0)%nat).
  { rewrite slice_bound_m1. unfold m. lia. }
  eapply bind_step; [apply np_copy_ok, Hl|].
  eapply bind_step; [apply get_r_tab, lookup_old, Hl|].
  do 2 (eapply bind_step;
    [ eapply bind_step;
        [first [apply get_x_tab | apply get_z_tab]; apply lookup_old, Hl|];
      apply lift_ok, column_tab; [lia|exact Ha] |]).
  eapply bind_step; [apply lift_ok, ew_vtab|].
  eapply bind_step; [apply lift_ok, ew_vtab|].
  eapply bind_step.
  { apply modify_end. apply set_column_to_tab; [done|exact Hlast|exact Hstop]. }
  do 2 (eapply bind_step;
    [ eapply bind_step;
        [first [apply get_z_tab | apply get_x_tab]; apply lookup_old, Hl|];
      apply lift_ok, column_tab; [lia|exact Ha] |]).
  eapply bind_step; [apply lift_ok, ew_vtab|].
  eapply bind_step.
  { apply modify_end. apply set_column_to_tab; [done|exact Hc|exact Hstop]. }
  unfold ret. apply (f_equal (fun T => Ok (_, World (_ ++ [T]) _ _))).
  apply tab_ext. intros i j Hi Hj. unfold S_ent_at. cbv beta.
  rewrite !Nat.add_0_r. reflexivity.
Qed.

Lemma CNOT_run_at w l f cq tq c t tw cw :
  heap w !! l = Some (tab m m f) ->
  norm_index n cq = Ok c -> norm_index n tq = Ok t ->
  norm_index m tq = Ok tw -> norm_index m (Z.of_nat n + cq) = Ok cw ->
  CNOT l cq tq n w
  = Ok (length (heap w),
        World (heap w ++ [tab m m (CNOT_ent_at n c t tw cw f)])
              (tape w) (pos w)).
Proof.
  intros Hl Hc Ht Htw Hcw. unfold CNOT.
  assert (Hm : (0 < m)%nat) by (unfold m; lia).
  assert (Hn : (0 < n)%nat) by (apply norm_index_lt in Hc; lia).
  assert (Hlast : norm_index m (-1) = Ok (2 * n)%nat).
  { rewrite norm_index_last by done. f_equal. unfold m. lia. }
  assert (Hstop : slice_bound m (-1) = (2 * n + 0)%nat).
  { rewrite slice_bound_m1. unfold m. lia. }
  eapply bind_step; [apply np_copy_ok, Hl|].
  eapply bind_step; [apply get_r_tab, lookup_old, Hl|].
  do 4 (eapply bind_step;
    [ eapply bind_step; [first [apply get_x_tab | apply get_z_tab]; apply lookup_end|];
      apply lift_ok, column_tab; [lia|first [exact Hc|exact Ht]]
    | try (eapply bind_step; [apply lift_ok, ew_vtab|]) ]).
  rewrite fmap_vtab.
  eapply bind_step; [apply lift_ok, ew_vtab|].
  eapply bind_step; [apply lift_ok, ew_vtab|].
  eapply bind_step.
  { apply modify_end. apply set_column_to_tab; [done|exact Hlast|exact Hstop]. }
  do 2 (eapply bind_step;
    [ eapply bind_step; [apply get_x_tab, lookup_end|];
      apply lift_ok, column_tab; [lia|first [exact Hc|exact Ht]] |]).
  eapply bind_step; [apply lift_ok, ew_vtab|].
  eapply bind_step.
  { apply modify_end. apply set_column_to_tab; [done|exact Htw|exact Hstop]. }
  do 2 (eapply bind_step;
    [ eapply bind_step; [apply get_z_tab, lookup_end|];
      apply lift_ok, column_tab; [lia|first [exact Hc|exact Ht]] |]).
  eapply bind_step; [apply lift_ok, ew_vtab|].
  eapply bind_step.
  { apply modify_end. apply set_column_to_tab; [done|exact Hcw|exact Hstop]. }
  unfold ret. apply (f_equal (fun T => Ok (_, World (_ ++ [T]) _ _))).
  apply tab_ext. intros i j Hi Hj. unfold CNOT_ent_at. cbv beta zeta.
  rewrite !Nat.add_0_r.
  reflexivity.
Qed.

End Gates.

Lemma lxor_cancel a b c : b = c -> Z.lxor (Z.lxor a b) c = a.
Proof. intros ->. now rewrite Z.lxor_assoc, Z.lxor_nilpotent, Z.lxor_0_r. Qed.

Lemma H_ent_involutive n Q f i j :
  (Q < n)%nat -> H_ent n Q (H_ent n Q f) i j = f i j.
Proof.
  intros HQ. unfold H_ent, H_ent_at. nat_cases; simpl; subst; try reflexivity.
  apply lxor_cancel, Z.mul_comm.
Qed.

(** C3. Applying the Hadamard update twice to the same qubit of a tableau
    gives back an array equal to the original one, scratch row included
    (and the original array object is left as it was). *)
Theorem H_twice_is_identity n T q l w :
  heap w !! l = Some T -> tableau_of n T -> valid_qubit n q ->
  exists l1 w1 l2 w2,
    CliffordOperations.H l q n w = Ok (l1, w1) /\
    CliffordOperations.H l1 q n w1 = Ok (l2, w2) /\
    heap w2 !! l2 = Some T /\ heap w2 !! l = Some T.
Proof.
  intros Hl [Hsh _] Hq. pose proof Hq as [Hq0 Hqn].
  rewrite (shape_tab _ _ _ Hsh) in Hl |- *.
  eexists _, _, _, _. split; [apply (H_run n), Hq; exact Hl|].
  split; [apply (H_run n), Hq; apply lookup_end|].
  cbn [heap]. split.
  - rewrite lookup_end. f_equal. apply tab_ext. intros i j Hi Hj.
    apply H_ent_involutive. lia.
  - now apply lookup_old, lookup_old.
Qed.

Lemma CNOT_ent_involutive n c t f i j :
  (c < n)%nat -> (t < n)%nat -> c <> t ->
  (forall j', (j' <= 2 * n)%nat -> bit (f i j')) ->
  CNOT_ent n c t (CNOT_ent n c t f) i j = f i j.
Proof.
  intros Hc Ht Hct Hb.
  assert (Hphase :
    Z.lxor (Z.lxor (f i (2 * n)%nat)
              (f i c * f i (n + t)%nat
               * Z.lxor (Z.lxor (f i t) (f i (n + c)%nat)) 1))
           (f i c * f i (n + t)%nat
            * Z.lxor (Z.lxor (Z.lxor (f i t) (f i c))
                        (Z.lxor (f i (n + c)%nat) (f i (n + t)%nat))) 1)
    = f i (2 * n)%nat).
  { destruct (Hb (2 * n)%nat ltac:(lia)) as [-> | ->],
             (Hb c ltac:(lia)) as [-> | ->],
             (Hb t ltac:(lia)) as [-> | ->],
             (Hb (n + c)%nat ltac:(lia)) as [-> | ->],
             (Hb (n + t)%nat ltac:(lia)) as [-> | ->]; reflexivity. }
  unfold CNOT_ent.
  nat_cases; simpl; subst; try reflexivity;
    try (apply lxor_cancel; reflexivity); try exact Hphase.
Qed.

(** C4. Applying the CNOT update twice with the same distinct control and
    target to a tableau gives back an array equal to the original one. *)
Theorem CNOT_twice_is_identity n T c t l w :
  heap w !! l = Some T -> tableau_of n T ->
  valid_qubit n c -> valid_qubit n t -> c <> t ->
  exists l1 w1 l2 w2,
    CliffordOperations.CNOT l c t n w = Ok (l1, w1) /\
    CliffordOperations.CNOT l1 c t n w1 = Ok (l2, w2) /\
    heap w2 !! l2 = Some T /\ heap w2 !! l = Some T.
Proof.
  intros Hl [Hsh Hbin] Hc Ht Hct.
  pose proof Hc as [Hc0 Hcn]. pose proof Ht as [Ht0 Htn].
  pose proof (fun i j => binary_ent _ _ T i j Hsh Hbin) as Hbit.
  rewrite (shape_tab _ _ _ Hsh) in Hl |- *.
  eexists _, _, _, _. split; [apply (CNOT_run n); [exact Hl|done|done]|].
  split; [apply (CNOT_run n); [apply lookup_end|done|done]|].
  cbn [heap]. split.
  - rewrite lookup_end. f_equal. apply tab_ext. intros i j Hi Hj.
    apply CNOT_ent_involutive; [lia | lia | lia |].
    intros j' Hj'. apply Hbit; lia.
  - now apply lookup_old, lookup_old.
Qed.

(** ** rowsum *)

Section Rowsum.

Import CliffordOperations.

Variable n : nat.
Let m := (2 * n + 1)%nat.

(** On bits [exponent] fails for two boolean 1s only, and otherwise
    returns [exp_val]. *)
Lemma exponent_bits dt x1 z1 x2 z2 :
  bit x1 -> bit z1 -> bit x2 -> bit z2 ->
  exponent dt x1 z1 x2 z2
  = if match dt with bool_ => (x1 =? 1) && (z1 =? 1) | _ => false end
    then Raise TypeError
    else Ok (Some (exp_val dt x1 z1 x2 z2)).
Proof.
  intros [-> | ->] [-> | ->] [-> | ->] [-> | ->]; destruct dt; reflexivity.
Qed.

Lemma exp_val_mod4 dt x1 z1 x2 z2 :
  bit x1 -> bit z1 -> bit x2 -> bit z2 ->
  exp_val dt x1 z1 x2 z2 mod 4 = g_table x1 z1 x2 z2 mod 4.
Proof.
  intros [-> | ->] [-> | ->] [-> | ->] [-> | ->]; destruct dt; reflexivity.
Qed.

Lemma sum_mod4 {A} (e g : A -> Z) l c :
  (forall a, a ∈ l -> e a mod 4 = g a mod 4) ->
  (c + foldr Z.add 0 (e <$> l)) mod 4 = (c + foldr Z.add 0 (g <$> l)) mod 4.
Proof.
  revert c. induction l as [|a l IH]; intros c He; [reflexivity|].
  rewrite !fmap_cons. cbn [foldr].
  replace (c + (e a + foldr Z.add 0 (e <$> l)))
    with (e a + (c + foldr Z.add 0 (e <$> l))) by lia.
  replace (c + (g a + foldr Z.add 0 (g <$> l)))
    with (g a + (c + foldr Z.add 0 (g <$> l))) by lia.
  rewrite Z.add_mod, (Z.add_mod (g a)) by lia.
  rewrite (He a) by left. rewrite IH by (intros b Hb; apply He; now right).
  reflexivity.
Qed.

Lemma holds_y_false (f : nat -> nat -> Z) (i j : nat) :
  holds_y f n i = false -> (j < n)%nat ->
  (f i j =? 1) && (f i (n + j)%nat =? 1) = false.
Proof.
  intros Hy Hj. destruct ((f i j =? 1) && (f i (n + j)%nat =? 1)) eqn:E; [|done].
  exfalso. assert (Ht : holds_y f n i = true); [|congruence].
  apply existsb_exists. exists j. split; [apply in_seq; lia|exact E].
Qed.

Lemma holds_y_true (f : nat -> nat -> Z) (i : nat) :
  holds_y f n i = true ->
  exists j, (j < n)%nat /\ f i j = 1 /\ f i (n + j)%nat = 1.
Proof.
  intros Hy. apply existsb_exists in Hy as (j & Hj & E).
  apply in_seq in Hj. apply andb_true_iff in E as [E1 E2].
  apply Z.eqb_eq in E1, E2. exists j. split; [lia|done].
Qed.

(** What [exponent] does at qubit [j] for rows [i] and [h] of a binary
    array. *)
Lemma exponent_at dt (f : nat -> nat -> Z) (i h j : nat) :
  (forall j, (j < 2 * n)%nat -> bit (f i j)) ->
  (forall j, (j < 2 * n)%nat -> bit (f h j)) ->
  (j < n)%nat ->
  exponent dt (f i j) (f i (n + j)%nat) (f h j) (f h (n + j)%nat)
  = if match dt with
       | bool_ => (f i j =? 1) && (f i (n + j)%nat =? 1)
       | _ => false
       end
    then Raise TypeError
    else Ok (Some (exp_val dt (f i j) (f i (n + j)%nat)
                     (f h j) (f h (n + j)%nat))).
Proof. intros Hi Hh Hj. apply exponent_bits; first [apply Hi|apply Hh]; lia. Qed.

Lemma exponent_at_ok dt (f : nat -> nat -> Z) (i h j : nat) :
  (forall j, (j < 2 * n)%nat -> bit (f i j)) ->
  (forall j, (j < 2 * n)%nat -> bit (f h j)) ->
  y_raises dt f n i = false -> (j < n)%nat ->
  exponent dt (f i j) (f i (n + j)%nat) (f h j) (f h (n + j)%nat)
  = Ok (Some (exp_val dt (f i j) (f i (n + j)%nat) (f h j) (f h (n + j)%nat))).
Proof.
  intros Hi Hh Hy Hj. rewrite exponent_at by done.
  destruct dt; [|reflexivity..]. cbn [y_raises] in Hy.
  now rewrite (holds_y_false f i j Hy Hj).
Qed.

Lemma np_sum_some {A} (e : A -> option Z) (g : A -> Z) l :
  (forall a, a ∈ l -> e a = Some (g a)) ->
  np_sum (e <$> l) = Ok (foldr Z.add 0 (g <$> l)).
Proof.
  induction l as [|a l IH]; intros He; [reflexivity|].
  rewrite !fmap_cons. cbn [np_sum foldr]. rewrite (He a) by left.
  rewrite IH by (intros b Hb; apply He; now right). reflexivity.
Qed.

Lemma modify_if l (c : bool) (f g : matrix -> result matrix) w :
  (if c then modify l f else modify l g) w
  = modify l (if c then f else g) w.
Proof. now destruct c. Qed.

(** [rowsum] on rows of bits, when row [i] does not make it fail: the
    result does not depend on the dtype. *)
Lemma rowsum_run dt w l f h i incl :
  heap w !! l = Some (tab m m f) ->
  0 <= h < 2 * Z.of_nat n + Z.b2z incl ->
  0 <= i < 2 * Z.of_nat n + Z.b2z incl ->
  (forall j, (j < 2 * n)%nat -> bit (f (Z.to_nat i) j)) ->
  (forall j, (j < 2 * n)%nat -> bit (f (Z.to_nat h) j)) ->
  y_raises dt f n (Z.to_nat i) = false ->
  rowsum dt l h i n incl w
  = Ok (length (heap w),
        World (heap w ++ [tab m m (rowsum_ent n (Z.to_nat h) (Z.to_nat i) f)])
              (tape w) (pos w)).
Proof.
  intros Hl Hh Hi Hb Hbh Hy. unfold rowsum.
  set (k := (2 * n + (if incl then 1 else 0))%nat).
  assert (Hk : Z.of_nat k = 2 * Z.of_nat n + Z.b2z incl).
  { unfold k. destruct incl; simpl; lia. }
  assert (Hb01 : 0 <= Z.b2z incl <= 1) by (destruct incl; simpl; lia).
  assert (Hm : (0 < m)%nat) by (unfold m; lia).
  assert (Hlast : norm_index m (-1) = Ok (2 * n)%nat).
  { rewrite norm_index_last by done. f_equal. unfold m. lia. }
  assert (Hhk : norm_index k h = Ok (Z.to_nat h)) by (apply norm_index_in; lia).
  assert (Hik : norm_index k i = Ok (Z.to_nat i)) by (apply norm_index_in; lia).
  assert (Hhm : norm_index m h = Ok (Z.to_nat h)).
  { apply norm_index_in. unfold m. lia. }
  assert (Him : norm_index m i = Ok (Z.to_nat i)).
  { apply norm_index_in. unfold m. lia. }
  eapply bind_step; [apply np_copy_ok, Hl|].
  eapply bind_step.
  { apply (pmapM_pure _ (fun j =>
      Some (exp_val dt
              (f (Z.to_nat i) (Z.to_nat j)) (f (Z.to_nat i) (n + Z.to_nat j)%nat)
              (f (Z.to_nat h) (Z.to_nat j)) (f (Z.to_nat h) (n + Z.to_nat j)%nat)))).
    intros a Ha. unfold range in Ha.
    apply list_elem_of_fmap in Ha as [jj [-> Hjj]].
    apply elem_of_seq in Hjj. rewrite Nat2Z.id.
    assert (Hjn : norm_index n (Z.of_nat jj) = Ok jj) by (apply norm_index_nat; lia).
    eapply bind_step; [apply get_x_tab, lookup_end|].
    eapply bind_step; [apply lift_ok, item_tab; [exact Hik|exact Hjn]|].
    eapply bind_step; [apply lift_ok, item_tab; [exact Hhk|exact Hjn]|].
    eapply bind_step; [apply get_z_tab, lookup_end|].
    eapply bind_step; [apply lift_ok, item_tab; [exact Hik|exact Hjn]|].
    eapply bind_step; [apply lift_ok, item_tab; [exact Hhk|exact Hjn]|].
    apply lift_ok, exponent_at_ok; [exact Hb|exact Hbh|exact Hy|lia]. }
  eapply bind_step.
  { eapply bind_step; [apply load_ok, lookup_end|].
    apply lift_ok, item_tab; [exact Hhm|exact Hlast]. }
  eapply bind_step.
  { eapply bind_step; [apply load_ok, lookup_end|].
    apply lift_ok, item_tab; [exact Him|exact Hlast]. }
  eapply bind_step.
  { apply lift_ok. unfold range. rewrite <- list_fmap_compose.
    apply (np_sum_some _ (fun j =>
      exp_val dt (f (Z.to_nat i) j) (f (Z.to_nat i) (n + j)%nat)
                 (f (Z.to_nat h) j) (f (Z.to_nat h) (n + j)%nat))).
    intros jj Hjj. simpl. rewrite Nat2Z.id. reflexivity. }
  rewrite (sum_mod4 _ (fun j =>
      g_table (f (Z.to_nat i) j) (f (Z.to_nat i) (n + j)%nat)
              (f (Z.to_nat h) j) (f (Z.to_nat h) (n + j)%nat))).
  2: { intros jj Hjj. apply elem_of_seq in Hjj.
       apply exp_val_mod4; first [apply Hb|apply Hbh]; lia. }
  eapply bind_step.
  { rewrite modify_if. apply modify_end.
    instantiate (1 := tab m m (fun i' j' =>
      if ((i' =? Z.to_nat h) && (j' =? 2 * n))%nat
      then rowsum_phase f n (Z.to_nat h) (Z.to_nat i) else f i' j')).
    unfold rowsum_phase, gsum.
    destruct (_ =? 0); erewrite set_item_tab by (first [exact Hhm|exact Hlast]);
      reflexivity. }
  do 2 (eapply bind_step;
    [ eapply bind_step; [apply get_x_tab, lookup_end|];
      apply lift_ok, row_tab; first [exact Hik|exact Hhk] |]).
  eapply bind_step; [apply lift_ok, ew_vtab|].
  eapply bind_step.
  { apply modify_end.
    apply (set_row_slice_tab m m _ h (Z.to_nat h) 0 (Z.of_nat n) 0 n);
      [exact Hhm | reflexivity | | lia | lia].
    rewrite slice_bound_nat. unfold m. lia. }
  do 2 (eapply bind_step;
    [ eapply bind_step; [apply get_z_tab, lookup_end|];
      apply lift_ok, row_tab; first [exact Hik|exact Hhk] |]).
  eapply bind_step; [apply lift_ok, ew_vtab|].
  eapply bind_step.
  { apply modify_end.
    apply (set_row_slice_tab m m _ h (Z.to_nat h) (Z.of_nat n) (-1) n (2 * n));
      [exact Hhm | | | lia | lia].
    - rewrite slice_bound_nat. unfold m. lia.
    - rewrite slice_bound_m1. unfold m. lia. }
  unfold ret. apply (f_equal (fun T => Ok (_, World (_ ++ [T]) _ _))).
  apply tab_ext. intros i' j' Hi' Hj'. unfold rowsum_ent. cbv beta.
  assert (Hj2 : (j' <= 2 * n)%nat) by (unfold m in Hj'; lia).
  nat_cases; simpl; subst; try reflexivity; try lia;
    first [ rewrite Nat.sub_0_r
          | replace (n + (j' - n))%nat with j' by lia ];
    reflexivity.
Qed.

Lemma pmapM_raise {A B} (F : A -> Py B) (G : A -> B) e l w :
  (forall a, a ∈ l -> F a w = Ok (G a, w) \/ F a w = Raise e) ->
  (exists a, a ∈ l /\ F a w = Raise e) ->
  pmapM F l w = Raise e.
Proof.
  induction l as [|a l IH]; intros Hall (b & Hb & Hraise); [inversion Hb|].
  cbn [pmapM]. destruct (Hall a ltac:(left)) as [Hok|Hr].
  - eapply bind_step; [exact Hok|]. apply bind_raise. apply IH.
    + intros c Hc. apply Hall. now right.
    + apply elem_of_cons in Hb as [->|Hb]; [congruence|]. now exists b.
  - now apply bind_raise.
Qed.

Lemma existsb_ext_in {A} (P Q : A -> bool) (l : list A) :
  (forall a, In a l -> P a = Q a) -> existsb P l = existsb Q l.
Proof.
  induction l as [|a l IH]; intros HPQ; [reflexivity|]. cbn [existsb].
  rewrite (HPQ a) by now left. rewrite IH; [reflexivity|].
  intros b Hb. apply HPQ. now right.
Qed.

(** Whether [rowsum] fails depends on row [i] only. *)
Lemma y_raises_ext dt (f g : nat -> nat -> Z) (i : nat) :
  (forall j, (j < 2 * n)%nat -> g i j = f i j) ->
  y_raises dt g n i = y_raises dt f n i.
Proof.
  intros Heq. destruct dt; [|reflexivity..]. cbn [y_raises]. unfold holds_y.
  apply existsb_ext_in. intros j Hj. apply in_seq in Hj.
  now rewrite !Heq by lia.
Qed.

(** On a boolean array [rowsum] fails when row [i] holds a Y. *)
Lemma rowsum_type_error dt w l f h i incl :
  heap w !! l = Some (tab m m f) ->
  0 <= h < 2 * Z.of_nat n + Z.b2z incl ->
  0 <= i < 2 * Z.of_nat n + Z.b2z incl ->
  (forall j, (j < 2 * n)%nat -> bit (f (Z.to_nat i) j)) ->
  (forall j, (j < 2 * n)%nat -> bit (f (Z.to_nat h) j)) ->
  y_raises dt f n (Z.to_nat i) = true ->
  rowsum dt l h i n incl w = Raise TypeError.
Proof.
  intros Hl Hh Hi Hb Hbh Hy. unfold rowsum.
  set (k := (2 * n + (if incl then 1 else 0))%nat).
  assert (Hk : Z.of_nat k = 2 * Z.of_nat n + Z.b2z incl).
  { unfold k. destruct incl; simpl; lia. }
  assert (Hhk : norm_index k h = Ok (Z.to_nat h)) by (apply norm_index_in; lia).
  assert (Hik : norm_index k i = Ok (Z.to_nat i)) by (apply norm_index_in; lia).
  eapply bind_step; [apply np_copy_ok, Hl|].
  apply bind_raise.
  set (w1 := World (heap w ++ [tab m m f]) (tape w) (pos w)).
  assert (Hbody : forall jj, (jj < n)%nat ->
    (run xv <- get_x (length (heap w)) n incl ;
     run x1 <- lift (item xv i (Z.of_nat jj)) ;
     run x2 <- lift (item xv h (Z.of_nat jj)) ;
     run zv <- get_z (length (heap w)) n incl ;
     run z1 <- lift (item zv i (Z.of_nat jj)) ;
     run z2 <- lift (item zv h (Z.of_nat jj)) ;
     lift (exponent dt x1 z1 x2 z2)) w1
    = lift (exponent dt (f (Z.to_nat i) jj) (f (Z.to_nat i) (n + jj)%nat)
                        (f (Z.to_nat h) jj) (f (Z.to_nat h) (n + jj)%nat)) w1).
  { intros jj Hjj.
    assert (Hjn : norm_index n (Z.of_nat jj) = Ok jj) by (apply norm_index_nat; lia).
    eapply bind_step; [apply get_x_tab, lookup_end|].
    eapply bind_step; [apply lift_ok, item_tab; [exact Hik|exact Hjn]|].
    eapply bind_step; [apply lift_ok, item_tab; [exact Hhk|exact Hjn]|].
    eapply bind_step; [apply get_z_tab, lookup_end|].
    eapply bind_step; [apply lift_ok, item_tab; [exact Hik|exact Hjn]|].
    eapply bind_step; [apply lift_ok, item_tab; [exact Hhk|exact Hjn]|].
    reflexivity. }
  destruct dt; [|discriminate..]. cbn [y_raises] in Hy.
  apply (pmapM_raise _ (fun j =>
      Some (exp_val bool_
              (f (Z.to_nat i) (Z.to_nat j)) (f (Z.to_nat i) (n + Z.to_nat j)%nat)
              (f (Z.to_nat h) (Z.to_nat j)) (f (Z.to_nat h) (n + Z.to_nat j)%nat)))).
  - intros a Ha. unfold range in Ha.
    apply list_elem_of_fmap in Ha as [jj [-> Hjj]]. apply elem_of_seq in Hjj.
    rewrite Hbody by lia. rewrite exponent_at by (first [exact Hb|exact Hbh|lia]).
    rewrite Nat2Z.id.
    destruct ((f (Z.to_nat i) jj =? 1) && (f (Z.to_nat i) (n + jj)%nat =? 1));
      [now right|now left].
  - apply holds_y_true in Hy as (jj & Hjj & H1 & H2).
    exists (Z.of_nat jj). split.
    + unfold range. apply list_elem_of_fmap. exists jj. split; [done|].
      apply elem_of_seq. lia.
    + rewrite Hbody by lia. rewrite exponent_at by (first [exact Hb|exact Hbh|lia]).
      now rewrite H1, H2.
Qed.

End Rowsum.

(** When row [i] does not make it fail (an integer dtype, or no Y in row
    [i]), [rowsum] on a tableau [T] and valid row indices [h] and [i]
    returns a fresh array and leaves every existing array, [T] included, as
    it was.  The returned array equals [T] in every row other than [h]; in
    row [h] the X and the Z components are those of rows [i] and [h] of [T]
    XORed, and the phase bit is 0 if [2 r_h + 2 r_i + sum_j g] is 0 mod 4
    and 1 otherwise, with [g] the four-case table of the specification. *)
Lemma rowsum_product_row dt n T h i incl l w :
  heap w !! l = Some T -> tableau_of n T ->
  0 <= h < 2 * Z.of_nat n + Z.b2z incl ->
  0 <= i < 2 * Z.of_nat n + Z.b2z incl ->
  y_raises dt (ent T) n (Z.to_nat i) = false ->
  exists T',
    CliffordOperations.rowsum dt l h i n incl w
      = Ok (length (heap w), World (heap w ++ [T']) (tape w) (pos w)) /\
    shape (2 * n + 1) (2 * n + 1) T' /\
    (forall k, k <> Z.to_nat h -> T' !! k = T !! k) /\
    (forall j, (j < n)%nat ->
       ent T' (Z.to_nat h) j
       = Z.lxor (ent T (Z.to_nat i) j) (ent T (Z.to_nat h) j)) /\
    (forall j, (j < n)%nat ->
       ent T' (Z.to_nat h) (n + j)
       = Z.lxor (ent T (Z.to_nat i) (n + j)) (ent T (Z.to_nat h) (n + j))) /\
    ent T' (Z.to_nat h) (2 * n)
    = if (2 * ent T (Z.to_nat h) (2 * n) + 2 * ent T (Z.to_nat i) (2 * n)
          + g_sum T n (Z.to_nat h) (Z.to_nat i)) mod 4 =? 0
      then 0 else 1.
Proof.
  intros Hl [Hsh Hbin] Hh Hi Hy.
  assert (Hb01 : 0 <= Z.b2z incl <= 1) by (destruct incl; simpl; lia).
  pose proof (fun i j => binary_ent _ _ T i j Hsh Hbin) as Hbit.
  exists (tab (2 * n + 1) (2 * n + 1) (rowsum_ent n (Z.to_nat h) (Z.to_nat i) (ent T))).
  split; [|split; [apply tab_shape|split; [|split; [|split]]]].
  - apply rowsum_run; [|done|done| | |exact Hy].
    + now rewrite <- (shape_tab _ _ _ Hsh).
    + intros j Hj. apply Hbit; lia.
    + intros j Hj. apply Hbit; lia.
  - intros k Hk. destruct (decide (k < 2 * n + 1)%nat) as [Hlt|Hge].
    + rewrite tab_lookup by done. destruct Hsh as [Hlen Hrow].
      rewrite (list_lookup_lookup_total_lt T k) by lia. f_equal.
      symmetry. apply vtab_intro; [now apply Hrow|].
      intros j Hj. unfold rowsum_ent. nat_cases; reflexivity.
    + destruct Hsh as [Hlen _].
      rewrite !lookup_ge_None_2; [done | lia | rewrite tab_length; lia].
  - intros j Hj. rewrite tab_ent by (lia).
    unfold rowsum_ent. nat_cases; reflexivity.
  - intros j Hj. rewrite tab_ent by (lia).
    unfold rowsum_ent. nat_cases; reflexivity.
  - rewrite tab_ent by (lia).
    unfold rowsum_ent. nat_cases; reflexivity.
Qed.

(** ** Positions of the flagged entries of a column *)

Section Positions.

Variable P : Z -> bool.

Lemma positions_app v1 v2 base :
  positions P (v1 ++ v2) base
  = positions P v1 base ++ positions P v2 (base + length v1).
Proof.
  revert base. induction v1 as [|a v1 IH]; intros base; simpl.
  - now rewrite Nat.add_0_r.
  - rewrite IH. replace (Datatypes.S base + length v1)%nat
      with (base + Datatypes.S (length v1))%nat by lia.
    now destruct (P a).
Qed.

Lemma elem_of_positions v base i :
  i ∈ positions P v base <->
  exists k, i = (base + k)%nat /\ (k < length v)%nat /\ P (v !!! k) = true.
Proof.
  revert base. induction v as [|a v IH]; intros base; simpl.
  - split; [intros Hin; inversion Hin | intros (k & _ & Hk & _); lia].
  - assert (Hrest : i ∈ positions P v (Datatypes.S base) <->
        exists k, i = (base + Datatypes.S k)%nat /\ (k < length v)%nat
                  /\ P (v !!! k) = true).
    { rewrite IH. split; intros (k & -> & Hk & HP); exists k;
        (split; [lia | now split]). }
    destruct (P a) eqn:HPa.
    + rewrite elem_of_cons, Hrest. split.
      * intros [-> | (k & -> & Hk & HP)].
        -- exists 0%nat. split; [lia|]. split; [lia | exact HPa].
        -- exists (Datatypes.S k). split; [lia|]. split; [lia | exact HP].
      * intros ([|k] & -> & Hk & HP).
        -- left. lia.
        -- right. exists k. split; [lia|]. split; [lia | exact HP].
    + rewrite Hrest. split.
      * intros (k & -> & Hk & HP). exists (Datatypes.S k).
        split; [lia|]. split; [lia | exact HP].
      * intros ([|k] & -> & Hk & HP).
        -- simpl in HP. rewrite HPa in HP. discriminate.
        -- exists k. split; [lia|]. split; [lia | exact HP].
Qed.

Lemma positions_none v base :
  (forall k, (k < length v)%nat -> P (v !!! k) = false) ->
  positions P v base = [].
Proof.
  intros Hall. destruct (positions P v base) as [|i rest] eqn:Hpos; [done|].
  assert (Hin : i ∈ positions P v base) by (rewrite Hpos; left).
  apply elem_of_positions in Hin as (k & _ & Hk & HP).
  rewrite Hall in HP by done. discriminate.
Qed.

Lemma positions_vtab_in k f i :
  i ∈ positions P (vtab k f) 0 <-> (i < k)%nat /\ P (f i) = true.
Proof.
  rewrite elem_of_positions. rewrite vtab_length. split.
  - intros (j & -> & Hj & HP). rewrite vtab_total in HP by done. now split.
  - intros [Hi HP]. exists i. rewrite vtab_total by done. now repeat split.
Qed.

Lemma vtab_split k f Q :
  (Q < k)%nat ->
  vtab k f
  = vtab Q f ++ [f Q] ++ vtab (k - Q - 1) (fun i => f (Q + 1 + i)%nat).
Proof.
  intros HQ. symmetry. apply vtab_intro.
  - rewrite !length_app, !vtab_length. simpl. lia.
  - intros i Hi. destruct (decide (i < Q)%nat) as [Hlt|Hge].
    + rewrite lookup_total_app_l by now rewrite vtab_length.
      now apply vtab_total.
    + rewrite lookup_total_app_r by (rewrite vtab_length; lia).
      rewrite vtab_length. destruct (decide (i = Q)) as [->|Hne].
      * now rewrite Nat.sub_diag.
      * rewrite lookup_total_app_r by (simpl; lia). simpl.
        rewrite vtab_total by lia. f_equal. lia.
Qed.

Lemma positions_vtab_single k f Q :
  (Q < k)%nat -> (forall i, (i < k)%nat -> P (f i) = true <-> i = Q) ->
  positions P (vtab k f) 0 = [Q].
Proof.
  intros HQ Hiff. rewrite (vtab_split k f Q HQ), !positions_app.
  rewrite (positions_none (vtab Q f)).
  2: { intros i Hi. rewrite vtab_length in Hi. rewrite vtab_total by done.
       destruct (P (f i)) eqn:HP; [|done]. apply Hiff in HP; lia. }
  rewrite (positions_none (vtab (k - Q - 1) _)).
  2: { intros i Hi. rewrite vtab_length in Hi. rewrite vtab_total by done.
       destruct (P (f (Q + 1 + i)%nat)) eqn:HP; [|done]. apply Hiff in HP; lia. }
  simpl. rewrite vtab_length.
  replace (P (f Q)) with true by (symmetry; apply Hiff; [done|reflexivity]).
  now rewrite app_nil_r.
Qed.

End Positions.

(** ** Worlds: in-place writes and the arrays they leave alone *)

Section Worlds.

Lemma set_heap_lookup w c T :
  (c < length (heap w))%nat -> heap (set_heap w c T) !! c = Some T.
Proof. intros Hc. unfold set_heap. cbn [heap]. now apply list_lookup_insert_eq. Qed.

Lemma set_heap_length w c T : length (heap (set_heap w c T)) = length (heap w).
Proof. unfold set_heap. cbn [heap]. apply length_insert. Qed.

Lemma prefix_insert (hp h : list matrix) c T :
  hp `prefix_of` h -> (length hp <= c)%nat -> hp `prefix_of` <[c := T]> h.
Proof.
  intros [k ->] Hc. exists (<[(c - length hp)%nat := T]> k).
  now rewrite insert_app_r_alt.
Qed.

Lemma prefix_set_heap hp w c T :
  hp `prefix_of` heap w -> (length hp <= c)%nat ->
  hp `prefix_of` heap (set_heap w c T).
Proof. intros Hp Hc. unfold set_heap. cbn [heap]. now apply prefix_insert. Qed.

Lemma modify_at c F w T T' :
  heap w !! c = Some T -> F T = Ok T' ->
  modify c F w = Ok (tt, set_heap w c T').
Proof. intros Hc HF. now apply (modify_ok c F w T T'). Qed.

Lemma bit_lxor a b : bit a -> bit b -> bit (Z.lxor a b).
Proof. intros [-> | ->] [-> | ->]; vm_compute; auto. Qed.

Lemma bit_b2z b : bit (Z.b2z b).
Proof. destruct b; vm_compute; auto. Qed.

Lemma bits_rowsum_ent n h i g :
  bits (2 * n + 1) g -> (h < 2 * n + 1)%nat -> (i < 2 * n + 1)%nat ->
  bits (2 * n + 1) (rowsum_ent n h i g).
Proof.
  intros Hg Hh Hi i' j' Hi' Hj'. unfold rowsum_ent.
  destruct (i' =? h)%nat; [|now apply Hg].
  destruct (j' <? 2 * n)%nat.
  - apply bit_lxor; now apply Hg.
  - unfold rowsum_phase. destruct (_ =? 0); unfold bit; lia.
Qed.

Lemma bits_scratch0 n f : bits (2 * n + 1) f -> bits (2 * n + 1) (scratch0 n f).
Proof.
  intros Hf i j Hi Hj. unfold scratch0.
  destruct (i =? 2 * n)%nat; [unfold bit; lia | now apply Hf].
Qed.

Lemma bits_collapse_ent n p nq o g :
  bits (2 * n + 1) g -> (p < 2 * n + 1)%nat -> bit o ->
  bits (2 * n + 1) (collapse_ent n p nq o g).
Proof.
  intros Hg Hp Ho i j Hi Hj. unfold collapse_ent.
  repeat match goal with
         | |- context [if ?c then _ else _] => destruct c
         end; try (unfold bit; lia); try done; now apply Hg.
Qed.

End Worlds.

(** ** The measurement step *)

Section Measurement.

Import CliffordOperations.

Variable n : nat.
Let m := (2 * n + 1)%nat.

Lemma pfold_random p R :
  (p < 2 * n)%nat ->
  forall c g w,
    heap w !! c = Some (tab m m g) -> bits m g ->
    (forall i, i ∈ R -> (i < 2 * n)%nat) ->
    exists c' g' w',
      pfold (fun sc i => if (i =? p)%nat then ret sc
                         else rowsum int64 sc (Z.of_nat i) (Z.of_nat p) n false)
            R c w = Ok (c', w') /\
      heap w' !! c' = Some (tab m m g') /\ bits m g' /\
      heap w `prefix_of` heap w' /\
      (c' = c \/ (length (heap w) <= c')%nat) /\
      ((forall i, i ∈ R -> i = p) -> c' = c /\ w' = w) /\
      ((exists i, i ∈ R /\ i <> p) -> (length (heap w) <= c')%nat).
Proof.
  intros Hp. induction R as [|i R IH]; intros c g w Hc Hg HR.
  - exists c, g, w. split; [reflexivity|]. split; [done|]. split; [done|].
    split; [done|]. split; [now left|]. split; [done|].
    intros (i & Hi & _). inversion Hi.
  - cbn [pfold]. destruct (Nat.eqb_spec i p) as [->|Hne].
    + destruct (IH c g w Hc Hg) as (c' & g' & w' & Hrun & Hc' & Hg' & Hpre & Hor & Hall & Hex).
      { intros j Hj. apply HR. now right. }
      exists c', g', w'. split; [eapply bind_step; [reflexivity|exact Hrun]|].
      split; [done|]. split; [done|]. split; [done|]. split; [done|]. split.
      * intros Hall'. apply Hall. intros j Hj. apply Hall'. now right.
      * intros (j & Hj & Hjp). apply Hex. exists j. split; [|done].
        apply elem_of_cons in Hj as [->|Hj]; [done|done].
    + assert (Hi : (i < 2 * n)%nat) by (apply HR; left).
      pose proof (rowsum_run n int64 w c g (Z.of_nat i) (Z.of_nat p) false Hc) as Hrs.
      rewrite !Nat2Z.id in Hrs. fold m in Hrs.
      specialize (Hrs ltac:(simpl; lia) ltac:(simpl; lia)).
      specialize (Hrs ltac:(intros j Hj; apply Hg; unfold m; lia)).
      specialize (Hrs ltac:(intros j Hj; apply Hg; unfold m; lia) eq_refl).
      set (w1 := World (heap w ++ [tab m m (rowsum_ent n i p g)]) (tape w) (pos w)) in *.
      destruct (IH (length (heap w)) (rowsum_ent n i p g) w1)
        as (c' & g' & w' & Hrun & Hc' & Hg' & Hpre & Hor & Hall & Hex).
      { apply lookup_end. }
      { apply bits_rowsum_ent; [done | lia | lia]. }
      { intros j Hj. apply HR. now right. }
      assert (Hlen : (length (heap w) <= c')%nat).
      { destruct Hor as [-> | Hge]; [lia|].
        unfold w1 in Hge. cbn [heap] in Hge. rewrite length_app in Hge. lia. }
      exists c', g', w'. split; [eapply bind_step; [exact Hrs|exact Hrun]|].
      split; [done|]. split; [done|]. split.
      { etrans; [|exact Hpre]. unfold w1. cbn [heap]. now apply prefix_app_r. }
      split; [now right|]. split; [|done].
      intros Hall'. exfalso. apply Hne, Hall'. left.
Qed.

Lemma pfold_det R :
  forall c g w,
    heap w !! c = Some (tab m m g) -> bits m g ->
    (forall i, i ∈ R -> (i < n)%nat) ->
    exists c' g' w',
      pfold (fun sc i => rowsum int64 sc (2 * Z.of_nat n) (Z.of_nat i + Z.of_nat n) n true)
            R c w = Ok (c', w') /\
      heap w' !! c' = Some (tab m m g') /\ bits m g' /\
      heap w `prefix_of` heap w'.
Proof.
  induction R as [|i R IH]; intros c g w Hc Hg HR.
  - exists c, g, w. now repeat split.
  - cbn [pfold].
    assert (Hi : (i < n)%nat) by (apply HR; left).
    pose proof (rowsum_run n int64 w c g (2 * Z.of_nat n)
                  (Z.of_nat i + Z.of_nat n) true Hc) as Hrs.
    fold m in Hrs.
    specialize (Hrs ltac:(simpl; lia) ltac:(simpl; lia)).
    specialize (Hrs ltac:(intros j Hj; apply Hg; unfold m; lia)).
    specialize (Hrs ltac:(intros j Hj; apply Hg; unfold m; lia) eq_refl).
    set (g1 := rowsum_ent n (Z.to_nat (2 * Z.of_nat n))
                 (Z.to_nat (Z.of_nat i + Z.of_nat n)) g) in *.
    set (w1 := World (heap w ++ [tab m m g1]) (tape w) (pos w)) in *.
    destruct (IH (length (heap w)) g1 w1) as (c' & g' & w' & Hrun & Hc' & Hg' & Hpre).
    { apply lookup_end. }
    { apply bits_rowsum_ent; [done | lia | lia]. }
    { intros j Hj. apply HR. now right. }
    exists c', g', w'. split; [eapply bind_step; [exact Hrs|exact Hrun]|].
    split; [done|]. split; [done|].
    etrans; [|exact Hpre]. unfold w1. cbn [heap]. now apply prefix_app_r.
Qed.

Lemma stab_column_at f q a :
  norm_index n q = Ok a ->
  column (slice_from (Z.of_nat n) (tab (2 * n + 0) n f)) q
  = Ok (vtab n (fun i => f (n + i)%nat (a))).
Proof.
  intros Ha. pose proof (norm_index_lt _ _ _ Ha) as Han.
  rewrite slice_from_tab, slice_bound_nat.
  replace (Nat.min n (2 * n + 0)) with n by lia.
  replace (2 * n + 0 - n)%nat with n by lia.
  apply (column_tab n n (fun i => f (n + i)%nat) q a); [lia|exact Ha].
Qed.

Lemma M_step_plist_at sc q w f a :
  heap w !! sc = Some (tab m m f) -> norm_index n q = Ok a ->
  bind (get_x sc n false) (fun xv =>
    bind (lift (column (slice_from (Z.of_nat n) xv) q)) (fun c =>
      ret ((fun k => (k + n)%nat) <$> nonzero c))) w
  = Ok ((fun k => (k + n)%nat)
          <$> nonzero (vtab n (fun i => f (n + i)%nat (a))), w).
Proof.
  intros Hsc Hq.
  eapply bind_step; [apply get_x_tab, Hsc|].
  eapply bind_step; [apply lift_ok, stab_column_at, Hq|]. reflexivity.
Qed.

Lemma M_step_rows_at P sc q w f a :
  heap w !! sc = Some (tab m m f) -> norm_index n q = Ok a ->
  bind (get_x sc n false) (fun xv =>
    bind (lift (column xv q)) (fun c => ret (positions P c 0))) w
  = Ok (positions P (vtab (2 * n + 0) (fun i => f i (a))) 0, w).
Proof.
  intros Hsc Hq. pose proof (norm_index_lt _ _ _ Hq) as Han.
  eapply bind_step; [apply get_x_tab, Hsc|].
  eapply bind_step.
  { apply lift_ok, column_tab; [lia|exact Hq]. }
  reflexivity.
Qed.

(** The deterministic branch: the caller's array keeps its generator rows
    and its scratch row is zeroed; the outcome is a bit. *)
Lemma M_step_det_at sc q w f a :
  heap w !! sc = Some (tab m m f) -> bits m f -> norm_index n q = Ok a ->
  nonzero (vtab n (fun i => f (n + i)%nat (a))) = [] ->
  exists c' g' w' o,
    M_step int64 sc q n w = Ok ((c', o), w') /\
    heap w' !! c' = Some (tab m m g') /\ bits m g' /\ bit o /\
    heap (set_heap w sc (tab m m (scratch0 n f))) `prefix_of` heap w'.
Proof.
  intros Hsc Hf Hq Hnil. pose proof (norm_index_lt _ _ _ Hq) as Han.
  assert (Hm : (0 < m)%nat) by (unfold m; lia).
  assert (Hlast : norm_index m (-1) = Ok (2 * n)%nat).
  { rewrite norm_index_last by done. f_equal. unfold m. lia. }
  assert (Hlt : (sc < length (heap w))%nat) by (eapply lookup_lt_Some, Hsc).
  set (w1 := set_heap w sc (tab m m (scratch0 n f))).
  assert (Hsc1 : heap w1 !! sc = Some (tab m m (scratch0 n f))).
  { now apply set_heap_lookup. }
  set (R := where_eq 1 (vtab (2 * n + 0) (fun i => scratch0 n f i (a)))).
  destruct (pfold_det R sc (scratch0 n f) w1 Hsc1 (bits_scratch0 n f Hf))
    as (c' & g' & w' & Hrun & Hc' & Hg' & Hpre).
  { intros i Hi. apply positions_vtab_in in Hi as [Hi2 Heq].
    apply Z.eqb_eq in Heq. unfold scratch0 in Heq.
    destruct (Nat.eqb_spec i (2 * n)); [lia|].
    destruct (decide (i < n)%nat) as [|Hge]; [done|]. exfalso.
    assert (Hin : (i - n)%nat ∈ nonzero (vtab n (fun i => f (n + i)%nat (a)))).
    { apply positions_vtab_in. split; [lia|].
      replace (n + (i - n))%nat with i by lia. rewrite Heq. reflexivity. }
    rewrite Hnil in Hin. inversion Hin. }
  exists c', g', w', (g' (2 * n)%nat (m - 1)%nat).
  split; [|split; [done|split; [done|split; [|done]]]].
  - unfold M_step.
    eapply bind_step; [apply M_step_plist_at; [exact Hsc|exact Hq]|].
    rewrite Hnil. cbn [fmap list_fmap].
    eapply bind_step.
    { unfold set_scratch. eapply modify_at; [exact Hsc|].
      apply fill_row_tab, Hlast. }
    eapply bind_step; [apply (M_step_rows_at (fun v => v =? 1)); [exact Hsc1|exact Hq]|].
    eapply bind_step; [exact Hrun|].
    eapply bind_step.
    { unfold get_scratch. eapply bind_step; [apply load_ok, Hc'|].
      apply lift_ok, row_tab, Hlast. }
    eapply bind_step.
    { apply lift_ok. unfold index. rewrite vtab_length.
      rewrite norm_index_last by done. cbn [rbind].
      rewrite vtab_total by lia. reflexivity. }
    reflexivity.
  - apply Hg'; unfold m; lia.
Qed.

(** The random branch: the arrays existing before the step are untouched
    as soon as some row other than [p] is flagged; when row [p] is the only
    flagged one the four assignments land in the caller's array. *)
Lemma M_step_rand_at sc q w f a c k0 rest :
  heap w !! sc = Some (tab m m f) -> bits m f -> norm_index n q = Ok a ->
  norm_index m (Z.of_nat n + q) = Ok c ->
  nonzero (vtab n (fun i => f (n + i)%nat (a))) = k0 :: rest ->
  let p := (k0 + n)%nat in
  let R := nonzero (vtab (2 * n + 0) (fun i => f i (a))) in
  exists c' g' w' o,
    M_step int64 sc q n w = Ok ((c', o), w') /\
    heap w' !! c' = Some (tab m m g') /\ bits m g' /\ bit o /\
    ((exists i, i ∈ R /\ i <> p) -> heap w `prefix_of` heap w') /\
    ((forall i, i ∈ R -> i = p) ->
       heap w' !! sc
       = Some (tab m m (collapse_ent n p c o f))).
Proof.
  intros Hsc Hf Hq Hnq Hnz p R. pose proof (norm_index_lt _ _ _ Hq) as Han.
  assert (Hm : (0 < m)%nat) by (unfold m; lia).
  assert (Hlast : norm_index m (-1) = Ok (2 * n)%nat).
  { rewrite norm_index_last by done. f_equal. unfold m. lia. }
  assert (Hk0 : (k0 < n)%nat).
  { assert (Hin : k0 ∈ nonzero (vtab n (fun i => f (n + i)%nat (a))))
      by (rewrite Hnz; left).
    now apply positions_vtab_in in Hin as [Hlt _]. }
  assert (Hp : (p < 2 * n)%nat) by (unfold p; lia).
  destruct (pfold_random p R Hp sc f w Hsc Hf)
    as (c' & g' & w1 & Hrun & Hc' & Hg' & Hpre & Hor & Hall & Hex).
  { intros i Hi. apply positions_vtab_in in Hi as [Hi _]. lia. }
  assert (Hlt : (c' < length (heap w1))%nat) by (eapply lookup_lt_Some, Hc').
  assert (Hpm : norm_index m (Z.of_nat p) = Ok p).
  { apply norm_index_nat. unfold m. lia. }
  assert (Hpn : norm_index m (Z.of_nat p - Z.of_nat n) = Ok (p - n)%nat).
  { rewrite norm_index_in by (unfold m, p; lia). f_equal. lia. }
  set (o := Z.b2z (tape w1 (pos w1))).
  set (g1 := fun i j => if (i =? p - n)%nat then g' p j else g' i j).
  set (g2 := fun i j => if (i =? p)%nat then 0 else g1 i j).
  set (g3 := fun i j => if ((i =? p) && (j =? 2 * n))%nat then o else g2 i j).
  set (w2 := set_heap w1 c' (tab m m g1)).
  set (w2' := World (heap w2) (tape w2) (Datatypes.S (pos w2))).
  set (w3 := set_heap w2' c' (tab m m g2)).
  set (w4 := set_heap w3 c' (tab m m g3)).
  set (w5 := set_heap w4 c' (tab m m (collapse_ent n p c o g'))).
  assert (Hl2 : heap w2 !! c' = Some (tab m m g1)) by now apply set_heap_lookup.
  assert (Hl3 : heap w3 !! c' = Some (tab m m g2)).
  { apply set_heap_lookup. unfold w2'. cbn [heap]. unfold w2.
    now rewrite set_heap_length. }
  assert (Hl4 : heap w4 !! c' = Some (tab m m g3)).
  { apply set_heap_lookup. unfold w3. rewrite set_heap_length.
    unfold w2'. cbn [heap]. unfold w2. now rewrite set_heap_length. }
  assert (Hl5 : heap w5 !! c'
                = Some (tab m m (collapse_ent n p c o g'))).
  { apply set_heap_lookup. unfold w4, w3. rewrite !set_heap_length.
    unfold w2'. cbn [heap]. unfold w2. now rewrite set_heap_length. }
  exists c', (collapse_ent n p c o g'), w5, o.
  split; [|split; [exact Hl5|split; [|split; [apply bit_b2z|split]]]].
  - unfold M_step.
    eapply bind_step; [apply M_step_plist_at; [exact Hsc|exact Hq]|].
    rewrite Hnz. cbn [fmap list_fmap]. fold p.
    eapply bind_step.
    { apply (M_step_rows_at (fun v => negb (v =? 0))); [exact Hsc|exact Hq]. }
    eapply bind_step; [exact Hrun|].
    eapply bind_step.
    { eapply bind_step; [apply load_ok, Hc'|]. apply lift_ok, row_tab, Hpm. }
    eapply bind_step.
    { eapply modify_at; [exact Hc'|]. apply set_row_tab, Hpn. }
    eapply bind_step; [reflexivity|].
    eapply bind_step.
    { eapply modify_at; [exact Hl2|]. apply fill_row_tab, Hpm. }
    eapply bind_step.
    { eapply modify_at; [exact Hl3|]. apply set_item_tab; [exact Hpm|exact Hlast]. }
    eapply bind_step.
    { eapply modify_at; [exact Hl4|]. apply set_item_tab; [exact Hpm|exact Hnq]. }
    reflexivity.
  - apply bits_collapse_ent; [done | unfold m; lia | apply bit_b2z].
  - intros Hother. specialize (Hex Hother).
    unfold w5, w4, w3. do 3 (apply prefix_set_heap; [|exact Hex]).
    change (heap w2') with (heap w2). unfold w2.
    apply prefix_set_heap; [exact Hpre|exact Hex].
  - intros Honly. destruct (Hall Honly) as [-> ->].
    rewrite Hl5. f_equal.
    assert (Heq : tab m m g' = tab m m f) by congruence.
    apply tab_ext. intros i j Hi Hj. unfold collapse_ent.
    assert (Hent : forall i j, (i < m)%nat -> (j < m)%nat -> g' i j = f i j).
    { intros i' j' Hi' Hj'.
      rewrite <- (tab_ent m m g' i' j'), <- (tab_ent m m f i' j') by done.
      now rewrite Heq. }
    rewrite !Hent by (unfold m in *; lia). reflexivity.
Qed.

Lemma valid_qubit_at q :
  valid_qubit n q ->
  norm_index n q = Ok (Z.to_nat q) /\
  norm_index m (Z.of_nat n + q) = Ok (n + Z.to_nat q)%nat.
Proof.
  intros [Hq0 Hqn]. split; [apply norm_index_in; lia|].
  rewrite norm_index_in by (unfold m; lia). f_equal. lia.
Qed.

(** An index in [[-n, -1]] is read from the end of the X block, and
    [nqubits + q] is then a column of the X block. *)
Lemma negative_qubit_at q :
  - Z.of_nat n <= q < 0 ->
  norm_index n q = Ok (Z.to_nat (Z.of_nat n + q)) /\
  norm_index m (Z.of_nat n + q) = Ok (Z.to_nat (Z.of_nat n + q)).
Proof.
  intros Hq. split; [apply norm_index_neg; lia|].
  apply norm_index_in. unfold m. lia.
Qed.

Lemma M_step_plist sc q w f :
  heap w !! sc = Some (tab m m f) -> valid_qubit n q ->
  bind (get_x sc n false) (fun xv =>
    bind (lift (column (slice_from (Z.of_nat n) xv) q)) (fun c =>
      ret ((fun k => (k + n)%nat) <$> nonzero c))) w
  = Ok ((fun k => (k + n)%nat)
          <$> nonzero (vtab n (fun i => f (n + i)%nat (Z.to_nat q))), w).
Proof. intros Hsc Hq. apply M_step_plist_at; [exact Hsc|]. now apply valid_qubit_at. Qed.

Lemma M_step_rows P sc q w f :
  heap w !! sc = Some (tab m m f) -> valid_qubit n q ->
  bind (get_x sc n false) (fun xv =>
    bind (lift (column xv q)) (fun c => ret (positions P c 0))) w
  = Ok (positions P (vtab (2 * n + 0) (fun i => f i (Z.to_nat q))) 0, w).
Proof. intros Hsc Hq. apply M_step_rows_at; [exact Hsc|]. now apply valid_qubit_at. Qed.

(** The deterministic branch: the caller's array keeps its generator rows
    and its scratch row is zeroed; the outcome is a bit. *)
Lemma M_step_det sc q w f :
  heap w !! sc = Some (tab m m f) -> bits m f -> valid_qubit n q ->
  nonzero (vtab n (fun i => f (n + i)%nat (Z.to_nat q))) = [] ->
  exists c' g' w' o,
    M_step int64 sc q n w = Ok ((c', o), w') /\
    heap w' !! c' = Some (tab m m g') /\ bits m g' /\ bit o /\
    heap (set_heap w sc (tab m m (scratch0 n f))) `prefix_of` heap w'.
Proof.
  intros Hsc Hf Hq. apply M_step_det_at; [exact Hsc|exact Hf|].
  now apply valid_qubit_at.
Qed.

(** The random branch: the arrays existing before the step are untouched
    as soon as some row other than [p] is flagged; when row [p] is the only
    flagged one the four assignments land in the caller's array. *)
Lemma M_step_rand sc q w f k0 rest :
  heap w !! sc = Some (tab m m f) -> bits m f -> valid_qubit n q ->
  nonzero (vtab n (fun i => f (n + i)%nat (Z.to_nat q))) = k0 :: rest ->
  let p := (k0 + n)%nat in
  let R := nonzero (vtab (2 * n + 0) (fun i => f i (Z.to_nat q))) in
  exists c' g' w' o,
    M_step int64 sc q n w = Ok ((c', o), w') /\
    heap w' !! c' = Some (tab m m g') /\ bits m g' /\ bit o /\
    ((exists i, i ∈ R /\ i <> p) -> heap w `prefix_of` heap w') /\
    ((forall i, i ∈ R -> i = p) ->
       heap w' !! sc
       = Some (tab m m (collapse_ent n p (n + Z.to_nat q) o f))).
Proof.
  intros Hsc Hf Hq. destruct (valid_qubit_at q Hq) as [Ha Hc].
  now apply M_step_rand_at.
Qed.

(** A step on an index the arrays accept, be it negative, succeeds on an
    integer tableau. *)
Lemma M_step_ok_at sc q w f a c :
  heap w !! sc = Some (tab m m f) -> bits m f ->
  norm_index n q = Ok a -> norm_index m (Z.of_nat n + q) = Ok c ->
  exists c' g' w' o,
    M_step int64 sc q n w = Ok ((c', o), w') /\
    heap w' !! c' = Some (tab m m g') /\ bits m g' /\ bit o.
Proof.
  intros Hsc Hf Ha Hc.
  destruct (nonzero (vtab n (fun i => f (n + i)%nat a))) as [|k0 rest] eqn:Hnz.
  - destruct (M_step_det_at sc q w f a Hsc Hf Ha Hnz)
      as (c' & g' & w' & o & Hrun & Hc' & Hg' & Ho & _).
    now exists c', g', w', o.
  - destruct (M_step_rand_at sc q w f a c k0 rest Hsc Hf Ha Hc Hnz)
      as (c' & g' & w' & o & Hrun & Hc' & Hg' & Ho & _).
    now exists c', g', w', o.
Qed.

Lemma all_or_other (R : list nat) p :
  (forall i, i ∈ R -> i = p) \/ (exists i, i ∈ R /\ i <> p).
Proof.
  induction R as [|i R [IH|(j & Hj & Hne)]].
  - left. intros i Hi. inversion Hi.
  - destruct (decide (i = p)) as [->|Hne].
    + left. intros j Hj. apply elem_of_cons in Hj as [->|Hj]; [done|now apply IH].
    + right. exists i. split; [left|done].
  - right. exists j. split; [now right|done].
Qed.

End Measurement.

(** ** The measurement on the other dtypes *)

Section MeasurementDtype.

Import CliffordOperations.

Variable n : nat.
Let m := (2 * n + 1)%nat.

Lemma bind_eq {A B} (m1 : Py A) (k : A -> Py B) w a w' :
  m1 w = Ok (a, w') -> bind m1 k w = k a w'.
Proof. intros Hm. unfold bind. now rewrite Hm. Qed.

Lemma existsb_never {A} (l : list A) : existsb (fun _ => false) l = false.
Proof. induction l as [|a l IH]; [reflexivity|exact IH]. Qed.

Lemma step_raises_bool dt a f : step_raises dt n a f = true -> dt = bool_.
Proof.
  destruct dt; [reflexivity|..]; unfold step_raises;
    destruct (nonzero _); cbn [y_raises andb];
    rewrite ?existsb_never; discriminate.
Qed.

Lemma accepted_at q :
  accepted_index n q ->
  exists a c, norm_index n q = Ok a /\ norm_index m (Z.of_nat n + q) = Ok c.
Proof.
  intros [Hlo Hhi]. destruct (Z.ltb_spec q 0).
  - destruct (negative_qubit_at n q) as [Ha Hc]; [lia|]. eauto.
  - destruct (valid_qubit_at n q) as [Ha Hc]; [unfold valid_qubit; lia|]. eauto.
Qed.

(** The loop of the random branch on an array of dtype [dt]: it fails at
    the first flagged row other than [p] when row [p] holds a Y and the
    array is boolean, and runs as on integers otherwise. *)
Lemma pfold_random_dt dt p R :
  (p < 2 * n)%nat ->
  forall c g w,
    heap w !! c = Some (tab m m g) -> bits m g ->
    (forall i, i ∈ R -> (i < 2 * n)%nat) ->
    pfold (fun sc i => if (i =? p)%nat then ret sc
                       else rowsum dt sc (Z.of_nat i) (Z.of_nat p) n false)
          R c w
    = if y_raises dt g n p && existsb (fun i => negb (i =? p)%nat) R
      then Raise TypeError
      else pfold (fun sc i => if (i =? p)%nat then ret sc
                              else rowsum int64 sc (Z.of_nat i) (Z.of_nat p) n false)
                 R c w.
Proof.
  intros Hp. induction R as [|i R IH]; intros c g w Hc Hg HR.
  - cbn [existsb]. rewrite andb_false_r. reflexivity.
  - cbn [pfold existsb]. destruct (Nat.eqb_spec i p) as [->|Hne].
    + cbn [negb orb]. rewrite !(bind_eq (ret c) _ w c w eq_refl). apply IH; [exact Hc|exact Hg|].
      intros j Hj. apply HR. now right.
    + cbn [negb orb]. rewrite andb_true_r.
      assert (Hi : (i < 2 * n)%nat) by (apply HR; left).
      assert (Hrow : forall r, (r < 2 * n)%nat ->
                forall j, (j < 2 * n)%nat -> bit (g r j)).
      { intros r Hr j Hj. apply Hg; unfold m; lia. }
      destruct (y_raises dt g n p) eqn:Hy.
      * apply bind_raise.
        apply (rowsum_type_error n dt w c g (Z.of_nat i) (Z.of_nat p) false Hc);
          rewrite ?Nat2Z.id; [simpl; lia | simpl; lia | now apply Hrow
                             | now apply Hrow | exact Hy].
      * pose proof (rowsum_run n dt w c g (Z.of_nat i) (Z.of_nat p) false Hc) as Hrs.
        pose proof (rowsum_run n int64 w c g (Z.of_nat i) (Z.of_nat p) false Hc) as Hrs'.
        rewrite !Nat2Z.id in Hrs, Hrs'.
        specialize (Hrs ltac:(simpl; lia) ltac:(simpl; lia)
                      (Hrow p Hp) (Hrow i Hi) Hy).
        specialize (Hrs' ltac:(simpl; lia) ltac:(simpl; lia)
                      (Hrow p Hp) (Hrow i Hi) eq_refl).
        rewrite (bind_eq _ _ _ _ _ Hrs), (bind_eq _ _ _ _ _ Hrs').
        rewrite (IH _ (rowsum_ent n i p g)).
        -- rewrite (y_raises_ext n dt g (rowsum_ent n i p g) p), Hy; [reflexivity|].
           intros j Hj. unfold rowsum_ent.
           now destruct (Nat.eqb_spec p i); [congruence|].
        -- apply lookup_end.
        -- apply bits_rowsum_ent; [done | lia | lia].
        -- intros j Hj. apply HR. now right.
Qed.

(** The loop of the determined branch: it fails on a boolean array at the
    first flagged destabilizer row whose stabilizer partner holds a Y. *)
Lemma pfold_det_dt dt R :
  forall c g w,
    heap w !! c = Some (tab m m g) -> bits m g ->
    (forall i, i ∈ R -> (i < n)%nat) ->
    pfold (fun sc i => rowsum dt sc (2 * Z.of_nat n) (Z.of_nat i + Z.of_nat n) n true)
          R c w
    = if existsb (fun i => y_raises dt g n (i + n)) R
      then Raise TypeError
      else pfold (fun sc i => rowsum int64 sc (2 * Z.of_nat n)
                                (Z.of_nat i + Z.of_nat n) n true) R c w.
Proof.
  induction R as [|i R IH]; intros c g w Hc Hg HR; [reflexivity|].
  cbn [pfold existsb].
  assert (Hi : (i < n)%nat) by (apply HR; left).
  assert (Hrow : forall r, (r < 2 * n + 1)%nat ->
            forall j, (j < 2 * n)%nat -> bit (g r j)).
  { intros r Hr j Hj. apply Hg; unfold m; lia. }
  assert (Hin : Z.to_nat (Z.of_nat i + Z.of_nat n) = (i + n)%nat) by lia.
  assert (Hhn : Z.to_nat (2 * Z.of_nat n) = (2 * n)%nat) by lia.
  destruct (y_raises dt g n (i + n)) eqn:Hy; cbn [orb].
  - apply bind_raise.
    apply (rowsum_type_error n dt w c g (2 * Z.of_nat n)
             (Z.of_nat i + Z.of_nat n) true Hc);
      rewrite ?Hin, ?Hhn; [simpl; lia | simpl; lia | apply Hrow; lia
                          | apply Hrow; lia | exact Hy].
  - pose proof (rowsum_run n dt w c g (2 * Z.of_nat n)
                  (Z.of_nat i + Z.of_nat n) true Hc) as Hrs.
    pose proof (rowsum_run n int64 w c g (2 * Z.of_nat n)
                  (Z.of_nat i + Z.of_nat n) true Hc) as Hrs'.
    rewrite Hin, Hhn in Hrs, Hrs'.
    specialize (Hrs ltac:(simpl; lia) ltac:(simpl; lia)
                  (Hrow (i + n)%nat ltac:(lia)) (Hrow (2 * n)%nat ltac:(lia)) Hy).
    specialize (Hrs' ltac:(simpl; lia) ltac:(simpl; lia)
                  (Hrow (i + n)%nat ltac:(lia)) (Hrow (2 * n)%nat ltac:(lia)) eq_refl).
    rewrite (bind_eq _ _ _ _ _ Hrs), (bind_eq _ _ _ _ _ Hrs').
    rewrite (IH _ (rowsum_ent n (2 * n) (i + n) g)).
    + rewrite (existsb_ext_in
                 (fun k => y_raises dt (rowsum_ent n (2 * n) (i + n) g) n (k + n))
                 (fun k => y_raises dt g n (k + n))); [reflexivity|].
      intros k Hk. apply y_raises_ext. intros j Hj. unfold rowsum_ent.
      assert (Hkn : (k < n)%nat) by (apply HR; right; now apply list_elem_of_In).
      now destruct (Nat.eqb_spec (k + n) (2 * n)); [lia|].
    + apply lookup_end.
    + apply bits_rowsum_ent; [done | lia | lia].
    + intros j Hj. apply HR. now right.
Qed.

(** What a step comes down to in either branch, whatever the dtype: the
    loop over the flagged rows, then the code after it. *)
Lemma M_step_det_run dt sc q w f a :
  heap w !! sc = Some (tab m m f) -> norm_index n q = Ok a ->
  nonzero (vtab n (fun i => f (n + i)%nat a)) = [] ->
  M_step dt sc q n w
  = bind (pfold (fun sc i => rowsum dt sc (2 * Z.of_nat n)
                               (Z.of_nat i + Z.of_nat n) n true)
            (where_eq 1 (vtab (2 * n + 0) (fun i => scratch0 n f i a))) sc)
         (fun state_copy =>
            run scratch <- get_scratch state_copy ;
            run outcome <- lift (index scratch (-1)) ;
            ret (state_copy, outcome))
         (set_heap w sc (tab m m (scratch0 n f))).
Proof.
  intros Hsc Hq Hnil.
  assert (Hm : (0 < m)%nat) by (unfold m; lia).
  assert (Hlast : norm_index m (-1) = Ok (2 * n)%nat).
  { rewrite norm_index_last by done. f_equal. unfold m. lia. }
  assert (Hlt : (sc < length (heap w))%nat) by (eapply lookup_lt_Some, Hsc).
  unfold M_step.
  eapply bind_step; [apply (M_step_plist_at n); [exact Hsc|exact Hq]|].
  rewrite Hnil. cbn [fmap list_fmap].
  eapply bind_step.
  { unfold set_scratch. eapply modify_at; [exact Hsc|].
    apply fill_row_tab, Hlast. }
  eapply bind_step.
  { apply (M_step_rows_at n (fun v => v =? 1)); [|exact Hq].
    now apply set_heap_lookup. }
  reflexivity.
Qed.

Lemma M_step_rand_run dt sc q w f a k0 rest :
  heap w !! sc = Some (tab m m f) -> norm_index n q = Ok a ->
  nonzero (vtab n (fun i => f (n + i)%nat a)) = k0 :: rest ->
  let p := (k0 + n)%nat in
  M_step dt sc q n w
  = bind (pfold (fun sc i => if (i =? p)%nat then ret sc
                             else rowsum dt sc (Z.of_nat i) (Z.of_nat p) n false)
            (nonzero (vtab (2 * n + 0) (fun i => f i a))) sc)
         (fun state_copy =>
            run rp <- (run T <- load state_copy ; lift (row T (Z.of_nat p))) ;
            modify state_copy
              (fun T => set_row T (Z.of_nat p - Z.of_nat n) rp) ;;
            run outcome <- randint2 ;
            modify state_copy (fun T => fill_row T (Z.of_nat p) 0) ;;
            modify state_copy (fun T => set_item T (Z.of_nat p) (-1) outcome) ;;
            modify state_copy
              (fun T => set_item T (Z.of_nat p) (Z.of_nat n + q) 1) ;;
            ret (state_copy, outcome))
         w.
Proof.
  intros Hsc Hq Hnz p. unfold M_step.
  eapply bind_step; [apply (M_step_plist_at n); [exact Hsc|exact Hq]|].
  rewrite Hnz. cbn [fmap list_fmap]. fold p.
  eapply bind_step.
  { apply (M_step_rows_at n (fun v => negb (v =? 0))); [exact Hsc|exact Hq]. }
  reflexivity.
Qed.

(** A step on an array of dtype [dt]: [TypeError] when [step_raises] says
    so, which a boolean array only can make it say, and the step on
    integers otherwise. *)
Lemma M_step_dt dt sc q w f a :
  heap w !! sc = Some (tab m m f) -> bits m f -> norm_index n q = Ok a ->
  M_step dt sc q n w
  = if step_raises dt n a f then Raise TypeError else M_step int64 sc q n w.
Proof.
  intros Hsc Hf Hq. pose proof (norm_index_lt _ _ _ Hq) as Han.
  assert (Hlt : (sc < length (heap w))%nat) by (eapply lookup_lt_Some, Hsc).
  unfold step_raises.
  destruct (nonzero (vtab n (fun i => f (n + i)%nat a))) as [|k0 rest] eqn:Hnz.
  - rewrite (M_step_det_run dt sc q w f a Hsc Hq Hnz).
    rewrite (M_step_det_run int64 sc q w f a Hsc Hq Hnz).
    rewrite (vtab_ext (2 * n + 0) (fun i => scratch0 n f i a) (fun i => f i a)).
    2:{ intros i Hi. unfold scratch0.
        now destruct (Nat.eqb_spec i (2 * n)); [lia|]. }
    assert (HR : forall i,
               i ∈ where_eq 1 (vtab (2 * n + 0) (fun i => f i a)) -> (i < n)%nat).
    { intros i Hi. apply positions_vtab_in in Hi as [Hi2 Heq].
      apply Z.eqb_eq in Heq.
      destruct (decide (i < n)%nat) as [|Hge]; [done|]. exfalso.
      assert (Hin : (i - n)%nat ∈ nonzero (vtab n (fun i => f (n + i)%nat a))).
      { apply positions_vtab_in. split; [lia|].
        replace (n + (i - n))%nat with i by lia. rewrite Heq. reflexivity. }
      rewrite Hnz in Hin. inversion Hin. }
    unfold bind at 1.
    rewrite (pfold_det_dt dt _ sc (scratch0 n f));
      [|now apply set_heap_lookup|now apply bits_scratch0|exact HR].
    rewrite (existsb_ext_in
               (fun k => y_raises dt (scratch0 n f) n (k + n))
               (fun k => y_raises dt f n (k + n))).
    2:{ intros k Hk. apply y_raises_ext. intros j Hj. unfold scratch0.
        assert (Hkn : (k < n)%nat) by (apply HR; now apply list_elem_of_In).
        now destruct (Nat.eqb_spec (k + n) (2 * n)); [lia|]. }
    now destruct (existsb _ _).
  - rewrite (M_step_rand_run dt sc q w f a k0 rest Hsc Hq Hnz).
    rewrite (M_step_rand_run int64 sc q w f a k0 rest Hsc Hq Hnz).
    assert (Hk0 : (k0 < n)%nat).
    { assert (Hin : k0 ∈ nonzero (vtab n (fun i => f (n + i)%nat a)))
        by (rewrite Hnz; left).
      now apply positions_vtab_in in Hin as [Hk _]. }
    unfold bind at 1.
    rewrite (pfold_random_dt dt (k0 + n) _ ltac:(lia) sc f w Hsc Hf).
    2:{ intros i Hi. apply positions_vtab_in in Hi as [Hi _]. lia. }
    now destruct (_ && _).
Qed.

Lemma M_step_accepted dt sc q w f :
  heap w !! sc = Some (tab m m f) -> bits m f -> accepted_index n q ->
  (exists c' g' w' o,
     M_step dt sc q n w = Ok ((c', o), w') /\
     M_step dt sc q n w = M_step int64 sc q n w /\
     heap w' !! c' = Some (tab m m g') /\ bits m g' /\ bit o) \/
  (dt = bool_ /\ M_step dt sc q n w = Raise TypeError).
Proof.
  intros Hsc Hf Hq. destruct (accepted_at q Hq) as (a & c & Ha & Hc).
  rewrite (M_step_dt dt sc q w f a Hsc Hf Ha).
  destruct (step_raises dt n a f) eqn:Hs.
  - right. split; [|reflexivity]. eapply step_raises_bool, Hs.
  - left. destruct (M_step_ok_at n sc q w f a c Hsc Hf Ha Hc)
      as (c' & g' & w' & o & Hrun & Hc' & Hg' & Ho).
    now exists c', g', w', o.
Qed.

(** The loop of [M] over accepted indices: it behaves as on integers, or
    fails with [TypeError] on a boolean array. *)
Lemma M_loop_dt dt qubits :
  forall sc w f acc,
    heap w !! sc = Some (tab m m f) -> bits m f ->
    Forall (accepted_index n) qubits ->
    (exists sc' w' os,
       M_loop dt sc qubits n acc w = Ok ((sc', acc ++ os), w') /\
       M_loop dt sc qubits n acc w = M_loop int64 sc qubits n acc w /\
       length os = length qubits /\ Forall bit os /\
       outcomes dt n sc w qubits os) \/
    (dt = bool_ /\ M_loop dt sc qubits n acc w = Raise TypeError).
Proof.
  induction qubits as [|q qubits IH]; intros sc w f acc Hsc Hf Hqs.
  - left. exists sc, w, []. rewrite app_nil_r.
    repeat split; constructor.
  - apply Forall_cons in Hqs as [Hq Hqs]. cbn [M_loop].
    destruct (M_step_accepted dt sc q w f Hsc Hf Hq)
      as [(c' & g' & w1 & o & Hstep & Heq & Hc' & Hg' & Ho)|[Hdt Hr]].
    + pose proof Hstep as Hstep'. rewrite Heq in Hstep'.
      destruct (IH c' w1 g' (acc ++ [o]) Hc' Hg' Hqs)
        as [(sc' & w' & os & Hloop & Hleq & Hlen & Hbits & Hout)|[Hdt Hr]].
      * left. exists sc', w', (o :: os).
        rewrite !(bind_eq _ _ _ _ _ Hstep), (bind_eq _ _ _ _ _ Hstep').
        cbv beta iota. split; [|split; [exact Hleq|split; [|split]]].
        -- rewrite Hloop. now rewrite <- app_assoc.
        -- simpl. now rewrite Hlen.
        -- now constructor.
        -- econstructor; [exact Hstep|exact Hout].
      * right. split; [exact Hdt|].
        rewrite (bind_eq _ _ _ _ _ Hstep). exact Hr.
    + right. split; [exact Hdt|]. now apply bind_raise.
Qed.

End MeasurementDtype.

(** ** The measurement entry point *)

Section MeasureEntry.

Import CliffordOperations.

Lemma tableau_bits n T : tableau_of n T -> bits (2 * n + 1) (ent T).
Proof. intros [Hsh Hbin] i j Hi Hj. now apply (binary_ent _ _ T i j Hsh Hbin). Qed.

Lemma M_single_collapse dt l q n w c' o w' :
  M_step dt l q n w = Ok ((c', o), w') -> M dt l [q] n true w = Ok ([o], w').
Proof.
  intros Hstep. unfold M. eapply bind_step; [reflexivity|].
  eapply bind_step.
  { cbn [M_loop]. eapply bind_step; [exact Hstep|]. reflexivity. }
  reflexivity.
Qed.

Lemma M_single_copy dt l T q n w c' o w' :
  heap w !! l = Some T ->
  M_step dt (length (heap w)) q n (World (heap w ++ [T]) (tape w) (pos w))
    = Ok ((c', o), w') ->
  M dt l [q] n false w = Ok ([o], w').
Proof.
  intros Hl Hstep. unfold M. eapply bind_step; [apply np_copy_ok, Hl|].
  eapply bind_step.
  { cbn [M_loop]. eapply bind_step; [exact Hstep|]. reflexivity. }
  reflexivity.
Qed.

Lemma bind_ext {A B} (m1 m2 : Py A) (k : A -> Py B) w :
  m1 w = m2 w -> bind m1 k w = bind m2 k w.
Proof. intros Hm. unfold bind. now rewrite Hm. Qed.

Lemma valid_accepted n q : valid_qubit n q -> accepted_index n q.
Proof. unfold valid_qubit, accepted_index. lia. Qed.

Lemma Forall_valid_accepted n qubits :
  Forall (valid_qubit n) qubits -> Forall (accepted_index n) qubits.
Proof. intros Hqs. eapply Forall_impl; [exact Hqs|]. apply valid_accepted. Qed.

(** The state [M] starts its loop on. *)
Lemma M_start dt l T qubits n (collapse : bool) w :
  heap w !! l = Some T ->
  M dt l qubits n collapse w
  = bind (M_loop dt (if collapse then l else length (heap w)) qubits n [])
         (fun '(_, sample) => ret sample)
         (if collapse then w else World (heap w ++ [T]) (tape w) (pos w)).
Proof.
  intros Hl. unfold M. destruct collapse.
  - eapply bind_step; [reflexivity|]. reflexivity.
  - eapply bind_step; [apply np_copy_ok, Hl|]. reflexivity.
Qed.

Lemma M_start_lookup l T n (collapse : bool) w :
  heap w !! l = Some T -> shape (2 * n + 1) (2 * n + 1) T ->
  heap (if collapse then w else World (heap w ++ [T]) (tape w) (pos w))
    !! (if collapse then l else length (heap w))
  = Some (tab (2 * n + 1) (2 * n + 1) (ent T)).
Proof.
  intros Hl Hsh. rewrite <- (shape_tab _ _ _ Hsh).
  destruct collapse; [exact Hl|]. cbn [heap]. apply lookup_end.
Qed.

(** [M] on accepted indices and an array of dtype [dt] behaves as on
    integers, or fails with [TypeError] on a boolean array. *)
Lemma M_dtype dt n T qubits collapse l w :
  heap w !! l = Some T -> tableau_of n T ->
  Forall (accepted_index n) qubits ->
  M dt l qubits n collapse w = M int64 l qubits n collapse w \/
  (dt = bool_ /\ M dt l qubits n collapse w = Raise TypeError).
Proof.
  intros Hl HT Hqs. pose proof (tableau_bits n T HT) as Hbits.
  destruct HT as [Hsh _].
  rewrite !(M_start _ l T qubits n collapse w Hl).
  destruct (M_loop_dt n dt qubits _ _ (ent T) []
              (M_start_lookup l T n collapse w Hl Hsh) Hbits Hqs)
    as [(sc' & w' & os & _ & Heq & _)|[Hdt Hr]].
  - left. now apply bind_ext.
  - right. split; [exact Hdt|]. now apply bind_raise.
Qed.

(** A single-qubit [M]: when it fails, exactly. *)
Lemma M_single_dt dt n T q a collapse l w :
  heap w !! l = Some T -> tableau_of n T -> norm_index n q = Ok a ->
  M dt l [q] n collapse w
  = if step_raises dt n a (ent T) then Raise TypeError
    else M int64 l [q] n collapse w.
Proof.
  intros Hl HT Ha. pose proof (tableau_bits n T HT) as Hbits.
  destruct HT as [Hsh _].
  rewrite !(M_start _ l T [q] n collapse w Hl). cbn [M_loop].
  pose proof (M_step_dt n dt _ q _ (ent T) a
                (M_start_lookup l T n collapse w Hl Hsh) Hbits Ha) as Hstep.
  destruct (step_raises dt n a (ent T)).
  - apply bind_raise, bind_raise, Hstep.
  - apply bind_ext, bind_ext, Hstep.
Qed.

(** [M] on indices the arrays accept: one bit per index, or [TypeError]
    on a boolean array. *)
Lemma M_on_accepted dt n T qubits collapse l w :
  heap w !! l = Some T -> tableau_of n T ->
  Forall (accepted_index n) qubits ->
  (exists sample w',
     M dt l qubits n collapse w = Ok (sample, w') /\
     length sample = length qubits /\ Forall bit sample /\
     (if collapse
      then outcomes dt n l w qubits sample
      else outcomes dt n (length (heap w))
             (World (heap w ++ [T]) (tape w) (pos w)) qubits sample)) \/
  (dt = bool_ /\ M dt l qubits n collapse w = Raise TypeError).
Proof.
  intros Hl HT Hqs. pose proof (tableau_bits n T HT) as Hbits.
  destruct HT as [Hsh _].
  rewrite !(M_start dt l T qubits n collapse w Hl).
  destruct (M_loop_dt n dt qubits _ _ (ent T) []
              (M_start_lookup l T n collapse w Hl Hsh) Hbits Hqs)
    as [(sc' & w' & os & Hloop & _ & Hlen & Hb & Hout)|[Hdt Hr]].
  - left. exists os, w'. split; [|split; [exact Hlen|split; [exact Hb|]]].
    + eapply bind_step; [exact Hloop|]. reflexivity.
    + destruct collapse; exact Hout.
  - right. split; [exact Hdt|]. now apply bind_raise.
Qed.

End MeasureEntry.

(** C1 (as the code has it). [M] returns the list of outcomes only, never a
    pair with a tableau.  For a tableau of dtype [dt] and valid qubit
    indices the call either succeeds and returns one bit per requested
    qubit, in the order the qubits were listed, each being the outcome of
    the measurement step run in the state the previous steps left (on the
    caller's array when [collapse] is set, on a fresh copy otherwise); or
    the tableau is boolean and the call raises [TypeError].  On an integer
    tableau it always succeeds. *)
Theorem M_returns_sample_only dt n T qubits collapse l w :
  heap w !! l = Some T -> tableau_of n T -> Forall (valid_qubit n) qubits ->
  (exists sample w',
     M_returns dt l qubits n collapse w = Ok (VIntList sample, w') /\
     length sample = length qubits /\ Forall bit sample /\
     (if collapse
      then outcomes dt n l w qubits sample
      else outcomes dt n (length (heap w))
             (World (heap w ++ [T]) (tape w) (pos w)) qubits sample)) \/
  (dt = bool_ /\ raises (M_returns dt l qubits n collapse w) TypeError).
Proof.
  intros Hl HT Hqs. unfold M_returns, raises.
  destruct (M_on_accepted dt n T qubits collapse l w Hl HT
              (Forall_valid_accepted n qubits Hqs))
    as [(sample & w' & Hrun & Hrest)|[Hdt Hr]].
  - left. exists sample, w'. split; [|exact Hrest].
    eapply bind_step; [exact Hrun|]. reflexivity.
  - right. split; [exact Hdt|]. now apply bind_raise.
Qed.

(** On an integer tableau a single-qubit measurement with [collapse] set
    returns, and unless a stabilizer row [p] is the only generator row whose
    X component at the measured qubit is set, the generator rows of the
    caller's array are the same after the call as before it. *)
Lemma M_collapse_frame n T q l w :
  heap w !! l = Some T -> tableau_of n T -> valid_qubit n q ->
  ~ (exists p, only_flagged n T (Z.to_nat q) p) ->
  exists sample w' T',
    CliffordOperations.M int64 l [q] n true w = Ok (sample, w') /\
    heap w' !! l = Some T' /\
    take (2 * n) T' = take (2 * n) T.
Proof.
  intros Hl HT Hq Hnot. pose proof (tableau_bits n T HT) as Hbits.
  destruct HT as [Hsh _]. pose proof (shape_tab _ _ _ Hsh) as HTab.
  pose proof Hq as [Hq0 Hqn].
  set (f := ent T) in *. set (m := (2 * n + 1)%nat) in *.
  assert (Hlf : heap w !! l = Some (tab m m f)) by (rewrite <- HTab; exact Hl).
  assert (Hlt : (l < length (heap w))%nat) by (eapply lookup_lt_Some, Hl).
  destruct (nonzero (vtab n (fun i => f (n + i)%nat (Z.to_nat q))))
    as [|k0 rest] eqn:Hnz.
  - destruct (M_step_det n l q w f Hlf Hbits Hq Hnz)
      as (c' & g' & w' & o & Hrun & _ & _ & _ & Hpre).
    exists [o], w', (tab m m (scratch0 n f)).
    split; [eapply M_single_collapse, Hrun|]. split.
    + eapply prefix_lookup_Some; [|exact Hpre]. now apply set_heap_lookup.
    + rewrite HTab. rewrite !take_tab by (unfold m; lia).
      apply tab_ext. intros i j Hi Hj. unfold scratch0.
      destruct (Nat.eqb_spec i (2 * n)); [lia|reflexivity].
  - destruct (M_step_rand n l q w f k0 rest Hlf Hbits Hq Hnz)
      as (c' & g' & w' & o & Hrun & _ & _ & _ & Hother & _).
    exists [o], w', T.
    split; [eapply M_single_collapse, Hrun|]. split; [|reflexivity].
    destruct (all_or_other
                (nonzero (vtab (2 * n + 0) (fun i => f i (Z.to_nat q))))
                (k0 + n)%nat) as [Hall|Hex].
    + exfalso. apply Hnot. exists (k0 + n)%nat.
      assert (Hk0 : (k0 < n)%nat /\ f (n + k0)%nat (Z.to_nat q) <> 0).
      { assert (Hin : k0 ∈ nonzero (vtab n (fun i => f (n + i)%nat (Z.to_nat q))))
          by (rewrite Hnz; left).
        apply positions_vtab_in in Hin as [Hlt' Hne]. split; [done|].
        intros Heq. rewrite Heq in Hne. discriminate. }
      destruct Hk0 as [Hk0 Hfk]. split; [lia|].
      intros i Hi. split.
      * intros Hne. apply Hall. apply positions_vtab_in. split; [lia|].
        fold f in Hne. now destruct (Z.eqb_spec (f i (Z.to_nat q)) 0).
      * intros ->. fold f. now replace (k0 + n)%nat with (n + k0)%nat by lia.
    + eapply prefix_lookup_Some; [exact Hl|]. now apply Hother.
Qed.

(** C10. For a single-qubit measurement with [collapse] set, unless a
    stabilizer row [p] is the only generator row whose X component at the
    measured qubit is set: the call raises [TypeError] when [step_raises]
    holds, which takes a boolean tableau, and nothing is returned; in every
    other case it returns, and the generator rows [0 .. 2n-1] of the
    caller's array are the same after the call as before it. *)
Theorem M_collapse_keeps_generator_rows dt n T q l w :
  heap w !! l = Some T -> tableau_of n T -> valid_qubit n q ->
  ~ (exists p, only_flagged n T (Z.to_nat q) p) ->
  if step_raises dt n (Z.to_nat q) (ent T)
  then raises (CliffordOperations.M dt l [q] n true w) TypeError
  else exists sample w' T',
    CliffordOperations.M dt l [q] n true w = Ok (sample, w') /\
    heap w' !! l = Some T' /\
    take (2 * n) T' = take (2 * n) T.
Proof.
  intros Hl HT Hq Hnot. unfold raises.
  rewrite (M_single_dt dt n T q (Z.to_nat q) true l w Hl HT)
    by (apply norm_index_in, Hq).
  destruct (step_raises dt n (Z.to_nat q) (ent T)); [reflexivity|].
  now apply M_collapse_frame.
Qed.

(** The excluded case is the one in which the assignments do land in the
    caller's array, whatever the dtype, as [rowsum] is not called: when a stabilizer row [p] is the only flagged row, row
    [p] of that array is overwritten. *)
Lemma M_collapse_writes_in_place dt n T q l w p :
  heap w !! l = Some T -> tableau_of n T -> valid_qubit n q ->
  only_flagged n T (Z.to_nat q) p ->
  exists o w' T',
    CliffordOperations.M dt l [q] n true w = Ok ([o], w') /\
    heap w' !! l = Some T' /\
    take (2 * n) T' <> take (2 * n) T.
Proof.
  intros Hl HT Hq [[Hp1 Hp2] Hiff]. pose proof (tableau_bits n T HT) as Hbits.
  destruct HT as [Hsh _]. pose proof (shape_tab _ _ _ Hsh) as HTab.
  pose proof Hq as [Hq0 Hqn].
  set (f := ent T) in *. set (m := (2 * n + 1)%nat) in *.
  assert (Hlf : heap w !! l = Some (tab m m f)) by (rewrite <- HTab; exact Hl).
  assert (Hflag : forall i, (i < 2 * n)%nat ->
            negb (f i (Z.to_nat q) =? 0) = true <-> i = p).
  { intros i Hi. rewrite <- (Hiff i Hi).
    destruct (Z.eqb_spec (f i (Z.to_nat q)) 0); simpl; split; congruence. }
  assert (Hnz : nonzero (vtab n (fun i => f (n + i)%nat (Z.to_nat q)))
                = [(p - n)%nat]).
  { apply positions_vtab_single; [lia|]. intros i Hi.
    rewrite (Hflag (n + i)%nat) by lia. lia. }
  destruct (M_step_rand n l q w f (p - n) [] Hlf Hbits Hq Hnz)
    as (c' & g' & w' & o & Hrun & _ & _ & _ & _ & Honly).
  replace (p - n + n)%nat with p in Honly by lia.
  assert (HR : nonzero (vtab (2 * n + 0) (fun i => f i (Z.to_nat q))) = [p]).
  { apply positions_vtab_single; [lia|]. intros i Hi. apply Hflag. lia. }
  rewrite HR in Honly.
  specialize (Honly ltac:(intros i Hi; apply list_elem_of_singleton in Hi; exact Hi)).
  assert (Hdt : CliffordOperations.M_step dt l q n w
                = CliffordOperations.M_step int64 l q n w).
  { rewrite (M_step_dt n dt l q w f (Z.to_nat q) Hlf Hbits)
      by (apply norm_index_in; lia).
    unfold step_raises. rewrite Hnz, HR. cbn [existsb].
    replace (p - n + n)%nat with p by lia. rewrite Nat.eqb_refl.
    cbn [negb orb]. now rewrite andb_false_r. }
  rewrite <- Hdt in Hrun.
  exists o, w', (tab m m (collapse_ent n p (n + Z.to_nat q) o f)).
  split; [eapply M_single_collapse, Hrun|]. split; [exact Honly|].
  intros Heq. apply (f_equal (fun M => ent M p (Z.to_nat q))) in Heq.
  unfold ent in Heq. rewrite !lookup_total_take_lt in Heq by lia.
  fold (ent (tab m m (collapse_ent n p (n + Z.to_nat q) o f)) p (Z.to_nat q)) in Heq.
  fold (ent T p (Z.to_nat q)) in Heq.
  rewrite tab_ent in Heq by (unfold m; lia).
  apply (proj2 (Hiff p Hp2) eq_refl). fold (f p (Z.to_nat q)) in Heq.
  rewrite <- Heq. unfold collapse_ent. nat_cases; reflexivity.
Qed.

(** ** Measuring the zero state *)

Section ZeroState.

Import CliffordOperations.

Variable n : nat.
Let m := (2 * n + 1)%nat.

Lemma zero_state_tab : zero_state n = tab m m (zero_ent n).
Proof. reflexivity. Qed.

Lemma bits_zero_ent : bits m (zero_ent n).
Proof.
  intros i j _ _. unfold zero_ent.
  destruct ((i =? j) && (i <? 2 * n))%nat; vm_compute; auto.
Qed.

Lemma zero_state_tableau : tableau_of n (zero_state n).
Proof.
  rewrite zero_state_tab. split; [apply tab_shape|].
  apply tab_binary. intros i j Hi Hj. now apply bits_zero_ent.
Qed.

Lemma scratch0_zero_ent : tab m m (scratch0 n (zero_ent n)) = tab m m (zero_ent n).
Proof.
  apply tab_ext. intros i j _ _. unfold scratch0, zero_ent.
  nat_cases; reflexivity.
Qed.

Lemma foldr_add_zero {A} (g : A -> Z) l :
  (forall a, a ∈ l -> g a = 0) -> foldr Z.add 0 (g <$> l) = 0.
Proof.
  induction l as [|a l IH]; intros Hg; [reflexivity|].
  rewrite fmap_cons. cbn [foldr]. rewrite (Hg a) by left.
  rewrite IH; [reflexivity|]. intros b Hb. apply Hg. now right.
Qed.

Lemma zero_phase Q :
  (Q < n)%nat -> rowsum_phase (zero_ent n) n (2 * n) (Q + n) = 0.
Proof.
  intros HQ. unfold rowsum_phase, gsum.
  rewrite foldr_add_zero.
  - unfold zero_ent. nat_cases; reflexivity.
  - intros j Hj. apply elem_of_seq in Hj. unfold zero_ent.
    nat_cases; reflexivity.
Qed.

(** No row of the zero state holds a Y. *)
Lemma holds_y_zero i : holds_y (zero_ent n) n i = false.
Proof.
  destruct (holds_y (zero_ent n) n i) eqn:E; [|reflexivity]. exfalso.
  apply holds_y_true in E as (j & Hj & H1 & H2). unfold zero_ent in H1, H2.
  destruct (Nat.eqb_spec i j), (Nat.eqb_spec i (n + j)); cbn [andb] in *;
    first [lia | discriminate].
Qed.

(** On the zero state the step is deterministic: a single [rowsum] into the
    scratch row of a fresh copy, outcome 0, the measured array unchanged. *)
Lemma M_step_zero dt sc q w :
  heap w !! sc = Some (tab m m (zero_ent n)) -> valid_qubit n q ->
  exists c' w',
    M_step dt sc q n w = Ok ((c', 0), w') /\ heap w `prefix_of` heap w'.
Proof.
  intros Hsc Hq. pose proof Hq as [Hq0 Hqn].
  set (f := zero_ent n) in *.
  assert (Hm : (0 < m)%nat) by (unfold m; lia).
  assert (Hlast : norm_index m (-1) = Ok (2 * n)%nat).
  { rewrite norm_index_last by done. f_equal. unfold m. lia. }
  assert (Hlt : (sc < length (heap w))%nat) by (eapply lookup_lt_Some, Hsc).
  assert (Hnil : nonzero (vtab n (fun i => f (n + i)%nat (Z.to_nat q))) = []).
  { apply positions_none. intros k Hk. rewrite vtab_length in Hk.
    rewrite vtab_total by done. unfold f, zero_ent. nat_cases; reflexivity. }
  assert (Hw1 : set_heap w sc (tab m m (scratch0 n f)) = w).
  { unfold set_heap, f. rewrite scratch0_zero_ent.
    rewrite list_insert_id by exact Hsc. now destruct w. }
  assert (Hrows : where_eq 1 (vtab (2 * n + 0) (fun i => f i (Z.to_nat q)))
                  = [Z.to_nat q]).
  { apply positions_vtab_single; [lia|]. intros i Hi. unfold f, zero_ent.
    nat_cases; simpl; split; (done || lia). }
  pose proof (rowsum_run n dt w sc f (2 * Z.of_nat n)
                (Z.of_nat (Z.to_nat q) + Z.of_nat n) true Hsc) as Hrs.
  fold m in Hrs.
  specialize (Hrs ltac:(simpl; lia) ltac:(simpl; lia)).
  specialize (Hrs ltac:(intros j Hj; apply bits_zero_ent; unfold m; lia)).
  specialize (Hrs ltac:(intros j Hj; apply bits_zero_ent; unfold m; lia)).
  specialize (Hrs ltac:(destruct dt; [apply holds_y_zero|reflexivity..])).
  replace (Z.to_nat (2 * Z.of_nat n)) with (2 * n)%nat in Hrs by lia.
  replace (Z.to_nat (Z.of_nat (Z.to_nat q) + Z.of_nat n))
    with (Z.to_nat q + n)%nat in Hrs by lia.
  eexists _, _. split.
  - unfold M_step.
    eapply bind_step; [apply M_step_plist; [exact Hsc|exact Hq]|].
    rewrite Hnil. cbn [fmap list_fmap].
    eapply bind_step.
    { unfold set_scratch. eapply modify_at; [exact Hsc|].
      apply fill_row_tab, Hlast. }
    fold (scratch0 n f). rewrite Hw1.
    eapply bind_step; [apply (M_step_rows n (fun a => a =? 1)); [exact Hsc|exact Hq]|].
    fold (where_eq 1 (vtab (2 * n + 0) (fun i => f i (Z.to_nat q)))).
    rewrite Hrows.
    eapply bind_step.
    { cbn [pfold]. eapply bind_step; [exact Hrs|]. reflexivity. }
    eapply bind_step.
    { unfold get_scratch. eapply bind_step; [apply load_ok, lookup_end|].
      apply lift_ok, row_tab, Hlast. }
    eapply bind_step.
    { apply lift_ok. unfold index. rewrite vtab_length.
      rewrite norm_index_last by done. cbn [rbind].
      rewrite vtab_total by lia. reflexivity. }
    unfold ret. do 3 f_equal. unfold rowsum_ent.
    nat_cases. apply zero_phase. lia.
  - cbn [heap]. now apply prefix_app_r.
Qed.

End ZeroState.

(** C5. Starting from the [n]-qubit zero state, measuring any single qubit
    with [M], with or without [collapse], yields outcome 0 and leaves the
    caller's tableau as it was. *)
Theorem M_zero_state_outcome dt n q collapse l w :
  heap w !! l = Some (zero_state n) -> valid_qubit n q ->
  exists w',
    CliffordOperations.M dt l [q] n collapse w = Ok ([0], w') /\
    heap w' !! l = Some (zero_state n).
Proof.
  intros Hl Hq. destruct collapse.
  - destruct (M_step_zero n dt l q w Hl Hq) as (c' & w' & Hstep & Hpre).
    exists w'. split; [eapply M_single_collapse, Hstep|].
    eapply prefix_lookup_Some; [exact Hl|exact Hpre].
  - set (w1 := World (heap w ++ [zero_state n]) (tape w) (pos w)).
    destruct (M_step_zero n dt (length (heap w)) q w1) as (c' & w' & Hstep & Hpre);
      [apply lookup_end | exact Hq |].
    exists w'. split; [eapply M_single_copy; [exact Hl|exact Hstep]|].
    eapply prefix_lookup_Some; [|exact Hpre].
    unfold w1. cbn [heap]. now apply lookup_old.
Qed.

(** ** Indices outside the tableau *)

Section IndexErrors.

Import CliffordOperations.

Variable n : nat.
Let m := (2 * n + 1)%nat.

Lemma norm_index_raise_inv len i e : norm_index len i = Raise e -> e = IndexError.
Proof.
  unfold norm_index. destruct (_ && _); [discriminate|].
  destruct (_ && _); [discriminate|]. now intros [= <-].
Qed.

Lemma column_tab_out r c f j :
  out_of_range c j -> column (tab r c f) j = Raise IndexError.
Proof.
  intros Hj. unfold column. destruct r as [|r].
  - cbn [tab ncols seq fmap list_fmap]. rewrite norm_index_out; [reflexivity|].
    destruct Hj; simpl; lia.
  - rewrite tab_ncols by lia. now rewrite norm_index_out.
Qed.

Lemma H_raises w l f q :
  heap w !! l = Some (tab m m f) -> out_of_range n q ->
  H l q n w = Raise IndexError.
Proof.
  intros Hl Hq. unfold H.
  eapply bind_step; [apply np_copy_ok, Hl|].
  eapply bind_step; [apply get_r_tab, lookup_end|].
  eapply bind_step; [apply get_x_tab, lookup_end|].
  apply bind_raise, lift_raise, column_tab_out, Hq.
Qed.

Lemma S_raises w l f q :
  heap w !! l = Some (tab m m f) -> out_of_range n q ->
  S l q n w = Raise IndexError.
Proof.
  intros Hl Hq. unfold S.
  eapply bind_step; [apply np_copy_ok, Hl|].
  eapply bind_step; [apply get_r_tab, lookup_old, Hl|].
  apply bind_raise.
  eapply bind_step; [apply get_x_tab, lookup_old, Hl|].
  apply lift_raise, column_tab_out, Hq.
Qed.

Lemma CNOT_raises w l f c t :
  heap w !! l = Some (tab m m f) -> out_of_range n c \/ out_of_range n t ->
  CNOT l c t n w = Raise IndexError.
Proof.
  intros Hl Hct. unfold CNOT.
  eapply bind_step; [apply np_copy_ok, Hl|].
  eapply bind_step; [apply get_r_tab, lookup_old, Hl|].
  destruct (norm_index n c) as [a|e] eqn:Hc.
  - assert (Ht : out_of_range n t).
    { destruct Hct as [Hc'|]; [|done].
      rewrite norm_index_out in Hc by exact Hc'. discriminate. }
    assert (Hn : (0 < n)%nat) by (apply norm_index_lt in Hc; lia).
    eapply bind_step.
    { eapply bind_step; [apply get_x_tab, lookup_end|].
      apply lift_ok, column_tab; [lia|exact Hc]. }
    apply bind_raise.
    eapply bind_step; [apply get_z_tab, lookup_end|].
    apply lift_raise, column_tab_out, Ht.
  - apply bind_raise.
    eapply bind_step; [apply get_x_tab, lookup_end|].
    apply lift_raise. unfold column. destruct n as [|n'] eqn:Hn.
    + cbn [tab ncols seq fmap list_fmap Nat.mul Nat.add].
      replace (norm_index 0 c) with (@Raise nat IndexError); [reflexivity|].
      symmetry. apply norm_index_out. unfold out_of_range. simpl. lia.
    + rewrite tab_ncols by lia. rewrite Hc. cbn [rbind]. f_equal.
      eapply norm_index_raise_inv, Hc.
Qed.

Lemma M_step_raises dt sc q w f :
  heap w !! sc = Some (tab m m f) -> out_of_range n q ->
  M_step dt sc q n w = Raise IndexError.
Proof.
  intros Hsc Hq. unfold M_step. apply bind_raise.
  eapply bind_step; [apply get_x_tab, Hsc|].
  apply bind_raise, lift_raise.
  rewrite slice_from_tab. apply column_tab_out, Hq.
Qed.

Lemma M_loop_raises dt qs1 q qs2 :
  out_of_range n q ->
  forall sc w f acc,
    heap w !! sc = Some (tab m m f) -> bits m f ->
    Forall (accepted_index n) qs1 ->
    M_loop dt sc (qs1 ++ q :: qs2) n acc w = Raise IndexError \/
    (dt = bool_ /\ M_loop dt sc (qs1 ++ q :: qs2) n acc w = Raise TypeError).
Proof.
  intros Hq. induction qs1 as [|q1 qs1 IH]; intros sc w f acc Hsc Hf Hqs.
  - left. cbn [app M_loop]. apply bind_raise.
    eapply M_step_raises; [exact Hsc|exact Hq].
  - apply Forall_cons in Hqs as [Hq1 Hqs].
    rewrite <- app_comm_cons. cbn [M_loop].
    destruct (M_step_accepted n dt sc q1 w f Hsc Hf Hq1)
      as [(c' & g' & w1 & o & Hstep & _ & Hc' & Hg' & Ho)|[Hdt Hr]].
    + rewrite (bind_eq _ _ _ _ _ Hstep). cbv beta iota.
      eapply IH; [exact Hc'|exact Hg'|exact Hqs].
    + right. split; [exact Hdt|]. now apply bind_raise.
Qed.

Lemma M_raises dt T qs1 q qs2 collapse l w :
  heap w !! l = Some T -> tableau_of n T -> out_of_range n q ->
  Forall (accepted_index n) qs1 ->
  M dt l (qs1 ++ q :: qs2) n collapse w = Raise IndexError \/
  (dt = bool_ /\ M dt l (qs1 ++ q :: qs2) n collapse w = Raise TypeError).
Proof.
  intros Hl HT Hq Hqs. pose proof (tableau_bits n T HT) as Hbits.
  destruct HT as [Hsh _].
  rewrite !(M_start dt l T _ n collapse w Hl).
  destruct (M_loop_raises dt qs1 q qs2 Hq _ _ (ent T) []
              (M_start_lookup l T n collapse w Hl Hsh) Hbits Hqs)
    as [Hr|[Hdt Hr]].
  - left. now apply bind_raise.
  - right. split; [exact Hdt|]. now apply bind_raise.
Qed.

End IndexErrors.

(** C8 (as the code has it). No gate or measurement checks its qubit
    index; what fails is the array indexing.  On a tableau of [n] qubits an
    index [q >= n] or [q < -n] makes [H], [S] and [CNOT] (as control or as
    target) raise [IndexError], and [M] too as soon as that qubit is reached
    (unless an earlier step has raised [TypeError] on a boolean tableau).
    An index in [[-n, -1]] is not rejected by any of them: it counts from
    the end of each axis.  [H], [S] and [CNOT] then return an updated array
    normally, the one whose entries are given, and [M] returns one bit per
    listed index, negative or not (or raises [TypeError] on a boolean
    tableau). *)
Theorem index_errors_and_wraps n T l w :
  heap w !! l = Some T -> tableau_of n T ->
  (forall q, out_of_range n q ->
     raises (CliffordOperations.H l q n w) IndexError /\
     raises (CliffordOperations.S l q n w) IndexError /\
     (forall t, raises (CliffordOperations.CNOT l q t n w) IndexError) /\
     (forall c, raises (CliffordOperations.CNOT l c q n w) IndexError) /\
     (forall dt qs1 qs2 collapse, Forall (valid_qubit n) qs1 ->
        raises (CliffordOperations.M dt l (qs1 ++ q :: qs2) n collapse w)
               IndexError \/
        (dt = bool_ /\
         raises (CliffordOperations.M dt l (qs1 ++ q :: qs2) n collapse w)
                TypeError))) /\
  (forall q, - Z.of_nat n <= q < 0 ->
     CliffordOperations.H l q n w
     = Ok (length (heap w),
           World (heap w
                  ++ [tab (2 * n + 1) (2 * n + 1)
                        (H_ent_at n (Z.to_nat (Z.of_nat n + q))
                           (Z.to_nat (2 * Z.of_nat n + 1 + q))
                           (Z.to_nat (Z.of_nat n + q)) (ent T))])
                 (tape w) (pos w)) /\
     CliffordOperations.S l q n w
     = Ok (length (heap w),
           World (heap w
                  ++ [tab (2 * n + 1) (2 * n + 1)
                        (S_ent_at n (Z.to_nat (Z.of_nat n + q))
                           (Z.to_nat (Z.of_nat n + q)) (ent T))])
                 (tape w) (pos w)) /\
     (forall t, valid_qubit n t ->
        CliffordOperations.CNOT l q t n w
        = Ok (length (heap w),
              World (heap w
                     ++ [tab (2 * n + 1) (2 * n + 1)
                           (CNOT_ent_at n (Z.to_nat (Z.of_nat n + q))
                              (Z.to_nat t) (Z.to_nat t)
                              (Z.to_nat (Z.of_nat n + q)) (ent T))])
                    (tape w) (pos w))) /\
     (forall c, valid_qubit n c ->
        CliffordOperations.CNOT l c q n w
        = Ok (length (heap w),
              World (heap w
                     ++ [tab (2 * n + 1) (2 * n + 1)
                           (CNOT_ent_at n (Z.to_nat c)
                              (Z.to_nat (Z.of_nat n + q))
                              (Z.to_nat (2 * Z.of_nat n + 1 + q))
                              (n + Z.to_nat c) (ent T))])
                    (tape w) (pos w)))) /\
  (forall dt qubits collapse, Forall (accepted_index n) qubits ->
     (exists sample w',
        CliffordOperations.M dt l qubits n collapse w = Ok (sample, w') /\
        length sample = length qubits /\ Forall bit sample) \/
     (dt = bool_ /\
      raises (CliffordOperations.M dt l qubits n collapse w) TypeError)).
Proof.
  intros Hl HT. pose proof HT as [Hsh _].
  pose proof (shape_tab _ _ _ Hsh) as HTab.
  assert (Hlf : heap w !! l = Some (tab (2 * n + 1) (2 * n + 1) (ent T))).
  { rewrite <- HTab. exact Hl. }
  split; [|split].
  - intros q Hq. unfold raises.
    split; [now apply (H_raises n w l (ent T))|].
    split; [now apply (S_raises n w l (ent T))|].
    split; [intros t; apply (CNOT_raises n w l (ent T)); [done|now left]|].
    split; [intros c; apply (CNOT_raises n w l (ent T)); [done|now right]|].
    intros dt qs1 qs2 collapse Hqs.
    apply (M_raises n dt T); [exact Hl|exact HT|exact Hq|].
    now apply Forall_valid_accepted.
  - intros q Hq.
    assert (Ha : norm_index n q = Ok (Z.to_nat (Z.of_nat n + q)))
      by (apply norm_index_neg; lia).
    assert (Hb : norm_index (2 * n + 1) q
                 = Ok (Z.to_nat (2 * Z.of_nat n + 1 + q))).
    { rewrite norm_index_neg by lia. f_equal. lia. }
    assert (Hc : norm_index (2 * n + 1) (Z.of_nat n + q)
                 = Ok (Z.to_nat (Z.of_nat n + q)))
      by (apply norm_index_in; lia).
    split; [apply (H_run_at n); [exact Hlf|exact Ha|exact Hb|exact Hc]|].
    split; [apply (S_run_at n); [exact Hlf|exact Ha|exact Hc]|].
    split.
    + intros t [Ht0 Htn].
      apply (CNOT_run_at n); [exact Hlf|exact Ha| | |exact Hc];
        apply norm_index_in; lia.
    + intros c [Hc0 Hcn].
      apply (CNOT_run_at n); [exact Hlf| |exact Ha|exact Hb|].
      * apply norm_index_in. lia.
      * rewrite norm_index_in by lia. f_equal. lia.
  - intros dt qubits collapse Hqs. unfold raises.
    destruct (M_on_accepted dt n T qubits collapse l w Hl HT Hqs)
      as [(sample & w' & Hrun & Hlen & Hb & _)|Hr]; [left|now right].
    now exists sample, w'.
Qed.

(** ** The decoder *)

Section Decoder.

Lemma fmap_seq_intro {A} (l : list A) k (f : nat -> A) :
  length l = k -> (forall i, (i < k)%nat -> l !! i = Some (f i)) ->
  l = f <$> seq 0 k.
Proof.
  intros Hl Hf. apply list_eq. intros i.
  destruct (decide (i < k)%nat) as [Hi|Hi].
  - rewrite Hf by done. rewrite list_lookup_fmap, lookup_seq_lt by done.
    reflexivity.
  - rewrite !lookup_ge_None_2; [done | rewrite length_fmap, length_seq; lia | lia].
Qed.

Lemma rmapM_ok {A B} (F : A -> result B) (G : A -> B) l :
  (forall a, a ∈ l -> F a = Ok (G a)) -> rmapM F l = Ok (G <$> l).
Proof.
  induction l as [|a l IH]; intros HF; [reflexivity|].
  cbn [rmapM]. rewrite (HF a) by left. cbn [rbind].
  rewrite IH by (intros b Hb; apply HF; now right). reflexivity.
Qed.

Lemma zip_fmap_seq {A B} (f : nat -> A) (g : nat -> B) a b :
  (a <= b)%nat ->
  zip (f <$> seq 0 a) (g <$> seq 0 b) = (fun j => (f j, g j)) <$> seq 0 a.
Proof.
  intros Hab. apply fmap_seq_intro.
  - rewrite length_zip_with, !length_fmap, !length_seq. lia.
  - intros i Hi. rewrite lookup_zip_with.
    rewrite !list_lookup_fmap, !lookup_seq_lt by lia. reflexivity.
Qed.

Lemma imap_pair_seq {A} (h : nat -> A) a :
  imap (fun i p => (i, p)) (h <$> seq 0 a) = (fun j => (j, h j)) <$> seq 0 a.
Proof.
  apply fmap_seq_intro.
  - now rewrite length_imap, length_fmap, length_seq.
  - intros i Hi. rewrite list_lookup_imap, list_lookup_fmap, lookup_seq_lt by done.
    reflexivity.
Qed.

Lemma dict_get_bits x z :
  bit x -> bit z ->
  dict_get bits_to_gate (pretty z +:+ pretty x) = Ok (pauli_letter x z).
Proof. intros [-> | ->] [-> | ->]; reflexivity. Qed.

Lemma letter_zx_bits x z : bit x -> bit z -> letter_zx x z = Some (pauli_letter x z).
Proof. intros [-> | ->] [-> | ->]; reflexivity. Qed.

Lemma nqubits_bound s :
  (0 < s)%nat -> (2 * CliffordOperations.nqubits s <= s - 1)%nat.
Proof.
  intros Hs. unfold CliffordOperations.nqubits.
  rewrite Z.quot_div_nonneg by lia.
  pose proof (Z.mul_div_le (Z.of_nat s - 1) 2 ltac:(lia)).
  pose proof (Z.div_pos (Z.of_nat s - 1) 2 ltac:(lia) ltac:(lia)). lia.
Qed.

Lemma decode_row_tab (a b : nat -> Z) nq zc :
  (nq <= zc)%nat ->
  (forall j, (j < nq)%nat -> bit (a j) /\ bit (b j)) ->
  decode_row (vtab nq a) (vtab zc b)
  = Ok ((fun j => gates.Gate (pauli_letter (a j) (b j)) j) <$> seq 0 nq).
Proof.
  intros Hle Hbits. unfold decode_row, vtab.
  rewrite zip_fmap_seq by done. rewrite imap_pair_seq.
  rewrite (rmapM_ok _ (fun '(i, (xx, zz)) => gates.Gate (pauli_letter xx zz) i)).
  - rewrite <- list_fmap_compose. reflexivity.
  - intros [i [xx zz]] Hin. apply list_elem_of_fmap in Hin as (j & [= -> -> ->] & Hj).
    apply elem_of_seq in Hj. destruct (Hbits j ltac:(lia)) as [Ha Hb].
    rewrite dict_get_bits by done. reflexivity.
Qed.

Lemma decoder_run s f l w :
  heap w !! l = Some (tab s s f) -> bits s f -> (0 < s)%nat ->
  let nq := CliffordOperations.nqubits s in
  tableau_to_generators l false w
  = Ok (((fun k => Paulis (decoded_paulis f nq k)) <$> seq 0 (s - 1 - nq),
         decoded_phases f s nq), w).
Proof.
  intros Hl Hf Hs nq. pose proof (nqubits_bound s Hs) as Hnq. fold nq in Hnq.
  unfold tableau_to_generators.
  eapply bind_step; [apply load_ok, Hl|].
  rewrite tab_nrows. fold (CliffordOperations.nqubits s). fold nq. cbv zeta.
  assert (Hsb : slice_bound s (Z.of_nat nq) = nq).
  { rewrite slice_bound_nat. lia. }
  eapply bind_step.
  { apply lift_ok.
    rewrite (column_slice_tab s s f (Z.of_nat nq) (-1) (-1) (s - 1)%nat);
      [|done|now apply norm_index_last].
    rewrite slice_bound_m1, Hsb. reflexivity. }
  rewrite slice_tab, slice_bound_m1, Hsb.
  rewrite (fmap_tab (slice_to (-1)) (s - 1 - nq) s (s - 1) _
             (fun i j => f (nq + i)%nat j)).
  2: { intros i Hi. rewrite slice_to_vtab, slice_bound_m1. reflexivity. }
  rewrite (fmap_tab (slice_to (Z.of_nat nq)) (s - 1 - nq) (s - 1) nq _
             (fun i j => f (nq + i)%nat j)).
  2: { intros i Hi. rewrite slice_to_vtab, slice_bound_nat.
       f_equal. lia. }
  rewrite (fmap_tab (slice_from (Z.of_nat nq)) (s - 1 - nq) (s - 1) (s - 1 - nq) _
             (fun i j => f (nq + i)%nat (nq + j)%nat)).
  2: { intros i Hi. rewrite slice_from_vtab, slice_bound_nat.
       replace (Nat.min nq (s - 1)) with nq by lia. reflexivity. }
  eapply bind_step.
  { apply lift_ok. unfold tab. rewrite zip_fmap_seq by done.
    rewrite (rmapM_ok _ (fun '(x, z) =>
               Paulis ((fun j => gates.Gate (pauli_letter (x !!! j) (z !!! j)) j)
                         <$> seq 0 nq))).
    - rewrite <- list_fmap_compose. reflexivity.
    - intros [x z] Hin.
      apply list_elem_of_fmap in Hin as (k & [= -> ->] & Hk).
      apply elem_of_seq in Hk.
      rewrite decode_row_tab; [|lia|].
      + cbn [rbind]. do 2 f_equal. apply list_fmap_ext. intros i j Hj.
        apply lookup_seq in Hj as [-> Hj].
        rewrite !vtab_total by lia. reflexivity.
      + intros j Hj. split; apply Hf; lia. }
  unfold ret. do 3 f_equal.
  - apply list_fmap_ext. intros i k Hk. apply lookup_seq in Hk as [-> Hk].
    simpl. f_equal. unfold decoded_paulis. apply list_fmap_ext.
    intros i' j Hj. apply lookup_seq in Hj as [-> Hj].
    rewrite !vtab_total by lia. reflexivity.
  - unfold decoded_phases, vtab. now rewrite <- list_fmap_compose.
Qed.

End Decoder.

Lemma nqubits_odd n : CliffordOperations.nqubits (2 * n + 1) = n.
Proof.
  unfold CliffordOperations.nqubits.
  replace (Z.of_nat (2 * n + 1) - 1) with (Z.of_nat n * 2) by lia.
  rewrite Z.quot_mul by lia. apply Nat2Z.id.
Qed.

Lemma nqubits_div s : CliffordOperations.nqubits s = ((s - 1) / 2)%nat.
Proof.
  unfold CliffordOperations.nqubits. destruct s as [|s]; [reflexivity|].
  rewrite Z.quot_div_nonneg by lia.
  replace (Z.of_nat (Datatypes.S s) - 1) with (Z.of_nat s) by lia.
  replace (Datatypes.S s - 1)%nat with s by lia.
  rewrite <- (Nat2Z.id (s / 2)). f_equal. now rewrite Nat2Z.inj_div.
Qed.

(** C6 (as the code has it). On a tableau the decoder returns one phase and
    one Pauli string per stabilizer row and leaves the world as it was.
    The phase of row [n + k] is [i^r] for its phase bit [r].  The letter at
    qubit [j] is looked up under the two-digit key made of the Z bit
    followed by the X bit: with keys read as [zx], 00 is I, 01 is X, 10 is
    Z and 11 is Y (so [x = 1, z = 0] gives X). *)
Theorem decoder_reads_key_z_then_x n T l w :
  heap w !! l = Some T -> tableau_of n T ->
  exists gens phases,
    tableau_to_generators l false w = Ok ((gens, phases), w) /\
    length gens = n /\ length phases = n /\
    forall k, (k < n)%nat ->
      bit (ent T (n + k) (2 * n)) /\
      phases !! k = Some (ipow (ent T (n + k) (2 * n))) /\
      exists ps,
        gens !! k = Some (Paulis ps) /\ length ps = n /\
        forall j, (j < n)%nat ->
          exists g,
            ps !! j = Some (gates.Gate g j) /\
            letter_zx (ent T (n + k) j) (ent T (n + k) (n + j)) = Some g.
Proof.
  intros Hl HT. pose proof (tableau_bits n T HT) as Hbits.
  destruct HT as [Hsh _]. pose proof (shape_tab _ _ _ Hsh) as HTab.
  rewrite HTab in Hl.
  pose proof (decoder_run (2 * n + 1) (ent T) l w Hl Hbits ltac:(lia)) as Hrun.
  cbv zeta in Hrun. rewrite nqubits_odd in Hrun.
  replace (2 * n + 1 - 1 - n)%nat with n in Hrun by lia.
  eexists _, _. split; [exact Hrun|].
  split; [now rewrite length_fmap, length_seq|].
  split. { unfold decoded_phases. rewrite length_fmap, length_seq. lia. }
  intros k Hk. split; [apply Hbits; lia|]. split.
  - unfold decoded_phases. rewrite list_lookup_fmap, lookup_seq_lt by lia.
    simpl. do 3 f_equal. lia.
  - exists (decoded_paulis (ent T) n k). split.
    + rewrite list_lookup_fmap, lookup_seq_lt by lia. reflexivity.
    + unfold decoded_paulis. split; [now rewrite length_fmap, length_seq|].
      intros j Hj. eexists. split.
      * rewrite list_lookup_fmap, lookup_seq_lt by lia. reflexivity.
      * apply letter_zx_bits; apply Hbits; lia.
Qed.

(** C9 (as the code has it). Neither the qubit-count derivation nor the
    decoder checks the side length.  For every side [s >= 1] the count is
    [(s - 1) / 2] rounded down, so an even side [2n + 2] silently gives [n];
    on a square binary array of side [s] the decoder returns normally, with
    [s - 1 - nqubits s] phases and generators of [nqubits s] letters each. *)
Theorem side_length_is_never_rejected s T l w :
  heap w !! l = Some T -> shape s s T -> binary T -> (0 < s)%nat ->
  CliffordOperations.nqubits s = ((s - 1) / 2)%nat /\
  exists gens phases,
    tableau_to_generators l false w = Ok ((gens, phases), w) /\
    length gens = (s - 1 - CliffordOperations.nqubits s)%nat /\
    length phases = (s - 1 - CliffordOperations.nqubits s)%nat /\
    forall g, g ∈ gens ->
      exists ps, g = Paulis ps /\ length ps = CliffordOperations.nqubits s.
Proof.
  intros Hl Hsh Hbin Hs. split; [apply nqubits_div|].
  assert (Hbits : bits s (ent T)).
  { intros i j Hi Hj. now apply (binary_ent s s T). }
  pose proof (shape_tab _ _ _ Hsh) as HTab. rewrite HTab in Hl.
  pose proof (decoder_run s (ent T) l w Hl Hbits Hs) as Hrun. cbv zeta in Hrun.
  eexists _, _. split; [exact Hrun|].
  split; [now rewrite length_fmap, length_seq|].
  split. { unfold decoded_phases. now rewrite length_fmap, length_seq. }
  intros g Hg. apply list_elem_of_fmap in Hg as (k & -> & _).
  eexists. split; [reflexivity|].
  unfold decoded_paulis. now rewrite length_fmap, length_seq.
Qed.

(** ** The statements on concrete inputs *)

Ltac concrete_shape :=
  split;
  [ reflexivity
  | let i := fresh "i" in let Hi := fresh "Hi" in
    intros i Hi;
    do 6 (try (destruct i as [|i]; [reflexivity|])); cbn in Hi; lia ].

Ltac concrete_binary :=
  let i := fresh "i" in let j := fresh "j" in
  let Hi := fresh "Hi" in let Hj := fresh "Hj" in
  intros i j Hi Hj;
  do 6 (try (destruct i as [|i];
             [ do 6 (try (destruct j as [|j]; [vm_compute; auto|]));
               vm_compute in Hj; lia |]));
  vm_compute in Hi; lia.

Ltac concrete_tableau := split; [concrete_shape | concrete_binary].

Ltac concrete_qubit := unfold valid_qubit; lia.

(** The concrete tableaux are the ones the gates prepare. *)
Example plus_state_prepared :
  heap <$> final (CliffordOperations.H 0%nat 0 1 (demo_world (zero_state 1)))
  = Some [zero_state 1; plus_state].
Proof. vm_compute. reflexivity. Qed.

Example bell_pair_prepared :
  heap <$> final ((run a <- CliffordOperations.H 0%nat 0 2 ;
                   CliffordOperations.CNOT a 0 1 2) (demo_world (zero_state 2)))
  = Some [zero_state 2; plus_zero_state; bell_pair].
Proof. vm_compute. reflexivity. Qed.

Example phased_pair_prepared :
  heap <$> final (CliffordOperations.S 0%nat 0 2 (demo_world bell_pair))
  = Some [bell_pair; phased_pair].
Proof. vm_compute. reflexivity. Qed.

(** Measuring both qubits of the Bell pair gives equal bits, whatever the
    first draw is. *)
Example bell_pair_outcomes_agree :
  returned (CliffordOperations.M bool_ 0%nat [0; 1] 2 true
              (World [bell_pair] (fun _ => false) 0)) = Some [0; 0] /\
  returned (CliffordOperations.M bool_ 0%nat [0; 1] 2 true
              (World [bell_pair] (fun _ => true) 0)) = Some [1; 1].
Proof. split; vm_compute; reflexivity. Qed.

(** The phase-gate update applied four times gives the tableau back. *)
Example S_four_times_plus_state :
  heap <$> final ((run a <- CliffordOperations.S 0%nat 0 1 ;
                   run b <- CliffordOperations.S a 0 1 ;
                   run c <- CliffordOperations.S b 0 1 ;
                   CliffordOperations.S c 0 1) (demo_world plus_state))
  = Some [plus_state; [[0; 1; 0]; [1; 1; 0]; [0; 0; 0]];
          [[0; 1; 0]; [1; 0; 1]; [0; 0; 0]];
          [[0; 1; 0]; [1; 1; 1]; [0; 0; 0]]; plus_state].
Proof. vm_compute. reflexivity. Qed.

(** C1, counterexample: measuring qubit 0 of the one-qubit zero state hands
    back the list [0] and nothing else; no pair is returned. *)
Lemma M_returns_a_list_not_a_pair :
  returned (M_returns bool_ 0%nat [0] 1 true (demo_world (zero_state 1)))
    = Some (VIntList [0]) /\
  forall a b,
    returned (M_returns bool_ 0%nat [0] 1 true (demo_world (zero_state 1)))
      <> Some (VPair a b).
Proof. split; [vm_compute; reflexivity | intros a b; vm_compute; discriminate]. Qed.

(** C2, on a failing input: [phased_pair] is the two-qubit tableau of the
    Bell pair after [S] on qubit 0, whose row 2 holds a Y at qubit 0.  Held
    as a boolean array, [rowsum] of its rows [h = 1] and [i = 2] raises
    [TypeError], where the claim has it return row 1 multiplied by row 2;
    this is the call [M] makes when it measures qubit 1, and [M] fails with
    it.  Held as integers, the same call returns the product row. *)
Theorem rowsum_fails_on_boolean_Y :
  tableau_of 2 phased_pair /\
  holds_y (ent phased_pair) 2 2 = true /\
  raises (CliffordOperations.rowsum bool_ 0%nat 1 2 2 false
            (demo_world phased_pair)) TypeError /\
  raises (CliffordOperations.M bool_ 0%nat [1] 2 false
            (demo_world phased_pair)) TypeError /\
  heap <$> final (CliffordOperations.rowsum int64 0%nat 1 2 2 false
                    (demo_world phased_pair))
  = Some [phased_pair;
          [[0; 0; 1; 0; 0]; [1; 0; 1; 0; 0]; [1; 1; 1; 0; 0]; [0; 0; 1; 1; 0];
           [0; 0; 0; 0; 0]]] /\
  heap <$> final (CliffordOperations.rowsum uint8 0%nat 1 2 2 false
                    (demo_world phased_pair))
  = heap <$> final (CliffordOperations.rowsum int64 0%nat 1 2 2 false
                      (demo_world phased_pair)).
Proof.
  split; [concrete_tableau|]. repeat split; vm_compute; reflexivity.
Qed.

(** C6, counterexample: the stabilizer row of the one-qubit state prepared
    by [H] has [x = 1, z = 0]; the decoder returns the letter X for it,
    where the table read on the pair [(x, z)] gives Z. *)
Lemma decoder_key_is_not_x_then_z :
  returned (tableau_to_generators 0%nat false (demo_world plus_state))
    = Some ([Paulis [gates.Gate gates.X 0]], [(1, 0)]) /\
  ent plus_state 1 0 = 1 /\ ent plus_state 1 1 = 0 /\
  letter_xz (ent plus_state 1 0) (ent plus_state 1 1) = Some gates.Z.
Proof. repeat split; vm_compute; reflexivity. Qed.

(** C7, on a failing input: for the two-qubit state prepared by [H] on
    qubit 0 the first stabilizer generator decodes to the letters X, I, but
    the dense array returned for it is not the Kronecker product of the
    matrices of X and I. *)
Theorem dense_generator_is_not_kronecker :
  returned (tableau_to_generators 0%nat false (demo_world plus_zero_state))
    = Some ([Paulis [gates.Gate gates.X 0; gates.Gate gates.I 1];
             Paulis [gates.Gate gates.I 0; gates.Gate gates.Z 1]],
            [(1, 0); (1, 0)]) /\
  returned (tableau_to_generators 0%nat true (demo_world plus_zero_state))
    = Some ([Dense [[(0, 0); (0, 0); (0, 0); (0, 0)];
                    [(1, 0); (0, 0); (0, 0); (1, 0)];
                    [(1, 0); (0, 0); (0, 0); (1, 0)];
                    [(0, 0); (0, 0); (0, 0); (0, 0)]];
             Dense [[(1, 0); (0, 0); (0, 0); (-1, 0)];
                    [(0, 0); (0, 0); (0, 0); (0, 0)];
                    [(0, 0); (0, 0); (0, 0); (0, 0)];
                    [(1, 0); (0, 0); (0, 0); (-1, 0)]]],
            [(1, 0); (1, 0)]) /\
  kron_all [gates.Gate gates.X 0; gates.Gate gates.I 1]
    = Some [[(0, 0); (0, 0); (1, 0); (0, 0)];
            [(0, 0); (0, 0); (0, 0); (1, 0)];
            [(1, 0); (0, 0); (0, 0); (0, 0)];
            [(0, 0); (1, 0); (0, 0); (0, 0)]].
Proof. repeat split; vm_compute; reflexivity. Qed.

(** C8, counterexample: [H] with index -1 on the one-qubit zero state does
    not fail; it returns a new array in which the X column and the phase
    column have been exchanged. *)
Lemma H_accepts_index_minus_one :
  returned (CliffordOperations.H 0%nat (-1) 1 (demo_world (zero_state 1)))
    = Some 1%nat /\
  heap <$> final (CliffordOperations.H 0%nat (-1) 1 (demo_world (zero_state 1)))
    = Some [zero_state 1; [[0; 0; 1]; [0; 1; 0]; [0; 0; 0]]] /\
  ~ valid_qubit 1 (-1).
Proof.
  split; [vm_compute; reflexivity|]. split; [vm_compute; reflexivity|].
  unfold valid_qubit. lia.
Qed.

(** C9, counterexample: a binary array of side 4 is not rejected; the
    derived qubit count is 1 and the decoder returns two generators. *)
Lemma even_side_is_decoded :
  CliffordOperations.nqubits 4 = 1%nat /\
  returned (tableau_to_generators 0%nat false (demo_world even_side))
    = Some ([Paulis [gates.Gate gates.I 0]; Paulis [gates.Gate gates.X 0]],
            [(0, 1); (1, 0)]) /\
  (forall n, 4%nat <> (2 * n + 1)%nat).
Proof.
  split; [vm_compute; reflexivity|]. split; [vm_compute; reflexivity|]. lia.
Qed.

(** Witnesses: the theorems applied to concrete tableaux. *)

Lemma H_twice_witness :
  exists l1 w1 l2 w2,
    CliffordOperations.H 0%nat 0 1 (demo_world (zero_state 1)) = Ok (l1, w1) /\
    CliffordOperations.H l1 0 1 w1 = Ok (l2, w2) /\
    heap w2 !! l2 = Some (zero_state 1) /\
    heap w2 !! 0%nat = Some (zero_state 1).
Proof.
  apply (H_twice_is_identity 1 (zero_state 1) 0 0%nat (demo_world (zero_state 1)));
    [reflexivity | concrete_tableau | unfold valid_qubit; lia].
Defined.

Lemma CNOT_twice_witness :
  exists l1 w1 l2 w2,
    CliffordOperations.CNOT 0%nat 0 1 2 (demo_world bell_pair) = Ok (l1, w1) /\
    CliffordOperations.CNOT l1 0 1 2 w1 = Ok (l2, w2) /\
    heap w2 !! l2 = Some bell_pair /\ heap w2 !! 0%nat = Some bell_pair.
Proof.
  apply (CNOT_twice_is_identity 2 bell_pair 0 1 0%nat (demo_world bell_pair));
    [reflexivity | concrete_tableau | unfold valid_qubit; lia
    | unfold valid_qubit; lia | lia].
Defined.

Lemma M_zero_state_witness :
  exists w',
    CliffordOperations.M bool_ 0%nat [0] 1 true (demo_world (zero_state 1))
      = Ok ([0], w') /\
    heap w' !! 0%nat = Some (zero_state 1).
Proof.
  apply (M_zero_state_outcome bool_ 1 0 true 0%nat (demo_world (zero_state 1)));
    [reflexivity | concrete_qubit].
Defined.

Lemma M_sample_witness :
  exists sample w',
    M_returns bool_ 0%nat [0; 1] 2 true (demo_world bell_pair)
      = Ok (VIntList sample, w') /\
    length sample = 2%nat /\ Forall bit sample /\
    outcomes bool_ 2 0%nat (demo_world bell_pair) [0; 1] sample.
Proof.
  destruct (M_returns_sample_only bool_ 2 bell_pair [0; 1] true 0%nat
              (demo_world bell_pair)) as [Hok|[_ Hr]];
    [reflexivity | concrete_tableau | repeat constructor; concrete_qubit
    | exact Hok |].
  vm_compute in Hr. discriminate.
Defined.

Lemma M_collapse_witness :
  exists sample w' T',
    CliffordOperations.M bool_ 0%nat [1] 2 true (demo_world bell_pair)
      = Ok (sample, w') /\
    heap w' !! 0%nat = Some T' /\ take 4 T' = take 4 bell_pair.
Proof.
  apply (M_collapse_keeps_generator_rows bool_ 2 bell_pair 1 0%nat
           (demo_world bell_pair));
    [reflexivity | concrete_tableau | concrete_qubit |].
  intros (p & [Hp1 Hp2] & Hiff).
  destruct (Hiff 1%nat ltac:(lia)) as [Hto _].
  assert (1%nat = p) by (apply Hto; vm_compute; discriminate). lia.
Defined.

Lemma decoder_witness :
  exists gens phases,
    tableau_to_generators 0%nat false (demo_world plus_state)
      = Ok ((gens, phases), demo_world plus_state) /\
    length gens = 1%nat /\ length phases = 1%nat.
Proof.
  destruct (decoder_reads_key_z_then_x 1 plus_state 0%nat (demo_world plus_state))
    as (gens & phases & Hrun & Hg & Hp & _);
    [reflexivity | concrete_tableau |].
  now exists gens, phases.
Defined.

Lemma index_errors_witness :
  raises (CliffordOperations.H 0%nat 1 1 (demo_world (zero_state 1))) IndexError /\
  raises (CliffordOperations.S 0%nat (-2) 1 (demo_world (zero_state 1))) IndexError.
Proof.
  destruct (index_errors_and_wraps 1 (zero_state 1) 0%nat (demo_world (zero_state 1)))
    as [Hout _]; [reflexivity | concrete_tableau |].
  split.
  - apply (Hout 1). unfold out_of_range. lia.
  - apply (Hout (-2)). unfold out_of_range. lia.
Defined.

Lemma side_length_witness :
  CliffordOperations.nqubits 4 = (3 / 2)%nat /\
  exists gens phases,
    tableau_to_generators 0%nat false (demo_world even_side)
      = Ok ((gens, phases), demo_world even_side) /\
    length gens = (4 - 1 - CliffordOperations.nqubits 4)%nat.
Proof.
  destruct (side_length_is_never_rejected 4 even_side 0%nat (demo_world even_side))
    as (Hn & gens & phases & Hrun & Hg & _);
    [reflexivity | concrete_shape | concrete_binary | lia |].
  split; [exact Hn|]. now exists gens, phases.
Defined.

(** * Further properties of the engine *)

(** ** The phase gate *)

Section PhaseGate.

Import CliffordOperations.

Variable n : nat.
Let m := (2 * n + 1)%nat.

Lemma S_run w l f q :
  heap w !! l = Some (tab m m f) -> valid_qubit n q ->
  S l q n w
  = Ok (length (heap w),
        World (heap w ++ [tab m m (S_ent n (Z.to_nat q) f)]) (tape w) (pos w)).
Proof.
  intros Hl [Hq0 Hqn]. unfold S.
  assert (Hm : (0 < m)%nat) by (unfold m; lia).
  assert (Hlast : norm_index m (-1) = Ok (2 * n)%nat).
  { rewrite norm_index_last by done. f_equal. unfold m. lia. }
  assert (Hstop : slice_bound m (-1) = (2 * n + 0)%nat).
  { rewrite slice_bound_m1. unfold m. lia. }
  eapply bind_step; [apply np_copy_ok, Hl|].
  eapply bind_step; [apply get_r_tab, lookup_old, Hl|].
  do 2 (eapply bind_step;
    [ eapply bind_step;
        [first [apply get_x_tab | apply get_z_tab]; apply lookup_old, Hl|];
      apply lift_ok, column_tab; [lia|]; apply norm_index_in; lia |]).
  eapply bind_step; [apply lift_ok, ew_vtab|].
  eapply bind_step; [apply lift_ok, ew_vtab|].
  eapply bind_step.
  { apply modify_end. apply set_column_to_tab; [done|exact Hlast|exact Hstop]. }
  do 2 (eapply bind_step;
    [ eapply bind_step;
        [first [apply get_z_tab | apply get_x_tab]; apply lookup_old, Hl|];
      apply lift_ok, column_tab; [lia|]; apply norm_index_in; lia |]).
  eapply bind_step; [apply lift_ok, ew_vtab|].
  eapply bind_step.
  { apply modify_end. apply set_column_to_tab; [done| |exact Hstop].
    apply norm_index_in. unfold m. lia. }
  unfold ret. apply (f_equal (fun T => Ok (_, World (_ ++ [T]) _ _))).
  apply tab_ext. intros i j Hi Hj. unfold S_ent. cbv beta.
  replace (Z.to_nat (Z.of_nat n + q)) with (n + Z.to_nat q)%nat by lia.
  rewrite !Nat.add_0_r. reflexivity.
Qed.

End PhaseGate.

Lemma lxor_abab r a b :
  Z.lxor (Z.lxor (Z.lxor (Z.lxor r a) b) a) b = r.
Proof.
  apply Z.bits_inj'. intros k Hk. rewrite !Z.lxor_spec.
  now destruct (Z.testbit r k), (Z.testbit a k), (Z.testbit b k).
Qed.

Lemma S_ent_four n Q f i j :
  (Q < n)%nat -> S_ent n Q (S_ent n Q (S_ent n Q (S_ent n Q f))) i j = f i j.
Proof.
  intros HQ. unfold S_ent. nat_cases; cbn [andb]; subst; try reflexivity.
  - now rewrite !(lxor_cancel _ (f i Q) (f i Q)).
  - rewrite !(lxor_cancel _ (f i Q) (f i Q)) by reflexivity.
    apply lxor_abab.
Qed.

Lemma S_ent_two n Q f i j :
  (Q < n)%nat -> (i < 2 * n + 1)%nat -> (j < 2 * n + 1)%nat ->
  bit (f i Q) -> bit (f i (n + Q)%nat) ->
  S_ent n Q (S_ent n Q f) i j
  = if ((i <? 2 * n) && (j =? 2 * n))%nat
    then Z.lxor (f i (2 * n)%nat) (f i Q) else f i j.
Proof.
  intros HQ Hi Hj Hx Hz. unfold S_ent. nat_cases; cbn [andb]; subst; try reflexivity.
  - now rewrite (lxor_cancel _ (f i Q) (f i Q)).
  - rewrite Z.lxor_assoc. f_equal.
    destruct Hx as [-> | ->], Hz as [-> | ->]; reflexivity.
Qed.

Lemma bits_H_ent n Q f :
  (Q < n)%nat -> bits (2 * n + 1) f -> bits (2 * n + 1) (H_ent n Q f).
Proof.
  intros HQ Hf i j Hi Hj. unfold H_ent, H_ent_at.
  assert (Hmul : bit (f i Q * f i (n + Q)%nat)).
  { destruct (Hf i Q Hi ltac:(lia)) as [-> | ->],
             (Hf i (n + Q)%nat Hi ltac:(lia)) as [-> | ->]; vm_compute; auto. }
  nat_cases; cbn [andb]; try (apply bit_lxor; [apply Hf; lia|exact Hmul]);
    apply Hf; lia.
Qed.

Lemma bits_S_ent n Q f :
  (Q < n)%nat -> bits (2 * n + 1) f -> bits (2 * n + 1) (S_ent n Q f).
Proof.
  intros HQ Hf i j Hi Hj. unfold S_ent.
  assert (Hmul : bit (f i Q * f i (n + Q)%nat)).
  { destruct (Hf i Q Hi ltac:(lia)) as [-> | ->],
             (Hf i (n + Q)%nat Hi ltac:(lia)) as [-> | ->]; vm_compute; auto. }
  nat_cases; cbn [andb];
    try (apply bit_lxor; first [exact Hmul | apply Hf; lia]);
    apply Hf; lia.
Qed.

Lemma bits_CNOT_ent n c t f :
  (c < n)%nat -> (t < n)%nat -> bits (2 * n + 1) f ->
  bits (2 * n + 1) (CNOT_ent n c t f).
Proof.
  intros Hc Ht Hf i j Hi Hj. unfold CNOT_ent.
  assert (Hmul : bit (f i c * f i (n + t)%nat
                      * Z.lxor (Z.lxor (f i t) (f i (n + c)%nat)) 1)).
  { destruct (Hf i c Hi ltac:(lia)) as [-> | ->],
             (Hf i (n + t)%nat Hi ltac:(lia)) as [-> | ->],
             (Hf i t Hi ltac:(lia)) as [-> | ->],
             (Hf i (n + c)%nat Hi ltac:(lia)) as [-> | ->]; vm_compute; auto. }
  nat_cases; cbn [andb];
    repeat (apply bit_lxor); first [exact Hmul | apply Hf; lia].
Qed.

Lemma tab_tableau n g :
  bits (2 * n + 1) g -> tableau_of n (tab (2 * n + 1) (2 * n + 1) g).
Proof. intros Hg. split; [apply tab_shape | now apply tab_binary]. Qed.

(** X1. Four applications of the phase-gate update to the same qubit of a
    tableau give back an array equal to the original one; the arrays passed
    in are never written to. *)
Theorem S_four_times_is_identity n T q l w :
  heap w !! l = Some T -> tableau_of n T -> valid_qubit n q ->
  exists l' w',
    (run a <- CliffordOperations.S l q n ;
     run b <- CliffordOperations.S a q n ;
     run c <- CliffordOperations.S b q n ;
     CliffordOperations.S c q n) w = Ok (l', w') /\
    heap w' !! l' = Some T /\ heap w' !! l = Some T.
Proof.
  intros Hl [Hsh _] Hq. pose proof Hq as [Hq0 Hqn].
  rewrite (shape_tab _ _ _ Hsh) in Hl |- *.
  eexists _, _. split.
  - eapply bind_step; [apply (S_run n); [exact Hl|done]|].
    eapply bind_step; [apply (S_run n); [apply lookup_end|done]|].
    eapply bind_step; [apply (S_run n); [apply lookup_end|done]|].
    apply (S_run n); [apply lookup_end|done].
  - cbn [heap]. split.
    + rewrite lookup_end. f_equal. apply tab_ext. intros i j Hi Hj.
      apply S_ent_four. lia.
    + now do 4 apply lookup_old.
Qed.

(** X2. Two applications of the phase-gate update act as the Pauli Z gate:
    the X and Z components and the scratch row are unchanged, and the phase
    bit of every generator row is XORed with the row's X bit at the qubit. *)
Theorem S_twice_flips_phase_by_x n T q l w :
  heap w !! l = Some T -> tableau_of n T -> valid_qubit n q ->
  exists l' w' T',
    (run a <- CliffordOperations.S l q n ; CliffordOperations.S a q n) w
      = Ok (l', w') /\
    heap w' !! l' = Some T' /\ shape (2 * n + 1) (2 * n + 1) T' /\
    forall i j, (i < 2 * n + 1)%nat -> (j < 2 * n + 1)%nat ->
      ent T' i j
      = if ((i <? 2 * n) && (j =? 2 * n))%nat
        then Z.lxor (ent T i (2 * n)) (ent T i (Z.to_nat q))
        else ent T i j.
Proof.
  intros Hl HT Hq. pose proof Hq as [Hq0 Hqn].
  pose proof (tableau_bits n T HT) as Hbits. destruct HT as [Hsh _].
  rewrite (shape_tab _ _ _ Hsh) in Hl.
  eexists _, _, _. split; [|split; [|split]].
  - eapply bind_step; [apply (S_run n); [exact Hl|done]|].
    apply (S_run n); [apply lookup_end|done].
  - cbn [heap]. apply lookup_end.
  - apply tab_shape.
  - intros i j Hi Hj. rewrite tab_ent by done.
    apply S_ent_two; [lia | done | done | apply Hbits; lia | apply Hbits; lia].
Qed.

(** X3. On a tableau and qubits in range each gate succeeds, allocates
    exactly one new array, which is again a tableau of the same size, and
    leaves every existing array as it was. *)
Theorem gates_return_fresh_tableau n T q c t l w :
  heap w !! l = Some T -> tableau_of n T ->
  valid_qubit n q -> valid_qubit n c -> valid_qubit n t ->
  (exists T', CliffordOperations.H l q n w
              = Ok (length (heap w), World (heap w ++ [T']) (tape w) (pos w))
              /\ tableau_of n T') /\
  (exists T', CliffordOperations.S l q n w
              = Ok (length (heap w), World (heap w ++ [T']) (tape w) (pos w))
              /\ tableau_of n T') /\
  (exists T', CliffordOperations.CNOT l c t n w
              = Ok (length (heap w), World (heap w ++ [T']) (tape w) (pos w))
              /\ tableau_of n T').
Proof.
  intros Hl HT Hq Hc Ht.
  pose proof Hq as [Hq0 Hqn]. pose proof Hc as [Hc0 Hcn].
  pose proof Ht as [Ht0 Htn].
  pose proof (tableau_bits n T HT) as Hbits. destruct HT as [Hsh _].
  rewrite (shape_tab _ _ _ Hsh) in Hl.
  split; [|split].
  - eexists. split; [apply (H_run n); [exact Hl|done]|].
    apply tab_tableau, bits_H_ent; [lia|done].
  - eexists. split; [apply (S_run n); [exact Hl|done]|].
    apply tab_tableau, bits_S_ent; [lia|done].
  - eexists. split; [apply (CNOT_run n); [exact Hl|done|done]|].
    apply tab_tableau, bits_CNOT_ent; [lia|lia|done].
Qed.

(** ** Commutation relations between rows *)

Section Commutation.

Lemma xsum_ext (F G : nat -> Z) (l : list nat) :
  (forall j, j ∈ l -> F j = G j) ->
  foldr Z.lxor 0 (F <$> l) = foldr Z.lxor 0 (G <$> l).
Proof.
  intros HFG. f_equal. apply list_fmap_ext. intros i j Hj. apply HFG.
  eapply list_elem_of_lookup_2, Hj.
Qed.

Lemma xsum_split (F : nat -> Z) (l : list nat) q :
  NoDup l -> q ∈ l ->
  foldr Z.lxor 0 (F <$> l)
  = Z.lxor (F q)
      (foldr Z.lxor 0 ((fun j => if (j =? q)%nat then 0 else F j) <$> l)).
Proof.
  induction l as [|a l IH]; intros Hnd Hq; [inversion Hq|].
  apply NoDup_cons in Hnd as [Ha Hnd]. rewrite !fmap_cons. cbn [foldr].
  destruct (Nat.eqb_spec a q) as [->|Hne].
  - rewrite Z.lxor_0_l. f_equal. apply xsum_ext. intros j Hj.
    destruct (Nat.eqb_spec j q) as [->|]; [contradiction|reflexivity].
  - apply elem_of_cons in Hq as [->|Hq]; [congruence|].
    rewrite (IH Hnd Hq). rewrite <- !Z.lxor_assoc. f_equal. apply Z.lxor_comm.
Qed.

Lemma symp_H_ent n Q f a b :
  (Q < n)%nat -> (a < 2 * n)%nat -> (b < 2 * n)%nat ->
  symp (H_ent n Q f) n a b = symp f n a b.
Proof.
  intros HQ Ha Hb. unfold symp. apply xsum_ext. intros j Hj.
  apply elem_of_seq in Hj. unfold comm_term, H_ent, H_ent_at.
  nat_cases; cbn [andb]; subst; try reflexivity. apply Z.lxor_comm.
Qed.

Lemma symp_S_ent n Q f a b :
  (Q < n)%nat -> (a < 2 * n)%nat -> (b < 2 * n)%nat ->
  bits (2 * n + 1) f ->
  symp (S_ent n Q f) n a b = symp f n a b.
Proof.
  intros HQ Ha Hb Hf. unfold symp. apply xsum_ext. intros j Hj.
  apply elem_of_seq in Hj. unfold comm_term, S_ent.
  nat_cases; cbn [andb]; subst; try reflexivity.
  assert (j = Q) by lia. subst j.
  destruct (Hf a Q ltac:(lia) ltac:(lia)) as [-> | ->],
           (Hf a (n + Q)%nat ltac:(lia) ltac:(lia)) as [-> | ->],
           (Hf b Q ltac:(lia) ltac:(lia)) as [-> | ->],
           (Hf b (n + Q)%nat ltac:(lia) ltac:(lia)) as [-> | ->]; reflexivity.
Qed.

Lemma symp_CNOT_ent n c t f a b :
  (c < n)%nat -> (t < n)%nat -> c <> t ->
  (a < 2 * n)%nat -> (b < 2 * n)%nat -> bits (2 * n + 1) f ->
  symp (CNOT_ent n c t f) n a b = symp f n a b.
Proof.
  intros Hc Ht Hct Ha Hb Hf. unfold symp.
  assert (Hcs : c ∈ seq 0 n) by (apply elem_of_seq; lia).
  assert (Hts : t ∈ seq 0 n) by (apply elem_of_seq; lia).
  rewrite (xsum_split (comm_term (CNOT_ent n c t f) n a b) _ c (NoDup_seq 0 n) Hcs).
  rewrite (xsum_split (comm_term f n a b) _ c (NoDup_seq 0 n) Hcs).
  rewrite (xsum_split (fun j => if (j =? c)%nat then 0
                                else comm_term (CNOT_ent n c t f) n a b j)
             _ t (NoDup_seq 0 n) Hts).
  rewrite (xsum_split (fun j => if (j =? c)%nat then 0 else comm_term f n a b j)
             _ t (NoDup_seq 0 n) Hts).
  destruct (Nat.eqb_spec t c) as [|_]; [congruence|].
  rewrite <- !Z.lxor_assoc. f_equal.
  - unfold comm_term, CNOT_ent. nat_cases; cbn [andb].
    destruct (Hf a c ltac:(lia) ltac:(lia)) as [-> | ->],
             (Hf a (n + c)%nat ltac:(lia) ltac:(lia)) as [-> | ->],
             (Hf a t ltac:(lia) ltac:(lia)) as [-> | ->],
             (Hf a (n + t)%nat ltac:(lia) ltac:(lia)) as [-> | ->],
             (Hf b c ltac:(lia) ltac:(lia)) as [-> | ->],
             (Hf b (n + c)%nat ltac:(lia) ltac:(lia)) as [-> | ->],
             (Hf b t ltac:(lia) ltac:(lia)) as [-> | ->],
             (Hf b (n + t)%nat ltac:(lia) ltac:(lia)) as [-> | ->]; reflexivity.
  - apply xsum_ext. intros j Hj. apply elem_of_seq in Hj.
    destruct (Nat.eqb_spec j t); [reflexivity|].
    destruct (Nat.eqb_spec j c); [reflexivity|].
    unfold comm_term, CNOT_ent. nat_cases; reflexivity.
Qed.

End Commutation.

(** X4. Each gate preserves the commutation relations of the generators:
    the symplectic product of any two generator rows is the same in the
    returned tableau as in the argument ([CNOT] with distinct control and
    target). *)
Theorem gates_preserve_commutation n T q c t l w :
  heap w !! l = Some T -> tableau_of n T ->
  valid_qubit n q -> valid_qubit n c -> valid_qubit n t -> c <> t ->
  keeps_commutation n T (CliffordOperations.H l q n w) /\
  keeps_commutation n T (CliffordOperations.S l q n w) /\
  keeps_commutation n T (CliffordOperations.CNOT l c t n w).
Proof.
  intros Hl HT Hq Hc Ht Hct.
  pose proof Hq as [Hq0 Hqn]. pose proof Hc as [Hc0 Hcn].
  pose proof Ht as [Ht0 Htn].
  pose proof (tableau_bits n T HT) as Hbits. destruct HT as [Hsh _].
  rewrite (shape_tab _ _ _ Hsh) in Hl.
  assert (Hsymp : forall g,
            (forall a b, (a < 2 * n)%nat -> (b < 2 * n)%nat ->
               symp g n a b = symp (ent T) n a b) ->
            forall a b, (a < 2 * n)%nat -> (b < 2 * n)%nat ->
              symplectic (tab (2 * n + 1) (2 * n + 1) g) n a b
              = symplectic T n a b).
  { intros g Hg a b Ha Hb. unfold symplectic. rewrite <- (Hg a b Ha Hb).
    unfold symp. apply xsum_ext. intros j Hj. apply elem_of_seq in Hj.
    unfold comm_term. rewrite !tab_ent by lia. reflexivity. }
  unfold keeps_commutation. split; [|split]; eexists _, _, _.
  - split; [apply (H_run n); [exact Hl|done]|].
    split; [apply lookup_end|]. apply Hsymp. intros a b Ha Hb.
    apply symp_H_ent; lia.
  - split; [apply (S_run n); [exact Hl|done]|].
    split; [apply lookup_end|]. apply Hsymp. intros a b Ha Hb.
    apply symp_S_ent; [lia|lia|lia|done].
  - split; [apply (CNOT_run n); [exact Hl|done|done]|].
    split; [apply lookup_end|]. apply Hsymp. intros a b Ha Hb.
    apply symp_CNOT_ent; [lia|lia|lia|lia|lia|done].
Qed.

(** ** The exponent and the row product *)

(** X5. What [exponent] returns depends on the dtype of its arguments.
    On bits, with [int64] scalars it is the table value: -1, 0 or 1, 0
    against the identity and against an equal pair, negated when the two
    operators are swapped.  With [uint8] scalars the difference [z2 - x2]
    wraps around, so that a first operator Y gives 255 where the table has
    -1.  With boolean scalars a first operator Y raises [TypeError], and
    the other cases give the table value.  For every dtype the function
    returns [None] exactly when its first argument is neither 0 nor 1. *)
Theorem exponent_depends_on_dtype x1 z1 x2 z2 :
  (bit x1 -> bit z1 -> bit x2 -> bit z2 ->
   exists g,
     CliffordOperations.exponent int64 x1 z1 x2 z2 = Ok (Some g) /\
     CliffordOperations.exponent int64 x2 z2 x1 z1 = Ok (Some (- g)) /\
     -1 <= g <= 1 /\
     (x2 = 0 /\ z2 = 0 \/ x1 = 0 /\ z1 = 0 \/ x1 = x2 /\ z1 = z2 -> g = 0) /\
     CliffordOperations.exponent uint8 x1 z1 x2 z2
     = Ok (Some (if (x1 =? 1) && (z1 =? 1) then g mod 2 ^ 8 else g)) /\
     CliffordOperations.exponent bool_ x1 z1 x2 z2
     = if (x1 =? 1) && (z1 =? 1) then Raise TypeError else Ok (Some g)) /\
  (forall dt,
     CliffordOperations.exponent dt x1 z1 x2 z2 = Ok None
     <-> x1 <> 0 /\ x1 <> 1).
Proof.
  split.
  - intros Hx1 Hz1 Hx2 Hz2. exists (g_table x1 z1 x2 z2).
    destruct Hx1 as [-> | ->], Hz1 as [-> | ->], Hx2 as [-> | ->],
             Hz2 as [-> | ->];
      (split; [reflexivity|]); (split; [reflexivity|]);
      (split; [cbv [g_table]; lia|]);
      (split; [intros [[? ?]|[[? ?]|[? ?]]]; cbv [g_table]; lia|]);
      split; reflexivity.
  - intros dt. unfold CliffordOperations.exponent.
    destruct (Z.eqb_spec x1 z1), (Z.eqb_spec x1 0), (Z.eqb_spec x1 1);
      try (destruct dt; cbn [scalar_sub rbind]);
      split; try discriminate; try lia; try (intros _; lia); reflexivity.
Qed.

Section RowsumTwice.

Lemma g_table_twice x1 z1 x2 z2 :
  bit x1 -> bit z1 -> bit x2 -> bit z2 ->
  g_table x1 z1 (Z.lxor x1 x2) (Z.lxor z1 z2) = - g_table x1 z1 x2 z2.
Proof. intros [-> | ->] [-> | ->] [-> | ->] [-> | ->]; reflexivity. Qed.

Lemma foldr_add_opp {A} (F G : A -> Z) (l : list A) :
  (forall a, a ∈ l -> F a = - G a) ->
  foldr Z.add 0 (F <$> l) = - foldr Z.add 0 (G <$> l).
Proof.
  induction l as [|a l IH]; intros HFG; [reflexivity|].
  rewrite !fmap_cons. cbn [foldr]. rewrite (HFG a) by left.
  rewrite IH by (intros b Hb; apply HFG; now right). lia.
Qed.

Lemma gsum_rowsum_ent n h i f :
  h <> i -> (h < 2 * n + 1)%nat -> (i < 2 * n + 1)%nat ->
  bits (2 * n + 1) f ->
  gsum (rowsum_ent n h i f) n h i = - gsum f n h i.
Proof.
  intros Hne Hh Hi Hf. unfold gsum. apply foldr_add_opp.
  intros j Hj. apply elem_of_seq in Hj. unfold rowsum_ent.
  destruct (Nat.eqb_spec i h) as [|_]; [congruence|].
  rewrite Nat.eqb_refl.
  destruct (Nat.ltb_spec j (2 * n)); [|lia].
  destruct (Nat.ltb_spec (n + j) (2 * n)); [|lia].
  apply g_table_twice; apply Hf; lia.
Qed.

Lemma phase_twice rh ri s :
  bit rh -> bit ri -> Z.even s = true ->
  (if (2 * (if (2 * rh + 2 * ri + s) mod 4 =? 0 then 0 else 1)
       + 2 * ri + - s) mod 4 =? 0 then 0 else 1) = rh.
Proof.
  intros Hrh Hri Hs. apply Z.even_spec in Hs as [k ->].
  destruct Hrh as [-> | ->], Hri as [-> | ->];
    (lazymatch goal with
     | |- context [(2 * ?x + 2 * ?y + 2 * k) mod 4 =? 0] =>
         destruct (Z.eqb_spec ((2 * x + 2 * y + 2 * k) mod 4) 0)
     end);
    (lazymatch goal with
     | |- context [?a mod 4 =? 0] => destruct (Z.eqb_spec (a mod 4) 0)
     end); try reflexivity; exfalso; Z.div_mod_to_equations; lia.
Qed.

Lemma rowsum_ent_twice n h i f i' j' :
  h <> i -> (h < 2 * n + 1)%nat -> (i < 2 * n + 1)%nat ->
  (j' < 2 * n + 1)%nat ->
  bits (2 * n + 1) f -> Z.even (gsum f n h i) = true ->
  rowsum_ent n h i (rowsum_ent n h i f) i' j' = f i' j'.
Proof.
  intros Hne Hh Hi Hj Hf Hev.
  unfold rowsum_ent at 1. destruct (Nat.eqb_spec i' h) as [->|]; [|].
  - destruct (Nat.ltb_spec j' (2 * n)).
    + unfold rowsum_ent. destruct (Nat.eqb_spec i h) as [|_]; [congruence|].
      rewrite Nat.eqb_refl. destruct (Nat.ltb_spec j' (2 * n)); [|lia].
      rewrite <- Z.lxor_assoc, Z.lxor_nilpotent. apply Z.lxor_0_l.
    + assert (j' = (2 * n)%nat) as -> by lia.
      unfold rowsum_phase at 1. rewrite gsum_rowsum_ent by done.
      unfold rowsum_ent. destruct (Nat.eqb_spec i h) as [|_]; [congruence|].
      rewrite Nat.eqb_refl. rewrite Nat.ltb_irrefl.
      unfold rowsum_phase. apply phase_twice; [apply Hf; lia..|done].
  - unfold rowsum_ent. destruct (Nat.eqb_spec i' h); [congruence|reflexivity].
Qed.

End RowsumTwice.

(** X6. [rowsum] undoes itself, when it does not fail.  For distinct
    valid rows [h] and [i] whose accumulated exponent is even (the case the
    code assumes): on an integer tableau, or on a boolean tableau whose row
    [i] holds no Y, multiplying row [i] into row [h] a second time gives
    back an array equal to the original tableau, phase bit included; on a
    boolean tableau whose row [i] holds a Y the first call already raises
    [TypeError]. *)
Theorem rowsum_twice_restores dt n T h i incl l w :
  heap w !! l = Some T -> tableau_of n T ->
  0 <= h < 2 * Z.of_nat n + Z.b2z incl ->
  0 <= i < 2 * Z.of_nat n + Z.b2z incl ->
  h <> i -> Z.even (g_sum T n (Z.to_nat h) (Z.to_nat i)) = true ->
  if y_raises dt (ent T) n (Z.to_nat i)
  then raises (CliffordOperations.rowsum dt l h i n incl w) TypeError
  else exists l' w',
    (run a <- CliffordOperations.rowsum dt l h i n incl ;
     CliffordOperations.rowsum dt a h i n incl) w = Ok (l', w') /\
    heap w' !! l' = Some T /\ heap w' !! l = Some T.
Proof.
  intros Hl HT Hh Hi Hne Hev.
  assert (Hb01 : 0 <= Z.b2z incl <= 1) by (destruct incl; simpl; lia).
  pose proof (tableau_bits n T HT) as Hbits. destruct HT as [Hsh _].
  destruct (y_raises dt (ent T) n (Z.to_nat i)) eqn:Hy.
  - rewrite (shape_tab _ _ _ Hsh) in Hl.
    apply (rowsum_type_error n dt w l (ent T)); [exact Hl|done|done| | |exact Hy];
      intros j Hj; apply Hbits; lia.
  - rewrite (shape_tab _ _ _ Hsh) in Hl |- *.
    eexists _, _. split; [|split].
    + eapply bind_step.
      { apply (rowsum_run n); [exact Hl|done|done| | |exact Hy];
          intros j Hj; apply Hbits; lia. }
      apply (rowsum_run n); [apply lookup_end|done|done| | |].
      * intros j Hj. apply bits_rowsum_ent; [done|lia..].
      * intros j Hj. apply bits_rowsum_ent; [done|lia..].
      * rewrite <- Hy. apply y_raises_ext. intros j Hj. unfold rowsum_ent.
        destruct (Nat.eqb_spec (Z.to_nat i) (Z.to_nat h)); [lia|reflexivity].
    + cbn [heap]. rewrite lookup_end. f_equal. apply tab_ext.
      intros i' j' Hi' Hj'. apply rowsum_ent_twice; [lia|lia|lia|lia|done|done].
    + cbn [heap]. now do 2 apply lookup_old.
Qed.

(** X7. [rowsum] checks its row indices against the views it reads: on a
    tableau of at least one qubit, of any dtype, a row index outside them
    raises [IndexError]; in particular the scratch row [2n] is rejected
    unless [include_scratch] is set. *)
Theorem rowsum_row_out_of_range dt n T h i (incl : bool) l w :
  heap w !! l = Some T -> tableau_of n T -> (0 < n)%nat ->
  out_of_range (2 * n + (if incl then 1 else 0))%nat h \/
  out_of_range (2 * n + (if incl then 1 else 0))%nat i ->
  raises (CliffordOperations.rowsum dt l h i n incl w) IndexError.
Proof.
  intros Hl [Hsh _] Hn Hout. rewrite (shape_tab _ _ _ Hsh) in Hl.
  unfold raises, CliffordOperations.rowsum.
  eapply bind_step; [apply np_copy_ok, Hl|].
  apply bind_raise. destruct n as [|n']; [lia|].
  unfold range. cbn [seq fmap list_fmap pmapM].
  apply bind_raise.
  eapply bind_step; [apply (get_x_tab (Datatypes.S n')), lookup_end|].
  set (k := (2 * Datatypes.S n' + (if incl then 1 else 0))%nat) in *.
  destruct (norm_index k i) as [ii|e] eqn:Hi.
  - assert (Hh : out_of_range k h).
    { destruct Hout as [|Hi']; [done|].
      unfold out_of_range in Hi'. rewrite norm_index_out in Hi by exact Hi'.
      discriminate. }
    eapply bind_step.
    { apply lift_ok. apply item_tab; [exact Hi|]. apply (norm_index_nat _ 0). lia. }
    apply bind_raise, lift_raise. unfold item. rewrite tab_nrows.
    now rewrite norm_index_out.
  - apply bind_raise, lift_raise. unfold item. rewrite tab_nrows, Hi.
    cbn [rbind]. f_equal. eapply norm_index_raise_inv, Hi.
Qed.

(** X23. What [rowsum] does on a tableau [T] of dtype [dt] and valid row
    indices [h] and [i].  When [T] is boolean and its row [i] holds a Y the
    call raises [TypeError].  In every other case it returns a fresh array
    and leaves every existing array, [T] included, as it was; the returned
    array equals [T] in every row other than [h]; in row [h] the X and the
    Z components are those of rows [i] and [h] of [T] XORed, and the phase
    bit is 0 if [2 r_h + 2 r_i + sum_j g] is 0 mod 4 and 1 otherwise, with
    [g] the four-case table of the specification. *)
Theorem rowsum_product_or_type_error dt n T h i incl l w :
  heap w !! l = Some T -> tableau_of n T ->
  0 <= h < 2 * Z.of_nat n + Z.b2z incl ->
  0 <= i < 2 * Z.of_nat n + Z.b2z incl ->
  if y_raises dt (ent T) n (Z.to_nat i)
  then raises (CliffordOperations.rowsum dt l h i n incl w) TypeError
  else
    exists T',
      CliffordOperations.rowsum dt l h i n incl w
        = Ok (length (heap w), World (heap w ++ [T']) (tape w) (pos w)) /\
      shape (2 * n + 1) (2 * n + 1) T' /\
      (forall k, k <> Z.to_nat h -> T' !! k = T !! k) /\
      (forall j, (j < n)%nat ->
         ent T' (Z.to_nat h) j
         = Z.lxor (ent T (Z.to_nat i) j) (ent T (Z.to_nat h) j)) /\
      (forall j, (j < n)%nat ->
         ent T' (Z.to_nat h) (n + j)
         = Z.lxor (ent T (Z.to_nat i) (n + j)) (ent T (Z.to_nat h) (n + j))) /\
      ent T' (Z.to_nat h) (2 * n)
      = if (2 * ent T (Z.to_nat h) (2 * n) + 2 * ent T (Z.to_nat i) (2 * n)
            + g_sum T n (Z.to_nat h) (Z.to_nat i)) mod 4 =? 0
        then 0 else 1.
Proof.
  intros Hl HT Hh Hi.
  assert (Hb01 : 0 <= Z.b2z incl <= 1) by (destruct incl; simpl; lia).
  destruct (y_raises dt (ent T) n (Z.to_nat i)) eqn:Hy.
  - pose proof (tableau_bits n T HT) as Hbits. destruct HT as [Hsh _].
    rewrite (shape_tab _ _ _ Hsh) in Hl.
    apply (rowsum_type_error n dt w l (ent T)); [exact Hl|done|done| | |exact Hy];
      intros j Hj; apply Hbits; lia.
  - now apply rowsum_product_row.
Qed.

(** ** Measuring again *)

Lemma NoDup_positions P v base : NoDup (positions P v base).
Proof.
  revert base. induction v as [|a v IH]; intros base; simpl; [constructor|].
  destruct (P a); [|apply IH]. constructor; [|apply IH].
  intros Hin. apply elem_of_positions in Hin as (k & Hk & _). lia.
Qed.

Section Remeasure.

Import CliffordOperations.

Variable n : nat.
Let m := (2 * n + 1)%nat.

Lemma bits_rand_fold p R :
  (p < 2 * n)%nat -> (forall i, i ∈ R -> (i < 2 * n)%nat) ->
  forall g, bits m g -> bits m (rand_fold n p R g).
Proof.
  intros Hp. induction R as [|i R IH]; intros HR g Hg; [exact Hg|].
  unfold rand_fold. cbn [foldl]. apply IH.
  - intros j Hj. apply HR. now right.
  - destruct (i =? p)%nat; [exact Hg|].
    apply bits_rowsum_ent; [exact Hg| |lia].
    specialize (HR i ltac:(left)). lia.
Qed.

Lemma bits_det_fold R :
  (forall i, i ∈ R -> (i < n)%nat) ->
  forall g, bits m g -> bits m (det_fold n R g).
Proof.
  induction R as [|i R IH]; intros HR g Hg; [exact Hg|].
  unfold det_fold. cbn [foldl]. apply IH.
  - intros j Hj. apply HR. now right.
  - specialize (HR i ltac:(left)). apply bits_rowsum_ent; [exact Hg|lia|lia].
Qed.

Lemma pfold_random_exact p R :
  (p < 2 * n)%nat ->
  forall c g w,
    heap w !! c = Some (tab m m g) -> bits m g ->
    (forall i, i ∈ R -> (i < 2 * n)%nat) ->
    exists c' w',
      pfold (fun sc i => if (i =? p)%nat then ret sc
                         else rowsum int64 sc (Z.of_nat i) (Z.of_nat p) n false)
            R c w = Ok (c', w') /\
      heap w' !! c' = Some (tab m m (rand_fold n p R g)) /\
      heap w `prefix_of` heap w' /\
      (c' = c \/ (length (heap w) <= c')%nat) /\
      tape w' = tape w /\ pos w' = pos w.
Proof.
  intros Hp. induction R as [|i R IH]; intros c g w Hc Hg HR.
  - exists c, w. split; [reflexivity|]. split; [exact Hc|]. split; [done|].
    split; [now left|done].
  - cbn [pfold]. unfold rand_fold. cbn [foldl].
    destruct (Nat.eqb_spec i p) as [->|Hne].
    + destruct (IH c g w Hc Hg) as (c' & w' & Hrun & Hc' & Hpre & Hor & Htp).
      { intros j Hj. apply HR. now right. }
      exists c', w'. split; [eapply bind_step; [reflexivity|exact Hrun]|done].
    + assert (Hi : (i < 2 * n)%nat) by (apply HR; left).
      pose proof (rowsum_run n int64 w c g (Z.of_nat i) (Z.of_nat p) false Hc) as Hrs.
      rewrite !Nat2Z.id in Hrs. fold m in Hrs.
      specialize (Hrs ltac:(simpl; lia) ltac:(simpl; lia)).
      specialize (Hrs ltac:(intros j Hj; apply Hg; unfold m; lia)).
      specialize (Hrs ltac:(intros j Hj; apply Hg; unfold m; lia) eq_refl).
      set (w1 := World (heap w ++ [tab m m (rowsum_ent n i p g)]) (tape w) (pos w)) in *.
      destruct (IH (length (heap w)) (rowsum_ent n i p g) w1)
        as (c' & w' & Hrun & Hc' & Hpre & Hor & Htp).
      { apply lookup_end. }
      { apply bits_rowsum_ent; [done | lia | lia]. }
      { intros j Hj. apply HR. now right. }
      exists c', w'. split; [eapply bind_step; [exact Hrs|exact Hrun]|].
      split; [exact Hc'|]. split.
      { etrans; [|exact Hpre]. unfold w1. cbn [heap]. now apply prefix_app_r. }
      split; [|exact Htp].
      right. destruct Hor as [-> | Hge]; [lia|].
      unfold w1 in Hge. cbn [heap] in Hge. rewrite length_app in Hge. lia.
Qed.

Lemma pfold_det_exact R :
  forall c g w,
    heap w !! c = Some (tab m m g) -> bits m g ->
    (forall i, i ∈ R -> (i < n)%nat) ->
    exists c' w',
      pfold (fun sc i => rowsum int64 sc (2 * Z.of_nat n) (Z.of_nat i + Z.of_nat n) n true)
            R c w = Ok (c', w') /\
      heap w' !! c' = Some (tab m m (det_fold n R g)) /\
      heap w `prefix_of` heap w' /\
      (c' = c \/ (length (heap w) <= c')%nat) /\
      tape w' = tape w /\ pos w' = pos w.
Proof.
  induction R as [|i R IH]; intros c g w Hc Hg HR.
  - exists c, w. split; [reflexivity|]. split; [exact Hc|]. split; [done|].
    split; [now left|done].
  - cbn [pfold]. unfold det_fold. cbn [foldl].
    assert (Hi : (i < n)%nat) by (apply HR; left).
    pose proof (rowsum_run n int64 w c g (2 * Z.of_nat n)
                  (Z.of_nat i + Z.of_nat n) true Hc) as Hrs.
    fold m in Hrs.
    specialize (Hrs ltac:(simpl; lia) ltac:(simpl; lia)).
    specialize (Hrs ltac:(intros j Hj; apply Hg; unfold m; lia)).
    specialize (Hrs ltac:(intros j Hj; apply Hg; unfold m; lia) eq_refl).
    replace (Z.to_nat (2 * Z.of_nat n)) with (2 * n)%nat in Hrs by lia.
    replace (Z.to_nat (Z.of_nat i + Z.of_nat n)) with (i + n)%nat in Hrs by lia.
    set (g1 := rowsum_ent n (2 * n) (i + n) g) in *.
    set (w1 := World (heap w ++ [tab m m g1]) (tape w) (pos w)) in *.
    destruct (IH (length (heap w)) g1 w1)
      as (c' & w' & Hrun & Hc' & Hpre & Hor & Htp).
    { apply lookup_end. }
    { apply bits_rowsum_ent; [done | lia | lia]. }
    { intros j Hj. apply HR. now right. }
    exists c', w'. split; [eapply bind_step; [exact Hrs|exact Hrun]|].
    split; [exact Hc'|]. split.
    { etrans; [|exact Hpre]. unfold w1. cbn [heap]. now apply prefix_app_r. }
    split; [|exact Htp].
    right. destruct Hor as [-> | Hge]; [lia|].
    unfold w1 in Hge. cbn [heap] in Hge. rewrite length_app in Hge. lia.
Qed.

End Remeasure.

Section RemeasureSteps.

Import CliffordOperations.

Variable n : nat.
Let m := (2 * n + 1)%nat.

Lemma det_rows_lt f Q :
  nonzero (vtab n (fun i => f (n + i)%nat Q)) = [] ->
  forall i, i ∈ where_eq 1 (vtab (2 * n + 0) (fun i => scratch0 n f i Q)) ->
            (i < n)%nat.
Proof.
  intros Hnil i Hi. apply positions_vtab_in in Hi as [Hi2 Heq].
  apply Z.eqb_eq in Heq. unfold scratch0 in Heq.
  destruct (Nat.eqb_spec i (2 * n)); [lia|].
  destruct (decide (i < n)%nat) as [|Hge]; [done|]. exfalso.
  assert (Hin : (i - n)%nat ∈ nonzero (vtab n (fun i => f (n + i)%nat Q))).
  { apply positions_vtab_in. split; [lia|].
    replace (n + (i - n))%nat with i by lia. rewrite Heq. reflexivity. }
  rewrite Hnil in Hin. inversion Hin.
Qed.

(** The deterministic branch, with the entries it leaves and the bit it
    reads. *)
Lemma M_step_det_exact sc q w f :
  heap w !! sc = Some (tab m m f) -> bits m f -> valid_qubit n q ->
  nonzero (vtab n (fun i => f (n + i)%nat (Z.to_nat q))) = [] ->
  let f0 := scratch0 n f in
  let R := where_eq 1 (vtab (2 * n + 0) (fun i => f0 i (Z.to_nat q))) in
  exists c' w',
    M_step int64 sc q n w = Ok ((c', det_fold n R f0 (2 * n)%nat (2 * n)%nat), w') /\
    heap w' !! c' = Some (tab m m (det_fold n R f0)) /\
    bits m (det_fold n R f0) /\
    heap (set_heap w sc (tab m m f0)) `prefix_of` heap w' /\
    (c' = sc \/ (length (heap w) <= c')%nat) /\
    tape w' = tape w /\ pos w' = pos w.
Proof.
  intros Hsc Hf Hq Hnil f0 R. pose proof Hq as [Hq0 Hqn].
  assert (Hm : (0 < m)%nat) by (unfold m; lia).
  assert (Hlast : norm_index m (-1) = Ok (2 * n)%nat).
  { rewrite norm_index_last by done. f_equal. unfold m. lia. }
  assert (Hlt : (sc < length (heap w))%nat) by (eapply lookup_lt_Some, Hsc).
  set (w1 := set_heap w sc (tab m m f0)).
  assert (Hsc1 : heap w1 !! sc = Some (tab m m f0)).
  { now apply set_heap_lookup. }
  assert (HR : forall i, i ∈ R -> (i < n)%nat) by now apply det_rows_lt.
  destruct (pfold_det_exact n R sc f0 w1 Hsc1 (bits_scratch0 n f Hf) HR)
    as (c' & w' & Hrun & Hc' & Hpre & Hor & Htp).
  exists c', w'.
  split; [|split; [done|split; [|split; [done|split; [|exact Htp]]]]].
  - unfold M_step.
    eapply bind_step; [apply M_step_plist; [exact Hsc|exact Hq]|].
    rewrite Hnil. cbn [fmap list_fmap].
    eapply bind_step.
    { unfold set_scratch. eapply modify_at; [exact Hsc|].
      apply fill_row_tab, Hlast. }
    eapply bind_step; [apply (M_step_rows n (fun a => a =? 1)); [exact Hsc1|exact Hq]|].
    eapply bind_step; [exact Hrun|].
    eapply bind_step.
    { unfold get_scratch. eapply bind_step; [apply load_ok, Hc'|].
      apply lift_ok, row_tab, Hlast. }
    eapply bind_step.
    { apply lift_ok. unfold index. rewrite vtab_length.
      rewrite norm_index_last by done. cbn [rbind].
      rewrite vtab_total by lia. reflexivity. }
    unfold ret. do 3 f_equal. f_equal. lia.
  - apply bits_det_fold; [exact HR|]. now apply bits_scratch0.
  - unfold w1 in Hor. rewrite set_heap_length in Hor. exact Hor.
Qed.

(** The random branch, with the entries it leaves. *)
Lemma M_step_rand_exact sc q w f k0 rest :
  heap w !! sc = Some (tab m m f) -> bits m f -> valid_qubit n q ->
  nonzero (vtab n (fun i => f (n + i)%nat (Z.to_nat q))) = k0 :: rest ->
  let p := (k0 + n)%nat in
  let R := nonzero (vtab (2 * n + 0) (fun i => f i (Z.to_nat q))) in
  exists c' w' o,
    M_step int64 sc q n w = Ok ((c', o), w') /\ bit o /\
    heap w' !! c'
    = Some (tab m m (collapse_ent n p (n + Z.to_nat q) o (rand_fold n p R f))) /\
    (c' = sc \/ (length (heap w) <= c')%nat) /\
    (forall hp, hp `prefix_of` heap w -> (length hp <= sc)%nat ->
                hp `prefix_of` heap w') /\
    (length (heap w) <= length (heap w'))%nat /\
    (forall l', (l' < length (heap w))%nat -> l' <> c' ->
                heap w' !! l' = heap w !! l') /\
    o = Z.b2z (tape w (pos w)) /\
    tape w' = tape w /\ pos w' = Datatypes.S (pos w).
Proof.
  intros Hsc Hf Hq Hnz p R. pose proof Hq as [Hq0 Hqn].
  assert (Hm : (0 < m)%nat) by (unfold m; lia).
  assert (Hlast : norm_index m (-1) = Ok (2 * n)%nat).
  { rewrite norm_index_last by done. f_equal. unfold m. lia. }
  assert (Hk0 : (k0 < n)%nat).
  { assert (Hin : k0 ∈ nonzero (vtab n (fun i => f (n + i)%nat (Z.to_nat q))))
      by (rewrite Hnz; left).
    now apply positions_vtab_in in Hin as [Hlt _]. }
  assert (Hp : (p < 2 * n)%nat) by (unfold p; lia).
  destruct (pfold_random_exact n p R Hp sc f w Hsc Hf)
    as (c' & w1 & Hrun & Hc' & Hpre & Hor & Htape & Hpos).
  { intros i Hi. apply positions_vtab_in in Hi as [Hi _]. lia. }
  set (g' := rand_fold n p R f) in *.
  assert (Hlt : (c' < length (heap w1))%nat) by (eapply lookup_lt_Some, Hc').
  assert (Hpm : norm_index m (Z.of_nat p) = Ok p).
  { apply norm_index_nat. unfold m. lia. }
  assert (Hpn : norm_index m (Z.of_nat p - Z.of_nat n) = Ok (p - n)%nat).
  { rewrite norm_index_in by (unfold m, p; lia). f_equal. lia. }
  assert (Hnq : norm_index m (Z.of_nat n + q) = Ok (n + Z.to_nat q)%nat).
  { rewrite norm_index_in by (unfold m; lia). f_equal. lia. }
  set (o := Z.b2z (tape w1 (pos w1))).
  set (g1 := fun i j => if (i =? p - n)%nat then g' p j else g' i j).
  set (g2 := fun i j => if (i =? p)%nat then 0 else g1 i j).
  set (g3 := fun i j => if ((i =? p) && (j =? 2 * n))%nat then o else g2 i j).
  set (w2 := set_heap w1 c' (tab m m g1)).
  set (w2' := World (heap w2) (tape w2) (Datatypes.S (pos w2))).
  set (w3 := set_heap w2' c' (tab m m g2)).
  set (w4 := set_heap w3 c' (tab m m g3)).
  set (w5 := set_heap w4 c' (tab m m (collapse_ent n p (n + Z.to_nat q) o g'))).
  assert (Hl2 : heap w2 !! c' = Some (tab m m g1)) by now apply set_heap_lookup.
  assert (Hl3 : heap w3 !! c' = Some (tab m m g2)).
  { apply set_heap_lookup. unfold w2'. cbn [heap]. unfold w2.
    now rewrite set_heap_length. }
  assert (Hl4 : heap w4 !! c' = Some (tab m m g3)).
  { apply set_heap_lookup. unfold w3. rewrite set_heap_length.
    unfold w2'. cbn [heap]. unfold w2. now rewrite set_heap_length. }
  assert (Hl5 : heap w5 !! c'
                = Some (tab m m (collapse_ent n p (n + Z.to_nat q) o g'))).
  { apply set_heap_lookup. unfold w4, w3. rewrite !set_heap_length.
    unfold w2'. cbn [heap]. unfold w2. now rewrite set_heap_length. }
  exists c', w5, o.
  split; [|split; [apply bit_b2z|split; [exact Hl5|split; [exact Hor|split;
    [|split; [|split; [|split; [|split; [exact Htape|]]]]]]]]].
  - unfold M_step.
    eapply bind_step; [apply M_step_plist; [exact Hsc|exact Hq]|].
    rewrite Hnz. cbn [fmap list_fmap]. fold p.
    eapply bind_step.
    { apply (M_step_rows n (fun a => negb (a =? 0))); [exact Hsc|exact Hq]. }
    eapply bind_step; [exact Hrun|].
    eapply bind_step.
    { eapply bind_step; [apply load_ok, Hc'|]. apply lift_ok, row_tab, Hpm. }
    eapply bind_step.
    { eapply modify_at; [exact Hc'|]. apply set_row_tab, Hpn. }
    eapply bind_step; [reflexivity|].
    eapply bind_step.
    { eapply modify_at; [exact Hl2|]. apply fill_row_tab, Hpm. }
    eapply bind_step.
    { eapply modify_at; [exact Hl3|]. apply set_item_tab; [exact Hpm|exact Hlast]. }
    eapply bind_step.
    { eapply modify_at; [exact Hl4|]. apply set_item_tab; [exact Hpm|exact Hnq]. }
    reflexivity.
  - intros hp Hhp Hlen.
    assert (Hc : (length hp <= c')%nat).
    { apply prefix_length in Hhp. destruct Hor as [-> | Hge]; lia. }
    unfold w5, w4, w3. do 3 (apply prefix_set_heap; [|exact Hc]).
    change (heap w2') with (heap w2). unfold w2.
    apply prefix_set_heap; [|exact Hc]. etrans; [exact Hhp|exact Hpre].
  - unfold w5, w4, w3. rewrite !set_heap_length.
    change (heap w2') with (heap w2). unfold w2. rewrite set_heap_length.
    now apply prefix_length.
  - intros l' Hl' Hne. unfold w5, w4, w3, set_heap. cbn [heap].
    rewrite !list_lookup_insert_ne by congruence.
    unfold w2', w2, set_heap. cbn [heap].
    rewrite list_lookup_insert_ne by congruence.
    destruct (lookup_lt_is_Some_2 (heap w) l' Hl') as [x Hx].
    rewrite Hx. eapply prefix_lookup_Some; [exact Hx|exact Hpre].
  - unfold o. now rewrite Htape, Hpos.
  - unfold w5, w4, w3, w2', w2, set_heap. cbn [pos]. now rewrite Hpos.
Qed.

(** Whatever branch is taken, a step leaves alone the arrays that were
    allocated before the one it works on. *)
Lemma M_step_frame sc q w f hp :
  heap w !! sc = Some (tab m m f) -> bits m f -> valid_qubit n q ->
  hp `prefix_of` heap w -> (length hp <= sc)%nat ->
  exists c' g' w' o,
    M_step int64 sc q n w = Ok ((c', o), w') /\
    heap w' !! c' = Some (tab m m g') /\ bits m g' /\ bit o /\
    hp `prefix_of` heap w' /\ (length hp <= c')%nat.
Proof.
  intros Hsc Hf Hq Hhp Hlen.
  pose proof (prefix_length _ _ Hhp) as Hlhp.
  destruct (nonzero (vtab n (fun i => f (n + i)%nat (Z.to_nat q))))
    as [|k0 rest] eqn:Hnz.
  - destruct (M_step_det_exact sc q w f Hsc Hf Hq Hnz)
      as (c' & w' & Hrun & Hc' & Hb & Hpre & Hor & _).
    eexists c', _, w', _. split; [exact Hrun|]. split; [exact Hc'|].
    split; [exact Hb|]. split.
    { apply Hb; unfold m; lia. }
    split.
    + etrans; [|exact Hpre]. now apply prefix_set_heap.
    + destruct Hor as [-> | Hge]; lia.
  - destruct (M_step_rand_exact sc q w f k0 rest Hsc Hf Hq Hnz)
      as (c' & w' & o & Hrun & Ho & Hc' & Hor & Hfr & _).
    assert (Hk0 : (k0 < n)%nat).
    { assert (Hin : k0 ∈ nonzero (vtab n (fun i => f (n + i)%nat (Z.to_nat q))))
        by (rewrite Hnz; left).
      now apply positions_vtab_in in Hin as [Hlt _]. }
    eexists c', _, w', o. split; [exact Hrun|]. split; [exact Hc'|].
    split.
    { apply bits_collapse_ent; [|unfold m; lia|exact Ho].
      apply bits_rand_fold; [lia| |exact Hf].
      intros i Hi. apply positions_vtab_in in Hi as [Hi _]. lia. }
    split; [exact Ho|]. split; [now apply Hfr|].
    destruct Hor as [-> | Hge]; lia.
Qed.

Lemma M_loop_frame qubits :
  forall sc w f acc hp,
    heap w !! sc = Some (tab m m f) -> bits m f ->
    Forall (valid_qubit n) qubits ->
    hp `prefix_of` heap w -> (length hp <= sc)%nat ->
    exists sc' w' os,
      M_loop int64 sc qubits n acc w = Ok ((sc', acc ++ os), w') /\
      length os = length qubits /\ Forall bit os /\
      hp `prefix_of` heap w'.
Proof.
  induction qubits as [|q qubits IH]; intros sc w f acc hp Hsc Hf Hqs Hhp Hlen.
  - exists sc, w, []. rewrite app_nil_r. repeat split; [constructor|done].
  - apply Forall_cons in Hqs as [Hq Hqs].
    destruct (M_step_frame sc q w f hp Hsc Hf Hq Hhp Hlen)
      as (c' & g' & w1 & o & Hstep & Hc' & Hg' & Ho & Hhp1 & Hlen1).
    destruct (IH c' w1 g' (acc ++ [o]) hp Hc' Hg' Hqs Hhp1 Hlen1)
      as (sc' & w' & os & Hloop & Hlenos & Hbits & Hfr).
    exists sc', w', (o :: os). split; [|split; [|split]].
    + cbn [M_loop]. eapply bind_step; [exact Hstep|]. cbv beta iota.
      rewrite Hloop. now rewrite <- app_assoc.
    + simpl. now rewrite Hlenos.
    + now constructor.
    + exact Hfr.
Qed.

End RemeasureSteps.

(** Without [collapse], on an integer tableau: the call succeeds and every
    array that existed before it is the same after it. *)
Lemma M_copy_frame n T qubits l w :
  heap w !! l = Some T -> tableau_of n T -> Forall (valid_qubit n) qubits ->
  exists sample w',
    CliffordOperations.M int64 l qubits n false w = Ok (sample, w') /\
    length sample = length qubits /\ Forall bit sample /\
    heap w `prefix_of` heap w' /\ heap w' !! l = Some T.
Proof.
  intros Hl HT Hqs. pose proof (tableau_bits n T HT) as Hbits.
  destruct HT as [Hsh _]. pose proof (shape_tab _ _ _ Hsh) as HTab.
  set (w1 := World (heap w ++ [T]) (tape w) (pos w)).
  assert (Hl1 : heap w1 !! length (heap w)
                = Some (tab (2 * n + 1) (2 * n + 1) (ent T))).
  { unfold w1. cbn [heap]. rewrite lookup_end. now f_equal. }
  destruct (M_loop_frame n qubits (length (heap w)) w1 (ent T) [] (heap w)
              Hl1 Hbits Hqs) as (sc' & w' & os & Hloop & Hlen & Hb & Hfr).
  { unfold w1. cbn [heap]. now apply prefix_app_r. }
  { lia. }
  exists os, w'. split; [|split; [done|split; [done|split; [done|]]]].
  - unfold CliffordOperations.M.
    eapply bind_step; [apply np_copy_ok, Hl|].
    eapply bind_step; [exact Hloop|]. reflexivity.
  - eapply prefix_lookup_Some; [exact Hl|exact Hfr].
Qed.

(** X8. Without [collapse], [M] works on a copy.  For any list of valid
    qubits and a tableau of dtype [dt], either the call succeeds with one
    bit per qubit, and every array that existed before the call, the
    measured tableau included, is the same after it; or the tableau is
    boolean and the call raises [TypeError]. *)
Theorem M_without_collapse_keeps_every_array dt n T qubits l w :
  heap w !! l = Some T -> tableau_of n T -> Forall (valid_qubit n) qubits ->
  (exists sample w',
     CliffordOperations.M dt l qubits n false w = Ok (sample, w') /\
     length sample = length qubits /\ Forall bit sample /\
     heap w `prefix_of` heap w' /\ heap w' !! l = Some T) \/
  (dt = bool_ /\
   raises (CliffordOperations.M dt l qubits n false w) TypeError).
Proof.
  intros Hl HT Hqs.
  destruct (M_dtype dt n T qubits false l w Hl HT
              (Forall_valid_accepted n qubits Hqs)) as [Heq|Hr];
    [left|now right].
  rewrite Heq. now apply M_copy_frame.
Qed.

Section RemeasureAlgebra.

Variable n : nat.
Let m := (2 * n + 1)%nat.

Lemma rowsum_ent_ext h i g1 g2 :
  (forall a b, g1 a b = g2 a b) ->
  forall a b, rowsum_ent n h i g1 a b = rowsum_ent n h i g2 a b.
Proof.
  intros He a b.
  assert (Hg : gsum g1 n h i = gsum g2 n h i).
  { unfold gsum. f_equal. apply list_fmap_ext. intros ? ? _. now rewrite !He. }
  unfold rowsum_ent, rowsum_phase. rewrite Hg, !He. reflexivity.
Qed.

Lemma det_fold_ext R :
  forall g1 g2, (forall a b, g1 a b = g2 a b) ->
  forall a b, det_fold n R g1 a b = det_fold n R g2 a b.
Proof.
  induction R as [|i R IH]; intros g1 g2 He a b; [apply He|].
  unfold det_fold. cbn [foldl]. apply IH. now apply rowsum_ent_ext.
Qed.

Lemma det_fold_row R :
  forall g a b, a <> (2 * n)%nat -> det_fold n R g a b = g a b.
Proof.
  induction R as [|i R IH]; intros g a b Ha; [reflexivity|].
  unfold det_fold. cbn [foldl].
  change (det_fold n R (rowsum_ent n (2 * n) (i + n) g) a b = g a b).
  rewrite IH by done. unfold rowsum_ent.
  now destruct (Nat.eqb_spec a (2 * n)).
Qed.

Lemma rand_fold_keep p R :
  forall g i j, i ∉ R \/ i = p -> rand_fold n p R g i j = g i j.
Proof.
  induction R as [|a R IH]; intros g i j Hi; [reflexivity|].
  unfold rand_fold. cbn [foldl].
  assert (Hi' : i ∉ R \/ i = p).
  { destruct Hi as [Hi|Hi]; [left|now right]. intros Hin. apply Hi. now right. }
  destruct (Nat.eqb_spec a p) as [->|Hne].
  - now apply IH.
  - change (rand_fold n p R (rowsum_ent n a p g) i j = g i j).
    rewrite IH by done. unfold rowsum_ent.
    destruct (Nat.eqb_spec i a) as [->|]; [|reflexivity].
    destruct Hi as [Hi|Hi]; [|congruence]. exfalso. apply Hi. left.
Qed.

Lemma rand_fold_hit p R :
  NoDup R ->
  forall g i j, i ∈ R -> i <> p -> (j < 2 * n)%nat ->
    rand_fold n p R g i j = Z.lxor (g p j) (g i j).
Proof.
  induction R as [|a R IH]; intros Hnd g i j Hi Hne Hj; [inversion Hi|].
  apply NoDup_cons in Hnd as [Ha Hnd].
  unfold rand_fold. cbn [foldl].
  destruct (Nat.eqb_spec a p) as [->|Hap].
  - apply elem_of_cons in Hi as [->|Hi]; [done|]. now apply IH.
  - change (rand_fold n p R (rowsum_ent n a p g) i j = Z.lxor (g p j) (g i j)).
    destruct (decide (i = a)) as [->|Hia].
    + rewrite rand_fold_keep by now left. unfold rowsum_ent.
      rewrite Nat.eqb_refl. now destruct (Nat.ltb_spec j (2 * n)); [|lia].
    + apply elem_of_cons in Hi as [->|Hi]; [done|].
      rewrite IH by done. unfold rowsum_ent.
      destruct (Nat.eqb_spec p a); [congruence|].
      now destruct (Nat.eqb_spec i a).
Qed.

(** After the random branch on qubit [Q] the X column of [Q] is set in the
    destabilizer row [p - n] only. *)
Lemma collapse_column f Q k0 rest o :
  bits m f -> (Q < n)%nat ->
  nonzero (vtab n (fun i => f (n + i)%nat Q)) = k0 :: rest ->
  let p := (k0 + n)%nat in
  let R := nonzero (vtab (2 * n + 0) (fun i => f i Q)) in
  forall i, (i < 2 * n)%nat ->
    collapse_ent n p (n + Q) o (rand_fold n p R f) i Q
    = if (i =? p - n)%nat then 1 else 0.
Proof.
  intros Hf HQ Hnz p R i Hi.
  assert (Hk0 : (k0 < n)%nat /\ f p Q = 1).
  { assert (Hin : k0 ∈ nonzero (vtab n (fun i => f (n + i)%nat Q)))
      by (rewrite Hnz; left).
    apply positions_vtab_in in Hin as [Hlt Hno]. split; [done|].
    unfold p. replace (k0 + n)%nat with (n + k0)%nat by lia.
    destruct (Hf (n + k0)%nat Q) as [H0|H1]; [unfold m; lia..| |done].
    rewrite H0 in Hno. discriminate. }
  destruct Hk0 as [Hk0 Hfp].
  assert (Hrow : forall a, (a < 2 * n)%nat -> a <> p ->
            rand_fold n p R f a Q = 0).
  { intros a Ha Hap. destruct (decide (a ∈ R)) as [Hin|Hnin].
    - rewrite (rand_fold_hit p R (NoDup_positions _ _ _) f a Q Hin Hap) by lia.
      rewrite Hfp. apply positions_vtab_in in Hin as [_ Hno].
      destruct (Hf a Q) as [H0|H1]; [unfold m; lia..| |].
      + rewrite H0 in Hno. discriminate.
      + now rewrite H1.
    - rewrite rand_fold_keep by now left.
      destruct (Z.eqb_spec (f a Q) 0) as [|Hno]; [done|]. exfalso.
      apply Hnin, positions_vtab_in. split; [lia|].
      now destruct (Z.eqb_spec (f a Q) 0). }
  unfold collapse_ent.
  destruct (Nat.eqb_spec Q (n + Q)); [lia|]. rewrite andb_false_r.
  destruct (Nat.eqb_spec Q (2 * n)); [lia|]. rewrite andb_false_r.
  destruct (Nat.eqb_spec i p) as [->|Hip].
  - destruct (Nat.eqb_spec p (p - n)); [unfold p in *; lia|reflexivity].
  - destruct (Nat.eqb_spec i (p - n)) as [->|Hipn].
    + rewrite rand_fold_keep by now right. exact Hfp.
    + now apply Hrow.
Qed.

End RemeasureAlgebra.

Section RemeasureTwice.

Import CliffordOperations.

Variable n : nat.
Let m := (2 * n + 1)%nat.

(** Two steps on the same qubit, one after the other, read the same bit:
    the second one always takes the deterministic branch. *)
Lemma M_step_twice sc q w f :
  heap w !! sc = Some (tab m m f) -> bits m f -> valid_qubit n q ->
  exists c1 w1 c2 w2 o,
    M_step int64 sc q n w = Ok ((c1, o), w1) /\
    M_step int64 c1 q n w1 = Ok ((c2, o), w2) /\ bit o.
Proof.
  intros Hsc Hf Hq. pose proof Hq as [Hq0 Hqn].
  set (Q := Z.to_nat q) in *.
  assert (HQ : (Q < n)%nat) by (unfold Q; lia).
  destruct (nonzero (vtab n (fun i => f (n + i)%nat Q))) as [|k0 rest] eqn:Hnz.
  - destruct (M_step_det_exact n sc q w f Hsc Hf Hq Hnz)
      as (c1 & w1 & Hrun1 & Hc1 & Hb1 & _ & _).
    fold Q in Hrun1, Hc1, Hb1.
    set (f0 := scratch0 n f) in *.
    set (R := where_eq 1 (vtab (2 * n + 0) (fun i => f0 i Q))) in *.
    set (g' := det_fold n R f0) in *.
    assert (Hpt : forall a b, scratch0 n g' a b = f0 a b).
    { intros a b. unfold scratch0 at 1.
      destruct (Nat.eqb_spec a (2 * n)) as [->|Hne].
      - unfold f0, scratch0. now rewrite Nat.eqb_refl.
      - unfold g'. now rewrite det_fold_row. }
    assert (Hnz' : nonzero (vtab n (fun i => g' (n + i)%nat Q)) = []).
    { rewrite (vtab_ext n _ (fun i => f (n + i)%nat Q)); [exact Hnz|].
      intros i Hi. unfold g'. rewrite det_fold_row by lia.
      unfold f0, scratch0. destruct (Nat.eqb_spec (n + i) (2 * n)); [lia|done]. }
    destruct (M_step_det_exact n c1 q w1 g' Hc1 Hb1 Hq Hnz')
      as (c2 & w2 & Hrun2 & _ & _ & _ & _).
    fold Q in Hrun2.
    assert (HR : where_eq 1 (vtab (2 * n + 0) (fun i => scratch0 n g' i Q)) = R).
    { unfold R. f_equal. apply vtab_ext. intros i _. apply Hpt. }
    rewrite HR in Hrun2.
    rewrite (det_fold_ext n R _ f0 Hpt) in Hrun2. fold g' in Hrun2.
    exists c1, w1, c2, w2, (g' (2 * n)%nat (2 * n)%nat).
    split; [exact Hrun1|]. split; [exact Hrun2|].
    apply Hb1; unfold m; lia.
  - destruct (M_step_rand_exact n sc q w f k0 rest Hsc Hf Hq Hnz)
      as (c1 & w1 & o & Hrun1 & Ho & Hc1 & _ & _).
    fold Q in Hc1.
    set (p := (k0 + n)%nat) in *.
    set (R := nonzero (vtab (2 * n + 0) (fun i => f i Q))) in *.
    set (g1 := collapse_ent n p (n + Q) o (rand_fold n p R f)) in *.
    assert (Hk0 : (k0 < n)%nat).
    { assert (Hin : k0 ∈ nonzero (vtab n (fun i => f (n + i)%nat Q)))
        by (rewrite Hnz; left).
      now apply positions_vtab_in in Hin as [Hlt _]. }
    assert (Hb1 : bits m g1).
    { apply bits_collapse_ent; [|unfold m, p; lia|exact Ho].
      apply bits_rand_fold; [unfold p; lia| |exact Hf].
      intros i Hi. apply positions_vtab_in in Hi as [Hi _]. lia. }
    pose proof (collapse_column n f Q k0 rest o Hf HQ Hnz) as Hcol.
    cbv zeta in Hcol. fold p R g1 in Hcol.
    assert (Hnz' : nonzero (vtab n (fun i => g1 (n + i)%nat Q)) = []).
    { apply positions_none. intros k Hk. rewrite vtab_length in Hk.
      rewrite vtab_total by done. rewrite Hcol by lia.
      destruct (Nat.eqb_spec (n + k) (p - n)); [unfold p in *; lia|reflexivity]. }
    destruct (M_step_det_exact n c1 q w1 g1 Hc1 Hb1 Hq Hnz')
      as (c2 & w2 & Hrun2 & _ & _ & _ & _).
    fold Q in Hrun2.
    set (f0 := scratch0 n g1) in *.
    assert (HR : where_eq 1 (vtab (2 * n + 0) (fun i => f0 i Q)) = [(p - n)%nat]).
    { apply positions_vtab_single; [unfold p; lia|].
      intros i Hi. unfold f0, scratch0.
      destruct (Nat.eqb_spec i (2 * n)); [lia|]. rewrite Hcol by lia.
      destruct (Nat.eqb_spec i (p - n)); split; intros; try done; lia. }
    rewrite HR in Hrun2.
    assert (Hout : det_fold n [(p - n)%nat] f0 (2 * n)%nat (2 * n)%nat = o).
    { unfold det_fold. cbn [foldl].
      replace (p - n + n)%nat with p by (unfold p; lia).
      unfold rowsum_ent. rewrite Nat.eqb_refl.
      destruct (Nat.ltb_spec (2 * n) (2 * n)); [lia|].
      unfold rowsum_phase.
      assert (H1 : f0 (2 * n)%nat (2 * n)%nat = 0).
      { unfold f0, scratch0. now rewrite Nat.eqb_refl. }
      assert (H2 : f0 p (2 * n)%nat = o).
      { unfold f0, scratch0. destruct (Nat.eqb_spec p (2 * n)); [unfold p in *; lia|].
        unfold g1, collapse_ent. rewrite !Nat.eqb_refl.
        destruct (Nat.eqb_spec (2 * n) (n + Q)); [lia|]. reflexivity. }
      assert (H3 : gsum f0 n (2 * n) p = 0).
      { unfold gsum. apply foldr_add_zero. intros j Hj. apply elem_of_seq in Hj.
        unfold f0, scratch0. rewrite Nat.eqb_refl.
        destruct (Nat.eqb_spec p (2 * n)); [unfold p in *; lia|].
        unfold g1, collapse_ent. rewrite !Nat.eqb_refl.
        destruct (Nat.eqb_spec j (n + Q)); [lia|].
        destruct (Nat.eqb_spec j (2 * n)); [lia|].
        destruct (Nat.eqb_spec (n + j) (2 * n)); [lia|].
        cbn [andb]. now destruct (n + j =? n + Q)%nat. }
      rewrite H1, H2, H3. now destruct Ho as [-> | ->]. }
    rewrite Hout in Hrun2.
    exists c1, w1, c2, w2, o. split; [exact Hrun1|]. split; [exact Hrun2|exact Ho].
Qed.

End RemeasureTwice.

(** On an integer tableau, measuring the same qubit twice in one call of
    [M] yields the same bit twice. *)
Lemma M_twice_agrees n T q collapse l w :
  heap w !! l = Some T -> tableau_of n T -> valid_qubit n q ->
  exists o w',
    CliffordOperations.M int64 l [q; q] n collapse w = Ok ([o; o], w') /\ bit o.
Proof.
  intros Hl HT Hq. pose proof (tableau_bits n T HT) as Hbits.
  destruct HT as [Hsh _]. pose proof (shape_tab _ _ _ Hsh) as HTab.
  destruct collapse.
  - rewrite HTab in Hl.
    destruct (M_step_twice n l q w (ent T) Hl Hbits Hq)
      as (c1 & w1 & c2 & w2 & o & H1 & H2 & Ho).
    exists o, w2. split; [|exact Ho].
    unfold CliffordOperations.M. eapply bind_step; [reflexivity|].
    eapply bind_step.
    { cbn [CliffordOperations.M_loop].
      eapply bind_step; [exact H1|]. cbv beta iota.
      eapply bind_step; [exact H2|]. reflexivity. }
    reflexivity.
  - set (w0 := World (heap w ++ [T]) (tape w) (pos w)).
    assert (Hl0 : heap w0 !! length (heap w)
                  = Some (tab (2 * n + 1) (2 * n + 1) (ent T))).
    { unfold w0. cbn [heap]. rewrite lookup_end. now f_equal. }
    destruct (M_step_twice n (length (heap w)) q w0 (ent T) Hl0 Hbits Hq)
      as (c1 & w1 & c2 & w2 & o & H1 & H2 & Ho).
    exists o, w2. split; [|exact Ho].
    unfold CliffordOperations.M. eapply bind_step; [apply np_copy_ok, Hl|].
    eapply bind_step.
    { cbn [CliffordOperations.M_loop].
      eapply bind_step; [exact H1|]. cbv beta iota.
      eapply bind_step; [exact H2|]. reflexivity. }
    reflexivity.
Qed.

(** X9. Measuring the same qubit twice in one call of [M] yields the same
    bit twice, with or without [collapse]: whatever the first step does,
    random or determined, the second one reads back its outcome.  This is
    what the call returns on a tableau of dtype [dt], unless the tableau is
    boolean and the call raises [TypeError]. *)
Theorem M_same_qubit_twice_agrees dt n T q collapse l w :
  heap w !! l = Some T -> tableau_of n T -> valid_qubit n q ->
  (exists o w',
     CliffordOperations.M dt l [q; q] n collapse w = Ok ([o; o], w') /\
     bit o) \/
  (dt = bool_ /\
   raises (CliffordOperations.M dt l [q; q] n collapse w) TypeError).
Proof.
  intros Hl HT Hq.
  destruct (M_dtype dt n T [q; q] collapse l w Hl HT) as [Heq|Hr];
    [repeat constructor; now apply valid_accepted|left|now right].
  rewrite Heq. now apply (M_twice_agrees n T).
Qed.

(** ** The decoder on either value of [return_array] *)

Section DenseDecoder.

Lemma flat_gate_matrix g : length (flat (gate_matrix g)) = 4%nat.
Proof. destruct g as [[] t]; reflexivity. Qed.

Lemma flat_tensordot0 a b :
  length (flat (tensordot0 a b)) = (length (flat a) * length (flat b))%nat.
Proof.
  unfold tensordot0. cbn [flat]. induction (flat a) as [|u us IH]; [reflexivity|].
  rewrite fmap_cons. cbn [concat]. rewrite length_app, length_fmap, IH.
  cbn [length]. lia.
Qed.

Lemma flat_fold ps :
  forall a,
    length (flat (foldl (fun matrix p => tensordot0 matrix (gate_matrix p)) a ps))
    = (length (flat a) * 4 ^ length ps)%nat.
Proof.
  induction ps as [|p ps IH]; intros a; cbn [foldl length].
  - rewrite Nat.pow_0_r. lia.
  - rewrite IH, flat_tensordot0, flat_gate_matrix, Nat.pow_succ_r'. lia.
Qed.

Lemma pow_4_2 k : (4 ^ k = 2 ^ k * 2 ^ k)%nat.
Proof. change 4%nat with (2 * 2)%nat. apply Nat.pow_mul_l. Qed.

Lemma chunks_length {A} r c (l : list A) : length (chunks r c l) = r.
Proof. revert l. induction r as [|r IH]; intros l; simpl; [done|]. now rewrite IH. Qed.

Lemma chunks_rows {A} r c (l : list A) :
  length l = (r * c)%nat -> forall row, row ∈ chunks r c l -> length row = c.
Proof.
  revert l. induction r as [|r IH]; intros l Hl row Hrow; simpl in Hrow.
  - inversion Hrow.
  - apply elem_of_cons in Hrow as [->|Hrow].
    + rewrite length_take. lia.
    + apply (IH (drop c l)); [|done]. rewrite length_drop. lia.
Qed.

Lemma to_array_ok ps nq :
  length ps = nq -> (0 < nq)%nat -> to_array ps nq = Ok (dense_array nq ps).
Proof.
  intros Hlen Hnq. destruct ps as [|p0 ps]; [simpl in Hlen; lia|].
  unfold to_array, dense_array, reshape.
  rewrite flat_fold, flat_gate_matrix. cbn [length] in Hlen.
  replace (4 * 4 ^ length ps)%nat with (2 ^ nq * 2 ^ nq)%nat.
  - now rewrite Nat.eqb_refl.
  - rewrite <- Hlen, <- pow_4_2, Nat.pow_succ_r'. reflexivity.
Qed.

Lemma dense_array_shape ps nq :
  length ps = nq -> (0 < nq)%nat ->
  length (dense_array nq ps) = (2 ^ nq)%nat /\
  forall row, row ∈ dense_array nq ps -> length row = (2 ^ nq)%nat.
Proof.
  intros Hlen Hnq. destruct ps as [|p0 ps]; [simpl in Hlen; lia|].
  unfold dense_array. split; [apply chunks_length|].
  apply chunks_rows. rewrite flat_fold, flat_gate_matrix.
  cbn [length] in Hlen. rewrite <- Hlen, <- pow_4_2, Nat.pow_succ_r'. reflexivity.
Qed.

Lemma decoded_paulis_length f nq k : length (decoded_paulis f nq k) = nq.
Proof. unfold decoded_paulis. now rewrite length_fmap, length_seq. Qed.

Lemma decoder_run_any n f l w ra :
  heap w !! l = Some (tab (2 * n + 1) (2 * n + 1) f) -> bits (2 * n + 1) f ->
  tableau_to_generators l ra w
  = Ok (((fun k => decoded_generator ra n (decoded_paulis f n k)) <$> seq 0 n,
         decoded_phases f (2 * n + 1) n), w).
Proof.
  intros Hl Hf. set (s := (2 * n + 1)%nat) in *.
  unfold tableau_to_generators.
  eapply bind_step; [apply load_ok, Hl|].
  rewrite tab_nrows. fold (CliffordOperations.nqubits s).
  rewrite !(nqubits_odd n : CliffordOperations.nqubits s = n). cbv zeta.
  assert (Hsb : slice_bound s (Z.of_nat n) = n).
  { rewrite slice_bound_nat. unfold s. lia. }
  assert (Hs : (0 < s)%nat) by (unfold s; lia).
  eapply bind_step.
  { apply lift_ok.
    rewrite (column_slice_tab s s f (Z.of_nat n) (-1) (-1) (s - 1)%nat);
      [|done|now apply norm_index_last].
    rewrite slice_bound_m1, Hsb. reflexivity. }
  rewrite slice_tab, slice_bound_m1, Hsb.
  rewrite (fmap_tab (slice_to (-1)) (s - 1 - n) s (s - 1) _
             (fun i j => f (n + i)%nat j)).
  2: { intros i Hi. rewrite slice_to_vtab, slice_bound_m1. reflexivity. }
  rewrite (fmap_tab (slice_to (Z.of_nat n)) (s - 1 - n) (s - 1) n _
             (fun i j => f (n + i)%nat j)).
  2: { intros i Hi. rewrite slice_to_vtab, slice_bound_nat.
       f_equal. unfold s. lia. }
  rewrite (fmap_tab (slice_from (Z.of_nat n)) (s - 1 - n) (s - 1) (s - 1 - n) _
             (fun i j => f (n + i)%nat (n + j)%nat)).
  2: { intros i Hi. rewrite slice_from_vtab, slice_bound_nat.
       replace (Nat.min n (s - 1)) with n by (unfold s; lia). reflexivity. }
  replace (s - 1 - n)%nat with n by (unfold s; lia).
  eapply bind_step.
  { apply lift_ok. unfold tab. rewrite zip_fmap_seq by done.
    rewrite (rmapM_ok _ (fun '(x, z) =>
               decoded_generator ra n
                 ((fun j => gates.Gate (pauli_letter (x !!! j) (z !!! j)) j)
                    <$> seq 0 n))).
    - rewrite <- list_fmap_compose. reflexivity.
    - intros [x z] Hin.
      apply list_elem_of_fmap in Hin as (k & [= -> ->] & Hk).
      apply elem_of_seq in Hk.
      rewrite decode_row_tab; [|lia|].
      + cbn [rbind].
        assert (Heq : (fun j => gates.Gate (pauli_letter (f (n + k)%nat j)
                                            (f (n + k)%nat (n + j)%nat)) j)
                        <$> seq 0 n
                      = (fun j => gates.Gate
                           (pauli_letter (vtab n (f (n + k)%nat) !!! j)
                              (vtab n (fun j0 => f (n + k)%nat (n + j0)%nat) !!! j)) j)
                        <$> seq 0 n).
        { apply list_fmap_ext. intros i j Hj. apply lookup_seq in Hj as [-> Hj].
          rewrite !vtab_total by lia. reflexivity. }
        unfold decoded_generator. destruct ra.
        * rewrite to_array_ok; [|now rewrite length_fmap, length_seq|lia].
          cbn [rbind]. now rewrite Heq.
        * now rewrite Heq.
      + intros j Hj. split; apply Hf; unfold s; lia. }
  unfold ret. do 3 f_equal.
  - apply list_fmap_ext. intros i k Hk. apply lookup_seq in Hk as [-> Hk].
    simpl. f_equal. unfold decoded_paulis. apply list_fmap_ext.
    intros i' j Hj. apply lookup_seq in Hj as [-> Hj].
    rewrite !vtab_total by lia. reflexivity.
  - unfold decoded_phases, vtab. rewrite <- list_fmap_compose.
    replace (s - 1 - n)%nat with n by (unfold s; lia). reflexivity.
Qed.

End DenseDecoder.

Lemma ent_of_row (T1 T2 : matrix) i j :
  T1 !! i = T2 !! i -> ent T1 i j = ent T2 i j.
Proof. intros Hrow. unfold ent. now rewrite !list_lookup_total_alt, Hrow. Qed.

(** X10. The decoder reads the stabilizer rows only: two tableaux of [n]
    qubits whose rows [n .. 2n-1] are equal decode to the same generators
    and phases, whatever their destabilizer and scratch rows are and for
    either value of [return_array]; the arrays are left as they were. *)
Theorem decoder_reads_stabilizer_rows_only n T1 T2 l1 l2 w1 w2 ra :
  heap w1 !! l1 = Some T1 -> heap w2 !! l2 = Some T2 ->
  tableau_of n T1 -> tableau_of n T2 ->
  (forall k, (n <= k < 2 * n)%nat -> T1 !! k = T2 !! k) ->
  exists out,
    tableau_to_generators l1 ra w1 = Ok (out, w1) /\
    tableau_to_generators l2 ra w2 = Ok (out, w2).
Proof.
  intros Hl1 Hl2 HT1 HT2 Hrows.
  pose proof (tableau_bits n T1 HT1) as Hb1.
  pose proof (tableau_bits n T2 HT2) as Hb2.
  destruct HT1 as [Hsh1 _], HT2 as [Hsh2 _].
  rewrite (shape_tab _ _ _ Hsh1) in Hl1. rewrite (shape_tab _ _ _ Hsh2) in Hl2.
  eexists. split; [apply decoder_run_any; [exact Hl1|exact Hb1]|].
  rewrite (decoder_run_any n (ent T2) l2 w2 ra Hl2 Hb2). do 2 f_equal. f_equal.
  - apply list_fmap_ext. intros i k Hk. apply lookup_seq in Hk as [-> Hk].
    simpl. f_equal. unfold decoded_paulis. apply list_fmap_ext.
    intros i' j Hj. apply lookup_seq in Hj as [-> Hj]. simpl.
    now rewrite !(ent_of_row T1 T2 (n + i)) by (apply Hrows; lia).
  - unfold decoded_phases. apply list_fmap_ext.
    intros i k Hk. apply lookup_seq in Hk as [-> Hk]. simpl.
    now rewrite (ent_of_row T1 T2 (n + i)) by (apply Hrows; lia).
Qed.

(** X11. With [return_array] set the decoder succeeds on every tableau and
    returns one dense array per stabilizer row, each with [2^n] rows of
    [2^n] entries. *)
Theorem dense_generators_are_square n T l w :
  heap w !! l = Some T -> tableau_of n T ->
  exists gens phases,
    tableau_to_generators l true w = Ok ((gens, phases), w) /\
    length gens = n /\ length phases = n /\
    forall g, g ∈ gens ->
      exists M, g = Dense M /\ length M = (2 ^ n)%nat /\
                forall row, row ∈ M -> length row = (2 ^ n)%nat.
Proof.
  intros Hl HT. pose proof (tableau_bits n T HT) as Hbits.
  destruct HT as [Hsh _]. rewrite (shape_tab _ _ _ Hsh) in Hl.
  eexists _, _. split; [apply decoder_run_any; [exact Hl|exact Hbits]|].
  split; [now rewrite length_fmap, length_seq|].
  split. { unfold decoded_phases. rewrite length_fmap, length_seq. lia. }
  intros g Hg. apply list_elem_of_fmap in Hg as (k & -> & Hk).
  apply elem_of_seq in Hk. eexists. split; [reflexivity|].
  apply dense_array_shape; [apply decoded_paulis_length|lia].
Qed.

(** X12. The phases the decoder returns are 1 or i, one per stabilizer
    row: a phase bit 1 is reported as i, and no generator is ever reported
    with phase -1 or -i. *)
Theorem decoder_phases_are_one_or_i n T l w ra :
  heap w !! l = Some T -> tableau_of n T ->
  exists gens phases,
    tableau_to_generators l ra w = Ok ((gens, phases), w) /\
    length phases = n /\
    (forall k, (k < n)%nat ->
       phases !! k = Some (if ent T (n + k) (2 * n) =? 0 then (1, 0) else (0, 1))) /\
    forall c, c ∈ phases -> one_or_i c.
Proof.
  intros Hl HT. pose proof (tableau_bits n T HT) as Hbits.
  destruct HT as [Hsh _]. rewrite (shape_tab _ _ _ Hsh) in Hl.
  eexists _, _. split; [apply decoder_run_any; [exact Hl|exact Hbits]|].
  unfold decoded_phases. replace (2 * n + 1 - 1 - n)%nat with n by lia.
  replace (2 * n + 1 - 1)%nat with (2 * n)%nat by lia.
  split; [now rewrite length_fmap, length_seq|]. split.
  - intros k Hk. rewrite list_lookup_fmap, lookup_seq_lt by done.
    cbn [fmap option_fmap option_map Nat.add]. f_equal.
    destruct (Hbits (n + k)%nat (2 * n)%nat) as [-> | ->]; [lia..| |];
      reflexivity.
  - intros c Hc. apply list_elem_of_fmap in Hc as (k & -> & Hk).
    apply elem_of_seq in Hk. unfold one_or_i.
    destruct (Hbits (n + k)%nat (2 * n)%nat) as [-> | ->]; [lia..| |];
      [now left|now right].
Qed.

(** X13. For one qubit the dense generator is right: it is the 2x2 matrix
    of the decoded letter, which is also what the Kronecker product of the
    letters gives. *)
Theorem dense_generator_of_one_qubit T l w :
  heap w !! l = Some T -> tableau_of 1 T ->
  exists g M phases,
    tableau_to_generators l false w = Ok (([Paulis [g]], phases), w) /\
    tableau_to_generators l true w = Ok (([Dense M], phases), w) /\
    M = dense_of g /\ kron_all [g] = Some M.
Proof.
  intros Hl HT. pose proof (tableau_bits 1 T HT) as Hbits.
  destruct HT as [Hsh _]. rewrite (shape_tab _ _ _ Hsh) in Hl.
  exists (gates.Gate (pauli_letter (ent T 1 0) (ent T 1 1)) 0),
         (dense_of (gates.Gate (pauli_letter (ent T 1 0) (ent T 1 1)) 0)),
         (decoded_phases (ent T) 3 1).
  rewrite (decoder_run_any 1 (ent T) l w false Hl Hbits).
  rewrite (decoder_run_any 1 (ent T) l w true Hl Hbits).
  repeat split.
Qed.

(** ** The accessors *)

Section AccessorFacts.

Import CliffordOperations.





Variable n : nat.
Let m := (2 * n + 1)%nat.










End AccessorFacts.






(** ** What a collapsing measurement leaves behind *)

Section CollapseInvariant.

Import CliffordOperations.

Variable n : nat.
Let m := (2 * n + 1)%nat.

(** A step works on the array it is given and on arrays it allocates: that
    array still holds a tableau afterwards and every other array that
    existed is as it was. *)
Lemma M_step_inv sc q w f :
  heap w !! sc = Some (tab m m f) -> bits m f -> valid_qubit n q ->
  exists c' g' w' o,
    M_step int64 sc q n w = Ok ((c', o), w') /\
    heap w' !! c' = Some (tab m m g') /\ bits m g' /\ bit o /\
    (c' = sc \/ (length (heap w) <= c')%nat) /\
    (length (heap w) <= length (heap w'))%nat /\
    (exists g'', heap w' !! sc = Some (tab m m g'') /\ bits m g'') /\
    (forall l', l' <> sc -> (l' < length (heap w))%nat ->
                heap w' !! l' = heap w !! l').
Proof.
  intros Hsc Hf Hq.
  assert (Hlt : (sc < length (heap w))%nat) by (eapply lookup_lt_Some, Hsc).
  destruct (nonzero (vtab n (fun i => f (n + i)%nat (Z.to_nat q))))
    as [|k0 rest] eqn:Hnz.
  - destruct (M_step_det_exact n sc q w f Hsc Hf Hq Hnz)
      as (c' & w' & Hrun & Hc' & Hb & Hpre & Hor & _).
    eexists c', _, w', _. split; [exact Hrun|]. split; [exact Hc'|].
    split; [exact Hb|]. split; [apply Hb; unfold m; lia|].
    split; [exact Hor|]. split; [|split].
    + apply prefix_length in Hpre. now rewrite set_heap_length in Hpre.
    + exists (scratch0 n f). split; [|now apply bits_scratch0].
      eapply prefix_lookup_Some; [|exact Hpre]. now apply set_heap_lookup.
    + intros l' Hne Hl'.
      destruct (lookup_lt_is_Some_2 (heap w) l' Hl') as [x Hx]. rewrite Hx.
      eapply prefix_lookup_Some; [|exact Hpre].
      unfold set_heap. cbn [heap]. now rewrite list_lookup_insert_ne by congruence.
  - destruct (M_step_rand_exact n sc q w f k0 rest Hsc Hf Hq Hnz)
      as (c' & w' & o & Hrun & Ho & Hc' & Hor & _ & Hlen & Hfr & _).
    assert (Hk0 : (k0 < n)%nat).
    { assert (Hin : k0 ∈ nonzero (vtab n (fun i => f (n + i)%nat (Z.to_nat q))))
        by (rewrite Hnz; left).
      now apply positions_vtab_in in Hin as [Hlt' _]. }
    assert (Hb : bits m (collapse_ent n (k0 + n) (n + Z.to_nat q) o
                  (rand_fold n (k0 + n)
                     (nonzero (vtab (2 * n + 0) (fun i => f i (Z.to_nat q)))) f))).
    { apply bits_collapse_ent; [|unfold m; lia|exact Ho].
      apply bits_rand_fold; [lia| |exact Hf].
      intros i Hi. apply positions_vtab_in in Hi as [Hi _]. lia. }
    eexists c', _, w', o. split; [exact Hrun|]. split; [exact Hc'|].
    split; [exact Hb|]. split; [exact Ho|]. split; [exact Hor|].
    split; [exact Hlen|]. split.
    + destruct Hor as [-> | Hge].
      * eexists. split; [exact Hc'|exact Hb].
      * exists f. split; [|exact Hf]. rewrite Hfr by lia. exact Hsc.
    + intros l' Hne Hl'. apply Hfr; [exact Hl'|].
      destruct Hor as [-> | Hge]; [done|lia].
Qed.

Lemma M_loop_inv qubits l (hp0 : list matrix) :
  forall sc w f acc,
    heap w !! sc = Some (tab m m f) -> bits m f ->
    Forall (valid_qubit n) qubits ->
    (sc = l \/ (length hp0 <= sc)%nat) -> (l < length hp0)%nat ->
    (length hp0 <= length (heap w))%nat ->
    (exists g, heap w !! l = Some (tab m m g) /\ bits m g) ->
    (forall l', l' <> l -> (l' < length hp0)%nat -> heap w !! l' = hp0 !! l') ->
    exists sc' w' os,
      M_loop int64 sc qubits n acc w = Ok ((sc', acc ++ os), w') /\
      length os = length qubits /\ Forall bit os /\
      (exists g, heap w' !! l = Some (tab m m g) /\ bits m g) /\
      (forall l', l' <> l -> (l' < length hp0)%nat -> heap w' !! l' = hp0 !! l').
Proof.
  induction qubits as [|q qubits IH];
    intros sc w f acc Hsc Hf Hqs Hsl Hl Hlen Hlg Hothers.
  - exists sc, w, []. rewrite app_nil_r. repeat split; [constructor|done..].
  - apply Forall_cons in Hqs as [Hq Hqs].
    destruct (M_step_inv sc q w f Hsc Hf Hq)
      as (c' & g' & w1 & o & Hstep & Hc' & Hg' & Ho & Hor & Hlen1 & Hsc1 & Hfr).
    assert (Hsl1 : c' = l \/ (length hp0 <= c')%nat).
    { destruct Hor as [-> | Hge]; [exact Hsl|right; lia]. }
    assert (Hlen' : (length hp0 <= length (heap w1))%nat) by lia.
    assert (Hlg1 : exists g, heap w1 !! l = Some (tab m m g) /\ bits m g).
    { destruct (decide (sc = l)) as [->|Hne]; [exact Hsc1|].
      destruct Hlg as (g & Hg & Hbg). exists g. split; [|exact Hbg].
      rewrite Hfr by (first [congruence|lia]). exact Hg. }
    assert (Hothers1 : forall l', l' <> l -> (l' < length hp0)%nat ->
                                  heap w1 !! l' = hp0 !! l').
    { intros l' Hne Hl'. rewrite Hfr; [now apply Hothers| |lia].
      destruct Hsl as [-> | Hge]; [exact Hne|lia]. }
    destruct (IH c' w1 g' (acc ++ [o]) Hc' Hg' Hqs Hsl1 Hl Hlen' Hlg1 Hothers1)
      as (sc' & w' & os & Hloop & Hlenos & Hbits & Hlg' & Hothers').
    exists sc', w', (o :: os). split; [|split; [|split; [|split]]].
    + cbn [M_loop]. eapply bind_step; [exact Hstep|]. cbv beta iota.
      rewrite Hloop. now rewrite <- app_assoc.
    + simpl. now rewrite Hlenos.
    + now constructor.
    + exact Hlg'.
    + exact Hothers'.
Qed.

End CollapseInvariant.

(** With [collapse] set, on an integer tableau: the call succeeds and
    leaves a tableau in the caller's array. *)
Lemma M_collapse_tableau n T qubits l w :
  heap w !! l = Some T -> tableau_of n T -> Forall (valid_qubit n) qubits ->
  exists sample w' T',
    CliffordOperations.M int64 l qubits n true w = Ok (sample, w') /\
    length sample = length qubits /\
    heap w' !! l = Some T' /\ tableau_of n T' /\
    forall l', l' <> l -> (l' < length (heap w))%nat ->
               heap w' !! l' = heap w !! l'.
Proof.
  intros Hl HT Hqs. pose proof (tableau_bits n T HT) as Hbits.
  destruct HT as [Hsh _]. pose proof (shape_tab _ _ _ Hsh) as HTab.
  assert (Hlf : heap w !! l = Some (tab (2 * n + 1) (2 * n + 1) (ent T)))
    by (rewrite <- HTab; exact Hl).
  assert (Hlt : (l < length (heap w))%nat) by (eapply lookup_lt_Some, Hl).
  destruct (M_loop_inv n qubits l (heap w) l w (ent T) [] Hlf Hbits Hqs)
    as (sc' & w' & os & Hloop & Hlen & _ & (g & Hg & Hbg) & Hothers);
    [now left|exact Hlt|lia|now exists (ent T)|done|].
  exists os, w', (tab (2 * n + 1) (2 * n + 1) g).
  split; [|split; [exact Hlen|split; [exact Hg|split; [|exact Hothers]]]].
  - unfold CliffordOperations.M. eapply bind_step; [reflexivity|].
    eapply bind_step; [exact Hloop|]. reflexivity.
  - now apply tab_tableau.
Qed.

(** X18. With [collapse] set, [M] on any list of valid qubits and a tableau
    of dtype [dt] either succeeds, leaves a tableau of [n] qubits in the
    caller's array and every other array that existed before the call as it
    was; or the tableau is boolean and the call raises [TypeError]. *)
Theorem M_collapse_leaves_a_tableau dt n T qubits l w :
  heap w !! l = Some T -> tableau_of n T -> Forall (valid_qubit n) qubits ->
  (exists sample w' T',
     CliffordOperations.M dt l qubits n true w = Ok (sample, w') /\
     length sample = length qubits /\
     heap w' !! l = Some T' /\ tableau_of n T' /\
     forall l', l' <> l -> (l' < length (heap w))%nat ->
                heap w' !! l' = heap w !! l') \/
  (dt = bool_ /\
   raises (CliffordOperations.M dt l qubits n true w) TypeError).
Proof.
  intros Hl HT Hqs.
  destruct (M_dtype dt n T qubits true l w Hl HT
              (Forall_valid_accepted n qubits Hqs)) as [Heq|Hr];
    [left|now right].
  rewrite Heq. now apply (M_collapse_tableau n T).
Qed.

(** ** The further properties on concrete inputs *)

Lemma S_four_times_witness :
  exists l' w',
    (run a <- CliffordOperations.S 0%nat 0 1 ;
     run b <- CliffordOperations.S a 0 1 ;
     run c <- CliffordOperations.S b 0 1 ;
     CliffordOperations.S c 0 1) (demo_world plus_state) = Ok (l', w') /\
    heap w' !! l' = Some plus_state /\ heap w' !! 0%nat = Some plus_state.
Proof.
  apply (S_four_times_is_identity 1 plus_state 0 0%nat (demo_world plus_state));
    [reflexivity | concrete_tableau | concrete_qubit].
Defined.

Lemma S_twice_witness :
  exists l' w' T',
    (run a <- CliffordOperations.S 0%nat 0 1 ; CliffordOperations.S a 0 1)
      (demo_world plus_state) = Ok (l', w') /\
    heap w' !! l' = Some T' /\
    ent T' 0 2 = Z.lxor (ent plus_state 0 2) (ent plus_state 0 0).
Proof.
  destruct (S_twice_flips_phase_by_x 1 plus_state 0 0%nat (demo_world plus_state))
    as (l' & w' & T' & Hrun & Hl' & _ & Hent);
    [reflexivity | concrete_tableau | concrete_qubit |].
  exists l', w', T'. split; [exact Hrun|]. split; [exact Hl'|].
  apply (Hent 0%nat 2%nat); lia.
Defined.

Lemma gates_fresh_witness :
  exists T',
    CliffordOperations.CNOT 0%nat 0 1 2 (demo_world bell_pair)
    = Ok (1%nat, World [bell_pair; T'] (fun _ => false) 0) /\
    tableau_of 2 T'.
Proof.
  destruct (gates_return_fresh_tableau 2 bell_pair 0 0 1 0%nat
              (demo_world bell_pair)) as (_ & _ & HC);
    [reflexivity | concrete_tableau | concrete_qubit..|].
  exact HC.
Defined.

Lemma gates_commutation_witness :
  keeps_commutation 2 bell_pair
    (CliffordOperations.CNOT 0%nat 0 1 2 (demo_world bell_pair)).
Proof.
  destruct (gates_preserve_commutation 2 bell_pair 0 0 1 0%nat
              (demo_world bell_pair)) as (_ & _ & HC);
    [reflexivity | concrete_tableau | concrete_qubit.. | lia |].
  exact HC.
Defined.

Lemma exponent_dtype_witness :
  exists g,
    CliffordOperations.exponent int64 1 1 1 0 = Ok (Some g) /\
    CliffordOperations.exponent uint8 1 1 1 0 = Ok (Some (g mod 2 ^ 8)) /\
    CliffordOperations.exponent bool_ 1 1 1 0 = Raise TypeError.
Proof.
  destruct (exponent_depends_on_dtype 1 1 1 0) as [Hb _].
  destruct Hb as (g & H1 & _ & _ & _ & H2 & H3);
    [right; reflexivity | right; reflexivity | right; reflexivity
    | left; reflexivity |].
  exists g. split; [exact H1|]. split; [exact H2|exact H3].
Defined.

Lemma rowsum_twice_witness :
  exists l' w',
    (run a <- CliffordOperations.rowsum bool_ 0%nat 0 1 2 false ;
     CliffordOperations.rowsum bool_ a 0 1 2 false) (demo_world bell_pair)
      = Ok (l', w') /\
    heap w' !! l' = Some bell_pair /\ heap w' !! 0%nat = Some bell_pair.
Proof.
  apply (rowsum_twice_restores bool_ 2 bell_pair 0 1 false 0%nat
           (demo_world bell_pair));
    [reflexivity | concrete_tableau | simpl; lia | simpl; lia | lia
    | vm_compute; reflexivity].
Defined.

Lemma rowsum_product_witness :
  exists T',
    CliffordOperations.rowsum uint8 0%nat 1 2 2 false (demo_world phased_pair)
      = Ok (1%nat, World [phased_pair; T'] (fun _ => false) 0) /\
    T' !! 1%nat = Some [1; 0; 1; 0; 0].
Proof.
  pose proof (rowsum_product_or_type_error uint8 2 phased_pair 1 2 false 0%nat
                (demo_world phased_pair)) as Hw.
  change (y_raises uint8 (ent phased_pair) 2 (Z.to_nat 2)) with false in Hw.
  destruct Hw as (T' & Hrun & _);
    [reflexivity | concrete_tableau | simpl; lia | simpl; lia |].
  exists T'. split; [exact Hrun|].
  vm_compute in Hrun. now injection Hrun as <-.
Defined.

Lemma rowsum_out_of_range_witness :
  raises (CliffordOperations.rowsum bool_ 0%nat 4 0 2 false (demo_world bell_pair))
         IndexError.
Proof.
  apply (rowsum_row_out_of_range bool_ 2 bell_pair 4 0 false 0%nat
           (demo_world bell_pair));
    [reflexivity | concrete_tableau | lia | left; unfold out_of_range; simpl; lia].
Defined.

Lemma M_without_collapse_witness :
  exists sample w',
    CliffordOperations.M bool_ 0%nat [0; 1] 2 false (demo_world bell_pair)
      = Ok (sample, w') /\
    length sample = 2%nat /\ Forall bit sample /\
    heap (demo_world bell_pair) `prefix_of` heap w' /\
    heap w' !! 0%nat = Some bell_pair.
Proof.
  destruct (M_without_collapse_keeps_every_array bool_ 2 bell_pair [0; 1]
              0%nat (demo_world bell_pair)) as [Hok|[_ Hr]];
    [reflexivity | concrete_tableau | repeat constructor; concrete_qubit
    | exact Hok |].
  vm_compute in Hr. discriminate.
Defined.

Lemma M_same_qubit_witness :
  exists o w',
    CliffordOperations.M bool_ 0%nat [0; 0] 2 true (demo_world bell_pair)
      = Ok ([o; o], w') /\ bit o.
Proof.
  destruct (M_same_qubit_twice_agrees bool_ 2 bell_pair 0 true 0%nat
              (demo_world bell_pair)) as [Hok|[_ Hr]];
    [reflexivity | concrete_tableau | concrete_qubit | exact Hok |].
  vm_compute in Hr. discriminate.
Defined.

Lemma decoder_stabilizer_rows_witness :
  exists out,
    tableau_to_generators 0%nat true (demo_world plus_state)
      = Ok (out, demo_world plus_state) /\
    tableau_to_generators 0%nat true
      (demo_world [[1; 1; 1]; [1; 0; 0]; [0; 1; 0]])
      = Ok (out, demo_world [[1; 1; 1]; [1; 0; 0]; [0; 1; 0]]).
Proof.
  apply (decoder_reads_stabilizer_rows_only 1 plus_state
           [[1; 1; 1]; [1; 0; 0]; [0; 1; 0]] 0%nat 0%nat);
    [reflexivity | reflexivity | concrete_tableau | concrete_tableau |].
  intros k Hk. assert (k = 1%nat) as -> by lia. reflexivity.
Defined.

Lemma dense_square_witness :
  exists gens phases,
    tableau_to_generators 0%nat true (demo_world plus_zero_state)
      = Ok ((gens, phases), demo_world plus_zero_state) /\
    length gens = 2%nat /\ length phases = 2%nat /\
    forall g, g ∈ gens ->
      exists M, g = Dense M /\ length M = (2 ^ 2)%nat /\
                forall row, row ∈ M -> length row = (2 ^ 2)%nat.
Proof.
  apply (dense_generators_are_square 2 plus_zero_state 0%nat
           (demo_world plus_zero_state));
    [reflexivity | concrete_tableau].
Defined.

Lemma decoder_phases_witness :
  exists gens phases,
    tableau_to_generators 0%nat false (demo_world plus_state)
      = Ok ((gens, phases), demo_world plus_state) /\
    length phases = 1%nat /\
    forall c, c ∈ phases -> one_or_i c.
Proof.
  destruct (decoder_phases_are_one_or_i 1 plus_state 0%nat (demo_world plus_state)
              false) as (gens & phases & Hrun & Hlen & _ & Hph);
    [reflexivity | concrete_tableau |].
  now exists gens, phases.
Defined.

Lemma dense_one_qubit_witness :
  exists g M phases,
    tableau_to_generators 0%nat false (demo_world plus_state)
      = Ok (([Paulis [g]], phases), demo_world plus_state) /\
    tableau_to_generators 0%nat true (demo_world plus_state)
      = Ok (([Dense M], phases), demo_world plus_state) /\
    M = dense_of g /\ kron_all [g] = Some M.
Proof.
  apply (dense_generator_of_one_qubit plus_state 0%nat (demo_world plus_state));
    [reflexivity | concrete_tableau].
Defined.





Lemma M_collapse_tableau_witness :
  exists sample w' T',
    CliffordOperations.M bool_ 0%nat [0; 1] 2 true (demo_world bell_pair)
      = Ok (sample, w') /\
    length sample = 2%nat /\
    heap w' !! 0%nat = Some T' /\ tableau_of 2 T' /\
    forall l', l' <> 0%nat -> (l' < length (heap (demo_world bell_pair)))%nat ->
               heap w' !! l' = heap (demo_world bell_pair) !! l'.
Proof.
  destruct (M_collapse_leaves_a_tableau bool_ 2 bell_pair [0; 1] 0%nat
              (demo_world bell_pair)) as [Hok|[_ Hr]];
    [reflexivity | concrete_tableau | repeat constructor; concrete_qubit
    | exact Hok |].
  vm_compute in Hr. discriminate.
Defined.

(** ** Gates on different qubits *)

Ltac simp_cmp :=
  repeat match goal with
         | |- context [(?a =? ?b)%nat] =>
             first [ rewrite (proj2 (Nat.eqb_neq a b)) by lia
                   | rewrite (proj2 (Nat.eqb_eq a b)) by lia ]
         | |- context [(?a <? ?b)%nat] =>
             first [ rewrite (proj2 (Nat.ltb_lt a b)) by lia
                   | rewrite (proj2 (Nat.ltb_ge a b)) by lia ]
         end; cbn [andb orb].

Ltac case_cmp :=
  simp_cmp;
  repeat (match goal with
          | |- context [(?a =? ?b)%nat] =>
              destruct (Nat.eqb_spec a b) as [?|?]; [subst|]
          | |- context [(?a <? ?b)%nat] =>
              destruct (Nat.ltb_spec a b)
          end; simp_cmp).

Section GatePairs.

Import CliffordOperations.

Variable n : nat.
Let m := (2 * n + 1)%nat.

Lemma lxor_swap r a b : Z.lxor (Z.lxor r a) b = Z.lxor (Z.lxor r b) a.
Proof. now rewrite !Z.lxor_assoc, (Z.lxor_comm a b). Qed.

Lemma H_H_ent_commute Q1 Q2 f i j :
  Q1 <> Q2 -> (Q1 < n)%nat -> (Q2 < n)%nat ->
  H_ent n Q2 (H_ent n Q1 f) i j = H_ent n Q1 (H_ent n Q2 f) i j.
Proof.
  intros Hne H1 H2. unfold H_ent, H_ent_at. cbv beta zeta.
  case_cmp; first [reflexivity | apply lxor_swap].
Qed.

Lemma S_S_ent_commute Q1 Q2 f i j :
  Q1 <> Q2 -> (Q1 < n)%nat -> (Q2 < n)%nat ->
  S_ent n Q2 (S_ent n Q1 f) i j = S_ent n Q1 (S_ent n Q2 f) i j.
Proof.
  intros Hne H1 H2. unfold S_ent. cbv beta zeta.
  case_cmp; first [reflexivity | apply lxor_swap].
Qed.

Lemma H_S_ent_commute Q1 Q2 f i j :
  Q1 <> Q2 -> (Q1 < n)%nat -> (Q2 < n)%nat ->
  S_ent n Q2 (H_ent n Q1 f) i j = H_ent n Q1 (S_ent n Q2 f) i j.
Proof.
  intros Hne H1 H2. unfold S_ent, H_ent, H_ent_at. cbv beta zeta.
  case_cmp; first [reflexivity | apply lxor_swap].
Qed.

Lemma H_CNOT_ent_commute Q c t f i j :
  Q <> c -> Q <> t -> (Q < n)%nat -> (c < n)%nat -> (t < n)%nat ->
  CNOT_ent n c t (H_ent n Q f) i j = H_ent n Q (CNOT_ent n c t f) i j.
Proof.
  intros Hc Ht H1 H2 H3. unfold CNOT_ent, H_ent, H_ent_at. cbv beta zeta.
  case_cmp; first [reflexivity | apply lxor_swap].
Qed.

Lemma S_CNOT_ent_commute Q c t f i j :
  Q <> c -> Q <> t -> (Q < n)%nat -> (c < n)%nat -> (t < n)%nat ->
  CNOT_ent n c t (S_ent n Q f) i j = S_ent n Q (CNOT_ent n c t f) i j.
Proof.
  intros Hc Ht H1 H2 H3. unfold CNOT_ent, S_ent. cbv beta zeta.
  case_cmp; first [reflexivity | apply lxor_swap].
Qed.

Lemma array_of_fresh w (e : nat -> nat -> Z) r :
  r = Ok (length (heap w), World (heap w ++ [tab m m e]) (tape w) (pos w)) ->
  array_of r = Some (tab m m e).
Proof. intros ->. cbn [array_of heap]. apply lookup_end. Qed.

Lemma array_of_two (G1 G2 : nat -> Py nat)
    (e1 e2 : (nat -> nat -> Z) -> nat -> nat -> Z) l w f :
  heap w !! l = Some (tab m m f) ->
  (forall l w f, heap w !! l = Some (tab m m f) ->
     G1 l w = Ok (length (heap w),
                  World (heap w ++ [tab m m (e1 f)]) (tape w) (pos w))) ->
  (forall l w f, heap w !! l = Some (tab m m f) ->
     G2 l w = Ok (length (heap w),
                  World (heap w ++ [tab m m (e2 f)]) (tape w) (pos w))) ->
  array_of ((run a <- G1 l ; G2 a) w) = Some (tab m m (e2 (e1 f))).
Proof.
  intros Hl H1 H2. unfold bind. rewrite (H1 l w f Hl).
  erewrite H2 by apply lookup_end. cbn [array_of heap]. apply lookup_end.
Qed.

Lemma same_array_two (G1 G2 : nat -> Py nat)
    (e1 e2 : (nat -> nat -> Z) -> nat -> nat -> Z) l w f :
  heap w !! l = Some (tab m m f) ->
  (forall l w f, heap w !! l = Some (tab m m f) ->
     G1 l w = Ok (length (heap w),
                  World (heap w ++ [tab m m (e1 f)]) (tape w) (pos w))) ->
  (forall l w f, heap w !! l = Some (tab m m f) ->
     G2 l w = Ok (length (heap w),
                  World (heap w ++ [tab m m (e2 f)]) (tape w) (pos w))) ->
  (forall i j, e2 (e1 f) i j = e1 (e2 f) i j) ->
  same_array ((run a <- G1 l ; G2 a) w) ((run a <- G2 l ; G1 a) w).
Proof.
  intros Hl H1 H2 Heq. exists (tab m m (e2 (e1 f))).
  split; [now apply array_of_two|].
  rewrite (array_of_two G2 G1 e2 e1 l w f Hl H2 H1). f_equal.
  apply tab_ext. intros i j _ _. symmetry. apply Heq.
Qed.

End GatePairs.

(** X19. Gates on different qubits commute: applying [H] or [S] to two
    distinct qubits, or [H] or [S] to a qubit and [CNOT] to two others,
    returns the same tableau in either order. *)
Theorem gates_on_distinct_qubits_commute n T q1 q2 c t l w :
  heap w !! l = Some T -> tableau_of n T ->
  valid_qubit n q1 -> valid_qubit n q2 -> valid_qubit n c -> valid_qubit n t ->
  q1 <> q2 -> q1 <> c -> q1 <> t ->
  same_array ((run a <- CliffordOperations.H l q1 n ; CliffordOperations.H a q2 n) w)
             ((run a <- CliffordOperations.H l q2 n ; CliffordOperations.H a q1 n) w) /\
  same_array ((run a <- CliffordOperations.S l q1 n ; CliffordOperations.S a q2 n) w)
             ((run a <- CliffordOperations.S l q2 n ; CliffordOperations.S a q1 n) w) /\
  same_array ((run a <- CliffordOperations.H l q1 n ; CliffordOperations.S a q2 n) w)
             ((run a <- CliffordOperations.S l q2 n ; CliffordOperations.H a q1 n) w) /\
  same_array ((run a <- CliffordOperations.H l q1 n ; CliffordOperations.CNOT a c t n) w)
             ((run a <- CliffordOperations.CNOT l c t n ; CliffordOperations.H a q1 n) w) /\
  same_array ((run a <- CliffordOperations.S l q1 n ; CliffordOperations.CNOT a c t n) w)
             ((run a <- CliffordOperations.CNOT l c t n ; CliffordOperations.S a q1 n) w).
Proof.
  intros Hl [Hsh _] Hq1 Hq2 Hc Ht H12 H1c H1t.
  rewrite (shape_tab _ _ _ Hsh) in Hl.
  pose proof Hq1 as [? ?]. pose proof Hq2 as [? ?].
  pose proof Hc as [? ?]. pose proof Ht as [? ?].
  split; [|split; [|split; [|split]]].
  - apply (same_array_two n (fun a => CliffordOperations.H a q1 n)
             (fun a => CliffordOperations.H a q2 n)
             (H_ent n (Z.to_nat q1)) (H_ent n (Z.to_nat q2))
             l w (ent T) Hl).
    + intros. now apply H_run.
    + intros. now apply H_run.
    + intros i j. apply H_H_ent_commute; lia.
  - apply (same_array_two n (fun a => CliffordOperations.S a q1 n)
             (fun a => CliffordOperations.S a q2 n)
             (S_ent n (Z.to_nat q1)) (S_ent n (Z.to_nat q2))
             l w (ent T) Hl).
    + intros. now apply S_run.
    + intros. now apply S_run.
    + intros i j. apply S_S_ent_commute; lia.
  - apply (same_array_two n (fun a => CliffordOperations.H a q1 n)
             (fun a => CliffordOperations.S a q2 n)
             (H_ent n (Z.to_nat q1)) (S_ent n (Z.to_nat q2))
             l w (ent T) Hl).
    + intros. now apply H_run.
    + intros. now apply S_run.
    + intros i j. apply H_S_ent_commute; lia.
  - apply (same_array_two n (fun a => CliffordOperations.H a q1 n)
             (fun a => CliffordOperations.CNOT a c t n)
             (H_ent n (Z.to_nat q1)) (CNOT_ent n (Z.to_nat c) (Z.to_nat t))
             l w (ent T) Hl).
    + intros. now apply H_run.
    + intros. now apply CNOT_run.
    + intros i j. apply H_CNOT_ent_commute; lia.
  - apply (same_array_two n (fun a => CliffordOperations.S a q1 n)
             (fun a => CliffordOperations.CNOT a c t n)
             (S_ent n (Z.to_nat q1)) (CNOT_ent n (Z.to_nat c) (Z.to_nat t))
             l w (ent T) Hl).
    + intros. now apply S_run.
    + intros. now apply CNOT_run.
    + intros i j. apply S_CNOT_ent_commute; lia.
Qed.

(** X20. Gates are local.  [H] on qubit [q] changes nothing outside columns
    [q] and [n + q] and the phases of the generator rows; [S] nothing
    outside column [n + q] and those phases; [CNOT] nothing outside columns
    [target] and [n + control] and those phases.  [S] and [CNOT] also leave
    the scratch row as it was. *)
Theorem gates_touch_only_their_columns n T q c t l w :
  heap w !! l = Some T -> tableau_of n T ->
  valid_qubit n q -> valid_qubit n c -> valid_qubit n t ->
  (exists T', array_of (CliffordOperations.H l q n w) = Some T' /\
     forall i j, (i < 2 * n + 1)%nat -> (j < 2 * n + 1)%nat ->
       j <> Z.to_nat q -> j <> (n + Z.to_nat q)%nat ->
       (i = (2 * n)%nat \/ j <> (2 * n)%nat) ->
       ent T' i j = ent T i j) /\
  (exists T', array_of (CliffordOperations.S l q n w) = Some T' /\
     forall i j, (i < 2 * n + 1)%nat -> (j < 2 * n + 1)%nat ->
       (i = (2 * n)%nat \/ (j <> (n + Z.to_nat q)%nat /\ j <> (2 * n)%nat)) ->
       ent T' i j = ent T i j) /\
  (exists T', array_of (CliffordOperations.CNOT l c t n w) = Some T' /\
     forall i j, (i < 2 * n + 1)%nat -> (j < 2 * n + 1)%nat ->
       (i = (2 * n)%nat \/
        (j <> Z.to_nat t /\ j <> (n + Z.to_nat c)%nat /\ j <> (2 * n)%nat)) ->
       ent T' i j = ent T i j).
Proof.
  intros Hl [Hsh _] Hq Hc Ht. rewrite (shape_tab _ _ _ Hsh) in Hl.
  pose proof Hq as [? ?]. pose proof Hc as [? ?]. pose proof Ht as [? ?].
  split; [|split].
  - eexists. split; [eapply array_of_fresh, H_run; [exact Hl|exact Hq]|].
    intros i j Hi Hj Hj1 Hj2 Hj3. rewrite tab_ent by done.
    unfold H_ent, H_ent_at. cbv beta zeta. case_cmp; reflexivity.
  - eexists. split; [eapply array_of_fresh, S_run; [exact Hl|exact Hq]|].
    intros i j Hi Hj Hj1. rewrite tab_ent by done.
    unfold S_ent. case_cmp; reflexivity.
  - eexists. split; [eapply array_of_fresh, CNOT_run; [exact Hl|exact Hc|exact Ht]|].
    intros i j Hi Hj Hj1. rewrite tab_ent by done.
    unfold CNOT_ent. cbv beta zeta. case_cmp; reflexivity.
Qed.

Lemma gates_commute_witness :
  same_array
    ((run a <- CliffordOperations.H 0%nat 0 3 ; CliffordOperations.CNOT a 1 2 3)
       (demo_world (zero_state 3)))
    ((run a <- CliffordOperations.CNOT 0%nat 1 2 3 ; CliffordOperations.H a 0 3)
       (demo_world (zero_state 3))).
Proof.
  destruct (gates_on_distinct_qubits_commute 3 (zero_state 3) 0 1 1 2 0%nat
              (demo_world (zero_state 3))) as (_ & _ & _ & HC & _);
    [reflexivity | apply zero_state_tableau | concrete_qubit.. | lia | lia | lia |].
  exact HC.
Defined.

Lemma gates_local_witness :
  exists T',
    array_of (CliffordOperations.H 0%nat 0 2 (demo_world bell_pair)) = Some T' /\
    ent T' 2 1 = ent bell_pair 2 1.
Proof.
  destruct (gates_touch_only_their_columns 2 bell_pair 0 0 1 0%nat
              (demo_world bell_pair)) as ((T' & HT' & Hent) & _);
    [reflexivity | concrete_tableau | concrete_qubit.. |].
  exists T'. split; [exact HT'|]. apply Hent; simpl; lia.
Defined.

(** ** Outcomes, random draws and the [collapse] flag *)

Section Draws.

Import CliffordOperations.

Variable n : nat.
Let m := (2 * n + 1)%nat.

Lemma nonzero_cons_inv (f : nat -> nat -> Z) Q k0 rest :
  nonzero (vtab n (fun i => f (n + i)%nat Q)) = k0 :: rest ->
  (k0 < n)%nat /\ f (n + k0)%nat Q <> 0.
Proof.
  intros Hnz.
  assert (Hin : k0 ∈ nonzero (vtab n (fun i => f (n + i)%nat Q)))
    by (rewrite Hnz; left).
  apply positions_vtab_in in Hin as [Hlt Hne]. split; [done|].
  intros Heq. rewrite Heq in Hne. discriminate.
Qed.

Lemma nonzero_nil_inv (f : nat -> nat -> Z) Q :
  nonzero (vtab n (fun i => f (n + i)%nat Q)) = [] ->
  forall k, (n <= k < 2 * n)%nat -> f k Q = 0.
Proof.
  intros Hnil k Hk.
  destruct (Z.eqb_spec (f k Q) 0) as [|Hne]; [done|]. exfalso.
  assert (Hin : (k - n)%nat ∈ nonzero (vtab n (fun i => f (n + i)%nat Q))).
  { apply positions_vtab_in. split; [lia|].
    replace (n + (k - n))%nat with k by lia.
    now destruct (Z.eqb_spec (f k Q) 0). }
  rewrite Hnil in Hin. inversion Hin.
Qed.

(** A step draws one bit when some stabilizer row has its X bit set at the
    measured qubit, and then the outcome is that bit; otherwise it draws
    nothing and its outcome is the same on every tape. *)
Lemma M_step_draw sc q w f :
  heap w !! sc = Some (tab m m f) -> bits m f -> valid_qubit n q ->
  exists c' w' o,
    M_step int64 sc q n w = Ok ((c', o), w') /\ tape w' = tape w /\
    ((exists k, (n <= k < 2 * n)%nat /\ f k (Z.to_nat q) <> 0) ->
       o = Z.b2z (tape w (pos w)) /\ pos w' = Datatypes.S (pos w)) /\
    ((forall k, (n <= k < 2 * n)%nat -> f k (Z.to_nat q) = 0) ->
       pos w' = pos w /\
       forall tp ps, exists c'' w'',
         M_step int64 sc q n (World (heap w) tp ps) = Ok ((c'', o), w'')).
Proof.
  intros Hsc Hf Hq.
  destruct (nonzero (vtab n (fun i => f (n + i)%nat (Z.to_nat q))))
    as [|k0 rest] eqn:Hnz.
  - destruct (M_step_det_exact n sc q w f Hsc Hf Hq Hnz)
      as (c' & w' & Hrun & _ & _ & _ & _ & Htape & Hpos).
    eexists c', w', _. split; [exact Hrun|]. split; [exact Htape|]. split.
    + intros (k & Hk & Hne). exfalso. apply Hne.
      now apply (nonzero_nil_inv f (Z.to_nat q) Hnz).
    + intros _. split; [exact Hpos|]. intros tp ps.
      destruct (M_step_det_exact n sc q (World (heap w) tp ps) f Hsc Hf Hq Hnz)
        as (c'' & w'' & Hrun' & _).
      now exists c'', w''.
  - destruct (M_step_rand_exact n sc q w f k0 rest Hsc Hf Hq Hnz)
      as (c' & w' & o & Hrun & _ & _ & _ & _ & _ & _ & Ho & Htape & Hpos).
    exists c', w', o. split; [exact Hrun|]. split; [exact Htape|]. split.
    + intros _. now split.
    + intros Hall. exfalso.
      destruct (nonzero_cons_inv f (Z.to_nat q) k0 rest Hnz) as [Hk0 Hne].
      apply Hne, Hall. lia.
Qed.

(** Two steps on arrays with the same entries, under the same tape at the
    same position, give the same outcome and again arrays with the same
    entries. *)
Lemma M_step_sim sc1 w1 sc2 w2 f q :
  heap w1 !! sc1 = Some (tab m m f) -> heap w2 !! sc2 = Some (tab m m f) ->
  bits m f -> valid_qubit n q ->
  tape w1 = tape w2 -> pos w1 = pos w2 ->
  exists c1 c2 w1' w2' g' o,
    M_step int64 sc1 q n w1 = Ok ((c1, o), w1') /\
    M_step int64 sc2 q n w2 = Ok ((c2, o), w2') /\
    heap w1' !! c1 = Some (tab m m g') /\
    heap w2' !! c2 = Some (tab m m g') /\ bits m g' /\
    tape w1' = tape w2' /\ pos w1' = pos w2'.
Proof.
  intros H1 H2 Hf Hq Htape Hpos.
  destruct (nonzero (vtab n (fun i => f (n + i)%nat (Z.to_nat q))))
    as [|k0 rest] eqn:Hnz.
  - destruct (M_step_det_exact n sc1 q w1 f H1 Hf Hq Hnz)
      as (c1 & w1' & Hrun1 & Hc1 & Hb & _ & _ & Ht1 & Hp1).
    destruct (M_step_det_exact n sc2 q w2 f H2 Hf Hq Hnz)
      as (c2 & w2' & Hrun2 & Hc2 & _ & _ & _ & Ht2 & Hp2).
    eexists c1, c2, w1', w2', _, _.
    split; [exact Hrun1|]. split; [exact Hrun2|]. split; [exact Hc1|].
    split; [exact Hc2|]. split; [exact Hb|]. split; congruence.
  - destruct (M_step_rand_exact n sc1 q w1 f k0 rest H1 Hf Hq Hnz)
      as (c1 & w1' & o1 & Hrun1 & Hbo & Hc1 & _ & _ & _ & _ & Ho1 & Ht1 & Hp1).
    destruct (M_step_rand_exact n sc2 q w2 f k0 rest H2 Hf Hq Hnz)
      as (c2 & w2' & o2 & Hrun2 & _ & Hc2 & _ & _ & _ & _ & Ho2 & Ht2 & Hp2).
    assert (Heq : o2 = o1) by (rewrite Ho1, Ho2; congruence).
    rewrite Heq in Hrun2, Hc2.
    destruct (nonzero_cons_inv f (Z.to_nat q) k0 rest Hnz) as [Hk0 _].
    eexists c1, c2, w1', w2', _, o1.
    split; [exact Hrun1|]. split; [exact Hrun2|]. split; [exact Hc1|].
    split; [exact Hc2|]. split.
    { apply bits_collapse_ent; [|unfold m; lia|exact Hbo].
      apply bits_rand_fold; [lia| |exact Hf].
      intros i Hi. apply positions_vtab_in in Hi as [Hi _]. lia. }
    split; congruence.
Qed.

Lemma M_loop_sim dt qubits :
  forall sc1 w1 sc2 w2 f acc,
    heap w1 !! sc1 = Some (tab m m f) -> heap w2 !! sc2 = Some (tab m m f) ->
    bits m f -> Forall (valid_qubit n) qubits ->
    tape w1 = tape w2 -> pos w1 = pos w2 ->
    (exists c1 c2 w1' w2' sample,
       M_loop dt sc1 qubits n acc w1 = Ok ((c1, sample), w1') /\
       M_loop dt sc2 qubits n acc w2 = Ok ((c2, sample), w2')) \/
    (dt = bool_ /\
     M_loop dt sc1 qubits n acc w1 = Raise TypeError /\
     M_loop dt sc2 qubits n acc w2 = Raise TypeError).
Proof.
  induction qubits as [|q qubits IH];
    intros sc1 w1 sc2 w2 f acc H1 H2 Hf Hqs Htape Hpos.
  - left. now exists sc1, sc2, w1, w2, acc.
  - apply Forall_cons in Hqs as [Hq Hqs]. cbn [M_loop].
    assert (Ha : norm_index n q = Ok (Z.to_nat q))
      by (apply norm_index_in, Hq).
    pose proof (M_step_dt n dt sc1 q w1 f (Z.to_nat q) H1 Hf Ha) as E1.
    pose proof (M_step_dt n dt sc2 q w2 f (Z.to_nat q) H2 Hf Ha) as E2.
    destruct (step_raises dt n (Z.to_nat q) f) eqn:Hs.
    + right. split; [eapply step_raises_bool, Hs|].
      split; apply bind_raise; assumption.
    + destruct (M_step_sim sc1 w1 sc2 w2 f q H1 H2 Hf Hq Htape Hpos)
        as (c1 & c2 & w1' & w2' & g' & o & Hs1 & Hs2 & Hc1 & Hc2 & Hb & Ht & Hp).
      rewrite <- E1 in Hs1. rewrite <- E2 in Hs2.
      rewrite (bind_eq _ _ _ _ _ Hs1), (bind_eq _ _ _ _ _ Hs2). cbv beta iota.
      exact (IH c1 w1' c2 w2' g' (acc ++ [o]) Hc1 Hc2 Hb Hqs Ht Hp).
Qed.

End Draws.

(** On an integer tableau a single-qubit measurement draws a random bit
    exactly when some stabilizer row has its X bit set at the measured
    qubit. *)
Lemma M_draws n T q collapse l w :
  heap w !! l = Some T -> tableau_of n T -> valid_qubit n q ->
  exists o w',
    CliffordOperations.M int64 l [q] n collapse w = Ok ([o], w') /\
    tape w' = tape w /\
    ((exists k, (n <= k < 2 * n)%nat /\ ent T k (Z.to_nat q) <> 0) ->
       o = Z.b2z (tape w (pos w)) /\ pos w' = Datatypes.S (pos w)) /\
    ((forall k, (n <= k < 2 * n)%nat -> ent T k (Z.to_nat q) = 0) ->
       pos w' = pos w /\
       forall tp ps,
         returned (CliffordOperations.M int64 l [q] n collapse (World (heap w) tp ps))
         = Some [o]).
Proof.
  intros Hl HT Hq. pose proof (tableau_bits n T HT) as Hbits.
  destruct HT as [Hsh _]. pose proof (shape_tab _ _ _ Hsh) as HTab.
  destruct collapse.
  - assert (Hlf : heap w !! l = Some (tab (2 * n + 1) (2 * n + 1) (ent T)))
      by (rewrite <- HTab; exact Hl).
    destruct (M_step_draw n l q w (ent T) Hlf Hbits Hq)
      as (c' & w' & o & Hrun & Htape & Hrand & Hdet).
    exists o, w'. split; [eapply M_single_collapse, Hrun|].
    split; [exact Htape|]. split; [exact Hrand|].
    intros Hall. destruct (Hdet Hall) as [Hpos Hany]. split; [exact Hpos|].
    intros tp ps. destruct (Hany tp ps) as (c'' & w'' & Hrun').
    now rewrite (M_single_collapse int64 l q n _ c'' o w'' Hrun').
  - set (w0 := World (heap w ++ [T]) (tape w) (pos w)).
    assert (Hl0 : heap w0 !! length (heap w)
                  = Some (tab (2 * n + 1) (2 * n + 1) (ent T))).
    { unfold w0. cbn [heap]. rewrite lookup_end. now f_equal. }
    destruct (M_step_draw n (length (heap w)) q w0 (ent T) Hl0 Hbits Hq)
      as (c' & w' & o & Hrun & Htape & Hrand & Hdet).
    exists o, w'. split; [eapply M_single_copy; [exact Hl|exact Hrun]|].
    split; [exact Htape|]. split; [exact Hrand|].
    intros Hall. destruct (Hdet Hall) as [Hpos Hany]. split; [exact Hpos|].
    intros tp ps. destruct (Hany tp ps) as (c'' & w'' & Hrun').
    now rewrite (M_single_copy int64 l T q n (World (heap w) tp ps) c'' o w'' Hl Hrun').
Qed.

(** X21. A single-qubit measurement of a tableau of dtype [dt] raises
    [TypeError] when [step_raises] holds, which takes a boolean tableau.
    Otherwise it draws a random bit exactly when some stabilizer row has
    its X bit set at the measured qubit, and the outcome is then the bit
    drawn; when no such row exists nothing is drawn and the outcome is the
    same whatever the random source holds. *)
Theorem M_draws_only_when_random dt n T q collapse l w :
  heap w !! l = Some T -> tableau_of n T -> valid_qubit n q ->
  if step_raises dt n (Z.to_nat q) (ent T)
  then raises (CliffordOperations.M dt l [q] n collapse w) TypeError
  else
    exists o w',
      CliffordOperations.M dt l [q] n collapse w = Ok ([o], w') /\
      tape w' = tape w /\
      ((exists k, (n <= k < 2 * n)%nat /\ ent T k (Z.to_nat q) <> 0) ->
         o = Z.b2z (tape w (pos w)) /\ pos w' = Datatypes.S (pos w)) /\
      ((forall k, (n <= k < 2 * n)%nat -> ent T k (Z.to_nat q) = 0) ->
         pos w' = pos w /\
         forall tp ps,
           returned (CliffordOperations.M dt l [q] n collapse
                       (World (heap w) tp ps))
           = Some [o]).
Proof.
  intros Hl HT Hq.
  assert (Ha : norm_index n q = Ok (Z.to_nat q)) by (apply norm_index_in, Hq).
  pose proof (fun w0 Hl0 => M_single_dt dt n T q (Z.to_nat q) collapse l w0
                              Hl0 HT Ha) as Hdt.
  destruct (step_raises dt n (Z.to_nat q) (ent T)).
  - apply (Hdt w Hl).
  - destruct (M_draws n T q collapse l w Hl HT Hq)
      as (o & w' & Hrun & Htape & Hrand & Hdet).
    exists o, w'. rewrite (Hdt w Hl).
    split; [exact Hrun|]. split; [exact Htape|]. split; [exact Hrand|].
    intros Hall. destruct (Hdet Hall) as [Hpos Hany]. split; [exact Hpos|].
    intros tp ps. rewrite (Hdt (World (heap w) tp ps) Hl). apply Hany.
Qed.

(** X22. The sample does not depend on [collapse]: from the same tableau
    and the same random source, [M] returns the same list of outcomes
    whether it works on the caller's array or on a copy; and when one of
    the two calls raises [TypeError], which takes a boolean tableau, so
    does the other. *)
Theorem M_sample_ignores_collapse dt n T qubits l w :
  heap w !! l = Some T -> tableau_of n T -> Forall (valid_qubit n) qubits ->
  (exists sample w1 w2,
     CliffordOperations.M dt l qubits n true w = Ok (sample, w1) /\
     CliffordOperations.M dt l qubits n false w = Ok (sample, w2)) \/
  (dt = bool_ /\
   raises (CliffordOperations.M dt l qubits n true w) TypeError /\
   raises (CliffordOperations.M dt l qubits n false w) TypeError).
Proof.
  intros Hl HT Hqs. pose proof (tableau_bits n T HT) as Hbits.
  destruct HT as [Hsh _]. unfold raises.
  rewrite (M_start dt l T qubits n true w Hl).
  rewrite (M_start dt l T qubits n false w Hl).
  destruct (M_loop_sim n dt qubits _ _ _ _ (ent T) []
              (M_start_lookup l T n true w Hl Hsh)
              (M_start_lookup l T n false w Hl Hsh)
              Hbits Hqs eq_refl eq_refl)
    as [(c1 & c2 & w1 & w2 & sample & H1 & H2)|(Hdt & H1 & H2)].
  - left. exists sample, w1, w2. split.
    + eapply bind_step; [exact H1|]. reflexivity.
    + eapply bind_step; [exact H2|]. reflexivity.
  - right. split; [exact Hdt|]. split; now apply bind_raise.
Qed.

Lemma M_draws_witness :
  exists o w',
    CliffordOperations.M bool_ 0%nat [0] 2 true (demo_world bell_pair) = Ok ([o], w') /\
    o = Z.b2z (tape (demo_world bell_pair) (pos (demo_world bell_pair))) /\
    pos w' = Datatypes.S (pos (demo_world bell_pair)).
Proof.
  pose proof (M_draws_only_when_random bool_ 2 bell_pair 0 true 0%nat
                (demo_world bell_pair)) as Hw.
  change (step_raises bool_ 2 (Z.to_nat 0) (ent bell_pair)) with false in Hw.
  destruct Hw as (o & w' & Hrun & _ & Hrand & _);
    [reflexivity | concrete_tableau | concrete_qubit |].
  exists o, w'. split; [exact Hrun|]. apply Hrand.
  exists 2%nat. split; [lia|]. vm_compute. discriminate.
Defined.

Lemma M_sample_collapse_witness :
  exists sample w1 w2,
    CliffordOperations.M bool_ 0%nat [0; 1] 2 true (demo_world bell_pair)
      = Ok (sample, w1) /\
    CliffordOperations.M bool_ 0%nat [0; 1] 2 false (demo_world bell_pair)
      = Ok (sample, w2).
Proof.
  destruct (M_sample_ignores_collapse bool_ 2 bell_pair [0; 1] 0%nat
              (demo_world bell_pair)) as [Hok|(_ & Hr & _)];
    [reflexivity | concrete_tableau | repeat constructor; concrete_qubit
    | exact Hok |].
  vm_compute in Hr. discriminate.
Defined.
